(** * sef: tokenizer, parser and interpreter

    A shallow embedding of the three stages of the sef language
    (src/sef/token.py, src/sef/parser.py, src/sef/logic.py) and of the
    script that runs them (src/sef/__main__.py), together with the
    properties of the pipeline.

    Conventions of the embedding:
    - a Python [str] is a [string]; its characters are the code points
      below 256;
    - a Python [int] is a [Z]; a Python [float] is a binary64 number of
      [SpecFloat];
    - [int] on a [str] is the one of CPython 3.11, with its limit of 4300
      digits as it is when Python starts;
    - a Python [dict] keyed by names is a [gmap string _];
    - an exception aborts the run: every stage returns an [outcome];
    - recursion that the source leaves unbounded takes a [fuel] argument,
      and [OutOfFuel] is a separate outcome, never an exception (the
      recursion limit of the Python run time is not part of the model). *)

From Stdlib Require Import ZArith String Ascii List Bool Lia.
From Stdlib Require Import Floats.SpecFloat.
From stdpp Require Import base option list gmap strings.

Import ListNotations.
#[local] Set Warnings "-register-all".
Local Open Scope string_scope.
Local Open Scope list_scope.
Local Open Scope Z_scope.

(* ===================================================================== *)
(** * Text *)
(* ===================================================================== *)

Module Text.

Definition code (c : ascii) : N := N_of_ascii c.

Definition between (lo hi : N) (c : ascii) : bool :=
  ((lo <=? code c) && (code c <=? hi))%N.

(** [str.isspace] on one character, also the class [\s] of [re]. *)
Definition is_space (c : ascii) : bool :=
  between 9 13 c || between 28 32 c
  || (code c =? 133)%N || (code c =? 160)%N.

(** The class [[a-zA-Z_]]. *)
Definition is_letter (c : ascii) : bool :=
  between 97 122 c || between 65 90 c || (code c =? 95)%N.

(** The class [[0-9]]. *)
Definition is_digit (c : ascii) : bool := between 48 57 c.

(** The class [\w] of [re] on [str] patterns: alphanumeric or [_]. *)
Definition is_word (c : ascii) : bool :=
  is_letter c || is_digit c
  || (code c =? 170)%N || (code c =? 178)%N || (code c =? 179)%N
  || (code c =? 181)%N || (code c =? 185)%N || (code c =? 186)%N
  || between 188 190 c || between 192 214 c
  || between 216 246 c || between 248 255 c.

(** The class of the two quote characters, single and double. *)
Definition is_quote (c : ascii) : bool :=
  (code c =? 34)%N || (code c =? 39)%N.

Definition LF : ascii := ascii_of_N 10.

Definition is_newline (c : ascii) : bool := (code c =? 10)%N.

(** [s.lstrip()] *)
Fixpoint lstrip (s : string) : string :=
  match s with
  | String c rest => if is_space c then lstrip rest else s
  | EmptyString => EmptyString
  end.

(** [s[n:]] for [0 <= n] *)
Fixpoint drop (n : nat) (s : string) : string :=
  match n, s with
  | O, _ => s
  | S n', String _ rest => drop n' rest
  | S _, EmptyString => EmptyString
  end.

(** [s[:n]] for [0 <= n] *)
Fixpoint take (n : nat) (s : string) : string :=
  match n, s with
  | O, _ => EmptyString
  | S n', String c rest => String c (take n' rest)
  | S _, EmptyString => EmptyString
  end.

(** Length of the longest prefix whose characters all satisfy [p]. *)
Fixpoint span (p : ascii -> bool) (s : string) : nat :=
  match s with
  | String c rest => if p c then S (span p rest) else O
  | EmptyString => O
  end.

(** The characters of [s] that are not whitespace, in order. *)
Fixpoint squeeze (s : string) : string :=
  match s with
  | String c rest =>
      if is_space c then squeeze rest else String c (squeeze rest)
  | EmptyString => EmptyString
  end.

Fixpoint all_space (s : string) : bool :=
  match s with
  | String c rest => is_space c && all_space rest
  | EmptyString => true
  end.

(** Is there a line feed in [s]? *)
Fixpoint has_newline (s : string) : bool :=
  match s with
  | String c rest => is_newline c || has_newline rest
  | EmptyString => false
  end.

Definition head (s : string) : option ascii :=
  match s with
  | String c _ => Some c
  | EmptyString => None
  end.

(** [s.startswith(p)] *)
Definition starts_with (p s : string) : bool := String.prefix p s.

End Text.

(* ===================================================================== *)
(** * Tokens (token.py) *)
(* ===================================================================== *)

Inductive TokenType : Set :=
| DEF
| END
| VARIABLE_DECLARATION
| IDENTIFIER
| INTEGER
| STRING
| OPEN_PAREN
| CLOSE_PAREN
| COMMA
| ADD
| SUBTRACT
| MULTIPLY
| DIVIDE.

#[global] Instance TokenType_eq_dec : EqDecision TokenType.
Proof. solve_decision. Defined.

Record Token : Set := mkToken { type : TokenType; value : string }.

#[global] Instance Token_eq_dec : EqDecision Token.
Proof. solve_decision. Defined.

(* ===================================================================== *)
(** * AST nodes (nodes.py) *)
(* ===================================================================== *)

Inductive Operator : Set :=
| OpADD
| OpSUBTRACT
| OpDIVIDE
| OpMULTIPLY.

#[global] Instance Operator_eq_dec : EqDecision Operator.
Proof. solve_decision. Defined.

(** Everything that can stand where an expression is expected.  A Python
    [list] of nodes, which the parser returns for a run of two or more
    items, is [ListNode]. *)
Inductive node : Type :=
| StringNode (v : string)
| IntegerNode (v : Z)
| VariableReferenceNode (v : string)
| OperatorNode (v : Operator)
| CallNode (callee : string) (arg_exprs : list node)
| VariableDeclarationNode (target : string) (expression : node)
| ListNode (items : list node).

(** [DefinitionNode]: the parser builds definitions at the top level only
    and [Interpreter.ast] is a [List[DefinitionNode]]. *)
Record DefinitionNode : Type :=
  mkDefinition { name : string; arguments : list string; body : node }.

(** The node classes that [isinstance] is asked about. *)
Inductive node_class : Set :=
| ClsString
| ClsInteger
| ClsVariableReference
| ClsOperator
| ClsCall
| ClsVariableDeclaration
| ClsList.

#[global] Instance node_class_eq_dec : EqDecision node_class.
Proof. solve_decision. Defined.

Definition class_of (x : node) : node_class :=
  match x with
  | StringNode _ => ClsString
  | IntegerNode _ => ClsInteger
  | VariableReferenceNode _ => ClsVariableReference
  | OperatorNode _ => ClsOperator
  | CallNode _ _ => ClsCall
  | VariableDeclarationNode _ _ => ClsVariableDeclaration
  | ListNode _ => ClsList
  end.

(* ===================================================================== *)
(** * Run-time values, exceptions and outcomes *)
(* ===================================================================== *)

(** The objects a sef program computes with: [int], [float], [str],
    members of the [Operator] enum and [None]. *)
Inductive pyval : Type :=
| PyInt (z : Z)
| PyFloat (f : spec_float)
| PyStr (s : string)
| PyOperator (o : Operator)
| PyNone.

(** One constructor for each [raise] of the source, and one for each
    built-in exception its statements can throw. *)
Inductive exception : Type :=
(* token.py *)
| NoValidTokens (rest : string)
(* parser.py *)
| LookingForType (expected found : TokenType)
| InvalidTokenType (tok : Token)
(* logic.py, begin_execution *)
| MustDeclareMain
| MainTakesArguments (n : nat)
(* logic.py, execute_item *)
| CouldNotFindFunction (callee : string)
| TakesArgumentsInsteadOf (callee : string) (params : list string) (n : nat)
| NoWayToExecute (item : node)
(* logic.py, call_function *)
| FunctionDoesNotExist (callee : string)
| FunctionExpects (callee : string) (expected got : nat)
(* built-in exceptions *)
| KeyError (key : pyval)
| TypeError
| IndexError
| AttributeError
| ValueError
| UnboundLocalError
| ZeroDivisionError
| OverflowError
| HostError (msg : string).

Inductive outcome (A : Type) : Type :=
| Ok (a : A)
| Raise (e : exception)
| OutOfFuel.

Arguments Ok {A} a.
Arguments Raise {A} e.
Arguments OutOfFuel {A}.

Definition bind {A B : Type} (m : outcome A) (k : A -> outcome B) : outcome B :=
  match m with
  | Ok a => k a
  | Raise e => Raise e
  | OutOfFuel => OutOfFuel
  end.

Declare Scope outcome_scope.
Delimit Scope outcome_scope with outcome.
Notation "'let*' x := m 'in' k" := (bind m (fun x => k))
  (at level 10, x pattern, m at level 200, k at level 200) : outcome_scope.
Local Open Scope outcome_scope.

(* ===================================================================== *)
(** * The tokenizer (token.py) *)
(* ===================================================================== *)

Module Re.

Import Text.

(** How many characters each pattern of [TOKENS] matches at the start of
    [code], if it matches at all.  Every pattern is anchored by [\A], so
    a leading [\b] asks for a word character first, and a trailing [\b]
    for a change between word and non-word character (or the end of the
    text after a word character). *)

Definition char_is (c : ascii) (s : string) : bool :=
  match s with
  | String c' _ => Ascii.eqb c c'
  | EmptyString => false
  end.

Definition at_word (s : string) : bool :=
  match s with
  | String c _ => is_word c
  | EmptyString => false
  end.

(** [\bdef \b] *)
Definition def_ (code : string) : option nat :=
  if starts_with "def " code && at_word (drop 4 code) then Some 4%nat
  else None.

(** [\bend\b] *)
Definition end_ (code : string) : option nat :=
  if starts_with "end" code && negb (at_word (drop 3 code)) then Some 3%nat
  else None.

(** [.+\n]: one or more characters other than a line feed, then a line
    feed. *)
Definition line (s : string) : option nat :=
  let m := span (fun c => negb (is_newline c)) s in
  match m with
  | O => None
  | S _ => if char_is LF (drop m s) then Some (S m) else None
  end.

(** [\s?=] *)
Definition equals_sign (s : string) : option nat :=
  match s with
  | String c rest =>
      if Ascii.eqb c "=" then Some 1%nat
      else if is_space c && char_is "=" rest then Some 2%nat
      else None
  | EmptyString => None
  end.

(** [\b([a-zA-Z_]+)\s?=\s?(.+)\n]: the two groups and the length of the
    whole match.  The optional [\s] after the sign is tried first; when
    the rest of the pattern fails behind it, the match is tried again
    without it. *)
Definition declaration (code : string) : option (string * string * nat) :=
  match span is_letter code with
  | O => None
  | S _ as n =>
      match equals_sign (drop n code) with
      | None => None
      | Some k =>
          let r := drop (n + k) code in
          let plain :=
            match line r with
            | Some m => Some (take n code, take (m - 1) r, (n + k + m)%nat)
            | None => None
            end in
          match r with
          | String c r' =>
              if is_space c then
                match line r' with
                | Some m =>
                    Some (take n code, take (m - 1) r', (n + k + 1 + m)%nat)
                | None => plain
                end
              else plain
          | EmptyString => None
          end
      end
  end.

(** [\b[a-zA-Z_]+\s?=\s?.+\n] *)
Definition variable_declaration (code : string) : option nat :=
  match declaration code with
  | Some (_, _, n) => Some n
  | None => None
  end.

(** [\b[a-zA-Z_]+\b] *)
Definition identifier (code : string) : option nat :=
  match span is_letter code with
  | O => None
  | S _ as n => if at_word (drop n code) then None else Some n
  end.

(** [[0-9]+] *)
Definition integer (code : string) : option nat :=
  match span is_digit code with
  | O => None
  | S _ as n => Some n
  end.

(** A quote, one or more characters that are not quotes, a quote; the
    group is the text between the quotes. *)
Definition quoted (code : string) : option (string * nat) :=
  match code with
  | String q rest =>
      if is_quote q then
        match span (fun c => negb (is_quote c)) rest with
        | O => None
        | S _ as m =>
            match drop m rest with
            | String _ _ => Some (take m rest, S (S m))
            | EmptyString => None
            end
        end
      else None
  | EmptyString => None
  end.

Definition string_ (code : string) : option nat :=
  match quoted code with
  | Some (_, n) => Some n
  | None => None
  end.

(** A pattern of one literal character. *)
Definition literal (c : ascii) (code : string) : option nat :=
  if char_is c code then Some 1%nat else None.

End Re.

(** The ordered table of patterns. *)
Definition TOKENS : list (TokenType * (string -> option nat)) :=
  [ (DEF, Re.def_);
    (END, Re.end_);
    (VARIABLE_DECLARATION, Re.variable_declaration);
    (IDENTIFIER, Re.identifier);
    (INTEGER, Re.integer);
    (STRING, Re.string_);
    (OPEN_PAREN, Re.literal "(");
    (CLOSE_PAREN, Re.literal ")");
    (COMMA, Re.literal ",");
    (ADD, Re.literal "+");
    (SUBTRACT, Re.literal "-");
    (MULTIPLY, Re.literal "*");
    (DIVIDE, Re.literal "/") ].

(** A pattern that matches one character or more whenever it matches. *)
Definition productive (token_re : string -> option nat) : Prop :=
  forall code n, token_re code = Some n -> (1 <= n)%nat.

(** The [for] loop of [tokenize_next] over the table: the first pattern
    that matches gives the token and the code left behind it. *)
Fixpoint first_match (table : list (TokenType * (string -> option nat)))
    (code : string) : option (Token * string) :=
  match table with
  | [] => None
  | (token_type, token_re) :: rest =>
      match token_re code with
      | Some n => Some (mkToken token_type (Text.take n code), Text.drop n code)
      | None => first_match rest code
      end
  end.

Definition tokenize_next (code : string) : outcome (Token * string) :=
  match first_match TOKENS code with
  | Some r => Ok r
  | None => Raise (NoValidTokens code)
  end.

(** The [while self.code != ""] loop of [tokenize_code]. *)
Fixpoint tokenize_loop (fuel : nat) (code : string) (tokens : list Token)
    : outcome (list Token) :=
  match code with
  | EmptyString => Ok tokens
  | String _ _ =>
      match fuel with
      | O => OutOfFuel
      | S fuel' =>
          let* (token, code') := tokenize_next code in
          tokenize_loop fuel' (Text.lstrip code') (tokens ++ [token])
      end
  end.

(** [Tokenizer(source).tokenize_code()]: the constructor strips the
    source on the left; every token takes at least one character, so the
    length of the code is fuel enough. *)
Definition tokenize_code (source : string) : outcome (list Token) :=
  let code := Text.lstrip source in
  tokenize_loop (String.length code) code [].

(** Re-joining the raw text of the tokens. *)
Definition raw_text (tokens : list Token) : string :=
  fold_right (fun t acc => String.append (value t) acc) EmptyString tokens.

(** [source] is made of the raw texts of [tokens], in order, with nothing
    but whitespace in front of them, between them and behind them. *)
Inductive interleaved : list Token -> string -> Prop :=
| interleaved_nil (gap : string) :
    Text.all_space gap = true -> interleaved [] gap
| interleaved_cons (gap : string) (token : Token) (tokens : list Token)
    (rest : string) :
    Text.all_space gap = true ->
    interleaved tokens rest ->
    interleaved (token :: tokens)
      (String.append gap (String.append (value token) rest)).

(* ===================================================================== *)
(** * The parser (parser.py) *)
(* ===================================================================== *)

(** The value of a digit, and of a run of digits. *)
Definition digit_value (c : ascii) : Z := Z.of_N (Text.code c) - 48.

Fixpoint digits_value (acc : Z) (s : string) : Z :=
  match s with
  | String c rest => digits_value (10 * acc + digit_value c) rest
  | EmptyString => acc
  end.

Fixpoint all_digits (s : string) : bool :=
  match s with
  | String c rest => Text.is_digit c && all_digits rest
  | EmptyString => true
  end.

(** The whitespace that [int] skips around a number: the ASCII
    whitespace of C and, of the characters above 127, those that are
    whitespace for [str]. *)
Definition is_int_space (c : ascii) : bool :=
  Text.between 9 13 c || (Text.code c =? 32)%N
  || (Text.code c =? 133)%N || (Text.code c =? 160)%N.

Fixpoint skip_int_space (s : string) : string :=
  match s with
  | String c rest => if is_int_space c then skip_int_space rest else s
  | EmptyString => EmptyString
  end.

Fixpoint all_int_space (s : string) : bool :=
  match s with
  | String c rest => is_int_space c && all_int_space rest
  | EmptyString => true
  end.

(** The digits of a number for [int]: one digit or more, single
    underscores between digits, then whitespace up to the end. *)
Fixpoint int_digits (after_digit : bool) (s : string) : option string :=
  match s with
  | EmptyString => if after_digit then Some EmptyString else None
  | String c rest =>
      if Text.is_digit c then option_map (String c) (int_digits true rest)
      else if Ascii.eqb c "_" then
        if after_digit then int_digits false rest else None
      else if after_digit && all_int_space s then Some EmptyString
      else None
  end.

(** [sys.get_int_max_str_digits()], as it is set when Python starts. *)
Definition max_str_digits : Z := 4300.

(** [int(s)] on a [str]: whitespace, a sign, the digits, whitespace;
    [ValueError] for any other text and for more digits than
    [max_str_digits]. *)
Definition int_of_string (s : string) : outcome Z :=
  let s1 := skip_int_space s in
  let '(negative, s2) :=
    match s1 with
    | String c rest =>
        if Ascii.eqb c "-" then (true, rest)
        else if Ascii.eqb c "+" then (false, rest)
        else (false, s1)
    | EmptyString => (false, s1)
    end in
  match int_digits false s2 with
  | Some digits =>
      if max_str_digits <? Z.of_nat (String.length digits)
      then Raise ValueError
      else
        Ok (if negative : bool then - digits_value 0 digits
            else digits_value 0 digits)
  | None => Raise ValueError
  end.

(** [self.peek(expected_type, offset)] *)
Definition peek (tokens : list Token) (expected_type : TokenType)
    (offset : nat) : bool :=
  match tokens !! offset with
  | Some token => bool_decide (type token = expected_type)
  | None => false
  end.

(** [self.consume(expected_type)]: the token and the tokens left. *)
Definition consume (tokens : list Token) (expected_type : TokenType)
    : outcome (Token * list Token) :=
  match tokens with
  | [] => Raise IndexError
  | token :: rest =>
      if bool_decide (type token ≠ expected_type)
      then Raise (LookingForType expected_type (type token))
      else Ok (token, rest)
  end.

Definition is_operator_next (tokens : list Token) : bool :=
  existsb (fun operator => peek tokens operator 0)
    [ADD; SUBTRACT; DIVIDE; MULTIPLY].

Definition parse_variable_reference (tokens : list Token)
    : outcome (node * list Token) :=
  let* (token, tokens1) := consume tokens IDENTIFIER in
  Ok (VariableReferenceNode (value token), tokens1).

Definition parse_operator (tokens : list Token) : outcome (node * list Token) :=
  if peek tokens ADD 0 then
    let* (_, tokens1) := consume tokens ADD in Ok (OperatorNode OpADD, tokens1)
  else if peek tokens SUBTRACT 0 then
    let* (_, tokens1) := consume tokens SUBTRACT in
    Ok (OperatorNode OpSUBTRACT, tokens1)
  else if peek tokens DIVIDE 0 then
    let* (_, tokens1) := consume tokens DIVIDE in
    Ok (OperatorNode OpDIVIDE, tokens1)
  else if peek tokens MULTIPLY 0 then
    let* (_, tokens1) := consume tokens MULTIPLY in
    Ok (OperatorNode OpMULTIPLY, tokens1)
  else Raise UnboundLocalError.

Definition parse_string (tokens : list Token) : outcome (node * list Token) :=
  let* (token, tokens1) := consume tokens STRING in
  match Re.quoted (value token) with
  | Some (text, _) => Ok (StringNode text, tokens1)
  | None => Raise AttributeError
  end.

Definition parse_integer (tokens : list Token) : outcome (node * list Token) :=
  let* (token, tokens1) := consume tokens INTEGER in
  let* z := int_of_string (value token) in
  Ok (IntegerNode z, tokens1).

(** The [while self.peek(TokenType.COMMA)] loop of [parse_argument_names];
    it stops by itself, one token or more being taken in each round. *)
Fixpoint parse_argument_names_loop (fuel : nat) (arg_names : list string)
    (tokens : list Token) : outcome (list string * list Token) :=
  if peek tokens COMMA 0 then
    match fuel with
    | O => OutOfFuel
    | S fuel' =>
        let* (_, tokens1) := consume tokens COMMA in
        let* (token, tokens2) := consume tokens1 IDENTIFIER in
        parse_argument_names_loop fuel' (arg_names ++ [value token]) tokens2
    end
  else Ok (arg_names, tokens).

Definition parse_argument_names (tokens : list Token)
    : outcome (list string * list Token) :=
  let* (_, tokens1) := consume tokens OPEN_PAREN in
  let* (arg_names, tokens2) :=
    if peek tokens1 IDENTIFIER 0 then
      let* (token, tokens2) := consume tokens1 IDENTIFIER in
      parse_argument_names_loop (length tokens2) [value token] tokens2
    else Ok ([], tokens1) in
  let* (_, tokens3) := consume tokens2 CLOSE_PAREN in
  Ok (arg_names, tokens3).

(** [return items if len(items) > 1 else items[0]] *)
Definition expr_result (items : list node) : outcome node :=
  match items with
  | [] => Raise IndexError
  | [item] => Ok item
  | _ :: _ :: _ => Ok (ListNode items)
  end.

(** [len(self.tokens)] *)
Definition len (tokens : list Token) : Z := Z.of_nat (length tokens).

(** The chain of tests at the head of the loop of [parse_expr]: the next
    token picks the parser of one item.  The parsers of a call and of a
    variable declaration come back to [parse_expr] and are passed in. *)
Definition parse_item
    (parse_call parse_variable_declaration
       : list Token -> outcome (node * list Token))
    (tokens : list Token) : outcome (node * list Token) :=
  if peek tokens INTEGER 0 then parse_integer tokens
  else if peek tokens STRING 0 then parse_string tokens
  else if is_operator_next tokens then parse_operator tokens
  else if peek tokens IDENTIFIER 0 && peek tokens OPEN_PAREN 1
  then parse_call tokens
  else if peek tokens VARIABLE_DECLARATION 0
  then parse_variable_declaration tokens
  else if peek tokens IDENTIFIER 0 then parse_variable_reference tokens
  else
    match tokens with
    | token :: _ => Raise (InvalidTokenType token)
    | [] => Raise IndexError
    end.

(** The tests at the foot of the loop, once the count of tokens has not
    stopped it: the end of an argument in a call, [END] otherwise. *)
Definition finished (function_call : bool) (tokens : list Token) : bool :=
  if function_call
  then peek tokens COMMA 0 || peek tokens CLOSE_PAREN 0
  else peek tokens END 0.

(** The mutually recursive part of the parser.  [parse_expr_loop] is the
    [while not finished] loop of [parse_expr], entered with the items
    parsed so far: the [break] on the count of tokens and the end of the
    loop on [finished] both lead to the [return].
    [parse_argument_expressions_loop] is the outer and
    [parse_argument_commas_loop] the inner loop of
    [parse_argument_expressions]. *)
Fixpoint parse_expr_loop (fuel : nat) (function_call : bool) (n : Z)
    (start_len : Z) (items : list node) (tokens : list Token) {struct fuel}
    : outcome (node * list Token) :=
  match fuel with
  | O => OutOfFuel
  | S fuel' =>
      let* (item, tokens1) :=
        parse_item (parse_call fuel') (parse_variable_declaration fuel')
          tokens in
      let items1 := items ++ [item] in
      if (start_len - len tokens1 =? n) || finished function_call tokens1
      then let* result := expr_result items1 in Ok (result, tokens1)
      else parse_expr_loop fuel' function_call n start_len items1 tokens1
  end

with parse_call (fuel : nat) (tokens : list Token) {struct fuel}
    : outcome (node * list Token) :=
  match fuel with
  | O => OutOfFuel
  | S fuel' =>
      let* (token, tokens1) := consume tokens IDENTIFIER in
      let* (_, tokens2) := consume tokens1 OPEN_PAREN in
      let* (argument_expressions, tokens3) :=
        parse_argument_expressions_loop fuel' [] tokens2 in
      let* (_, tokens4) := consume tokens3 CLOSE_PAREN in
      Ok (CallNode (value token) argument_expressions, tokens4)
  end

with parse_argument_expressions_loop (fuel : nat) (expressions : list node)
    (tokens : list Token) {struct fuel} : outcome (list node * list Token) :=
  match fuel with
  | O => OutOfFuel
  | S fuel' =>
      if peek tokens CLOSE_PAREN 0 then Ok (expressions, tokens)
      else
        let* (expression, tokens1) :=
          parse_expr_loop fuel' true (-1) (len tokens) [] tokens in
        parse_argument_commas_loop fuel' (expressions ++ [expression]) tokens1
  end

with parse_argument_commas_loop (fuel : nat) (expressions : list node)
    (tokens : list Token) {struct fuel} : outcome (list node * list Token) :=
  match fuel with
  | O => OutOfFuel
  | S fuel' =>
      if peek tokens COMMA 0 then
        let* (_, tokens1) := consume tokens COMMA in
        let* (expression, tokens2) :=
          parse_expr_loop fuel' true (-1) (len tokens1) [] tokens1 in
        parse_argument_commas_loop fuel' (expressions ++ [expression]) tokens2
      else parse_argument_expressions_loop fuel' expressions tokens
  end

with parse_variable_declaration (fuel : nat) (tokens : list Token)
    {struct fuel} : outcome (node * list Token) :=
  match fuel with
  | O => OutOfFuel
  | S fuel' =>
      let* (token, tokens1) := consume tokens VARIABLE_DECLARATION in
      match Re.declaration (value token) with
      | None => Raise AttributeError
      | Some (target, expression, _) =>
          let* new_tokens := tokenize_code expression in
          let tokens2 := new_tokens ++ tokens1 in
          let* (body, tokens3) :=
            parse_expr_loop fuel' false (len new_tokens) (len tokens2) []
              tokens2 in
          Ok (VariableDeclarationNode target body, tokens3)
      end
  end.

(** [self.parse_expr(function_call, n)] *)
Definition parse_expr (fuel : nat) (function_call : bool) (n : Z)
    (tokens : list Token) : outcome (node * list Token) :=
  parse_expr_loop fuel function_call n (len tokens) [] tokens.

Definition parse_argument_expressions (fuel : nat) (tokens : list Token)
    : outcome (list node * list Token) :=
  parse_argument_expressions_loop fuel [] tokens.

Definition parse_definition (fuel : nat) (tokens : list Token)
    : outcome (DefinitionNode * list Token) :=
  let* (_, tokens1) := consume tokens DEF in
  let* (token, tokens2) := consume tokens1 IDENTIFIER in
  let* (arg_names, tokens3) := parse_argument_names tokens2 in
  let* (body, tokens4) := parse_expr fuel false (-1) tokens3 in
  let* (_, tokens5) := consume tokens4 END in
  Ok (mkDefinition (value token) arg_names body, tokens5).

(** The [while self.peek(TokenType.DEF)] loop of [parse]. *)
Fixpoint parse_loop (fuel : nat) (definitions : list DefinitionNode)
    (tokens : list Token) : outcome (list DefinitionNode) :=
  if peek tokens DEF 0 then
    match fuel with
    | O => OutOfFuel
    | S fuel' =>
        let* (definition, tokens1) := parse_definition fuel' tokens in
        parse_loop fuel' (definitions ++ [definition]) tokens1
    end
  else Ok definitions.

Definition parse (fuel : nat) (tokens : list Token)
    : outcome (list DefinitionNode) :=
  parse_loop fuel [] tokens.

(** A node that is one item, not a Python list of items. *)
Definition single (e : node) : Prop :=
  match e with
  | ListNode _ => False
  | _ => True
  end.

(** The two shapes of what [parse_expr] returns: one item, or a list of
    two items or more. *)
Definition well_shaped (e : node) : Prop :=
  match e with
  | ListNode items => (2 <= length items)%nat
  | _ => True
  end.

(* ===================================================================== *)
(** * Python arithmetic on run-time values *)
(* ===================================================================== *)

Module Py.

Definition prec : Z := 53.
Definition emax : Z := 1024.

Definition overflow_check (f : spec_float) : outcome spec_float :=
  match f with
  | S754_infinity _ => Raise OverflowError
  | _ => Ok f
  end.

(** [float(z)] for an [int]: round to nearest even, [OverflowError] when
    the result does not fit. *)
Definition float_of_int (z : Z) : outcome spec_float :=
  overflow_check (binary_normalize prec emax z 0 false).

(** [a / b] on two [int]s: the correctly rounded quotient. *)
Definition int_truediv (a b : Z) : outcome spec_float :=
  if b =? 0 then Raise ZeroDivisionError
  else if a =? 0 then Ok (S754_zero (b <? 0))
  else
    let '(q, e, l) := SFdiv_core_binary prec emax (Z.abs a) 0 (Z.abs b) 0 in
    overflow_check (binary_round_aux prec emax (xorb (a <? 0) (b <? 0)) q e l).

Definition float_is_zero (f : spec_float) : bool :=
  match f with
  | S754_zero _ => true
  | _ => false
  end.

Definition float_truediv (x y : spec_float) : outcome spec_float :=
  if float_is_zero y then Raise ZeroDivisionError
  else Ok (SFdiv prec emax x y).

(** [s * n] on a [str] and an [int]. *)
Fixpoint repeat_string (n : nat) (s : string) : string :=
  match n with
  | O => EmptyString
  | S n' => String.append s (repeat_string n' s)
  end.

(** The common shape of [+], [-], [*] on numbers. *)
Definition numeric (on_int : Z -> Z -> Z)
    (on_float : spec_float -> spec_float -> spec_float)
    (a b : pyval) : outcome pyval :=
  match a, b with
  | PyInt x, PyInt y => Ok (PyInt (on_int x y))
  | PyInt x, PyFloat y =>
      let* fx := float_of_int x in Ok (PyFloat (on_float fx y))
  | PyFloat x, PyInt y =>
      let* fy := float_of_int y in Ok (PyFloat (on_float x fy))
  | PyFloat x, PyFloat y => Ok (PyFloat (on_float x y))
  | _, _ => Raise TypeError
  end.

(** [a + b] *)
Definition add (a b : pyval) : outcome pyval :=
  match a, b with
  | PyStr x, PyStr y => Ok (PyStr (String.append x y))
  | _, _ => numeric Z.add (SFadd prec emax) a b
  end.

(** [a - b] *)
Definition sub (a b : pyval) : outcome pyval :=
  numeric Z.sub (SFsub prec emax) a b.

(** [a * b] *)
Definition mul (a b : pyval) : outcome pyval :=
  match a, b with
  | PyStr x, PyInt n => Ok (PyStr (repeat_string (Z.to_nat n) x))
  | PyInt n, PyStr x => Ok (PyStr (repeat_string (Z.to_nat n) x))
  | _, _ => numeric Z.mul (SFmul prec emax) a b
  end.

(** [a / b] *)
Definition truediv (a b : pyval) : outcome pyval :=
  match a, b with
  | PyInt x, PyInt y => let* f := int_truediv x y in Ok (PyFloat f)
  | PyInt x, PyFloat y =>
      let* fx := float_of_int x in
      let* f := float_truediv fx y in Ok (PyFloat f)
  | PyFloat x, PyInt y =>
      let* fy := float_of_int y in
      let* f := float_truediv x fy in Ok (PyFloat f)
  | PyFloat x, PyFloat y => let* f := float_truediv x y in Ok (PyFloat f)
  | _, _ => Raise TypeError
  end.

(** [bool(v)], the test of [if value:]. *)
Definition truthy (v : pyval) : bool :=
  match v with
  | PyInt z => negb (z =? 0)
  | PyFloat f => negb (float_is_zero f)
  | PyStr s => negb (String.eqb s EmptyString)
  | PyOperator _ => true
  | PyNone => false
  end.

End Py.

(* ===================================================================== *)
(** * The interpreter (logic.py) *)
(* ===================================================================== *)

(** The host side of a call that no definition answers: the callables of
    [__builtins__], each taking the evaluated arguments and acting on the
    outside world. *)
Inductive host_result : Type :=
| HostReturn (v : pyval)
| HostRaise (msg : string).

Class Host : Type := {
  World : Type;
  builtins : string -> option (list pyval -> World -> host_result * World)
}.

(** A variable holder: the dict [variables]. *)
Abbreviation scope := (gmap string pyval).

(** The dict [Interpreter.functions]. *)
Abbreviation function_table := (gmap string DefinitionNode).

(** What stands as second argument of [isinstance]. *)
Inductive classinfo : Set :=
| ClassTuple (classes : list node_class)
| ClassList (classes : list node_class).

(** [isinstance(x, info)]: a tuple of classes is searched, a list of
    classes is not a valid second argument. *)
Definition isinstance (x : node) (info : classinfo) : outcome bool :=
  match info with
  | ClassTuple classes => Ok (bool_decide (class_of x ∈ classes))
  | ClassList _ => Raise TypeError
  end.

(** [[f(x) for x in l]] *)
Fixpoint comprehension {A B : Type} (f : A -> outcome B) (l : list A)
    : outcome (list B) :=
  match l with
  | [] => Ok []
  | x :: rest =>
      let* y := f x in
      let* ys := comprehension f rest in
      Ok (y :: ys)
  end.

Definition is_math_expression (expression : list node) : outcome bool :=
  let* checks :=
    comprehension
      (fun x => isinstance x
         (ClassList [ClsVariableReference; ClsInteger; ClsOperator]))
      expression in
  Ok (forallb id checks).

(** [x.value] *)
Definition value_of (x : node) : outcome pyval :=
  match x with
  | StringNode v => Ok (PyStr v)
  | IntegerNode v => Ok (PyInt v)
  | VariableReferenceNode v => Ok (PyStr v)
  | OperatorNode v => Ok (PyOperator v)
  | CallNode _ _ | VariableDeclarationNode _ _ | ListNode _ =>
      Raise AttributeError
  end.

(** [variables[key]] *)
Definition subscript (variables : scope) (key : string) : outcome pyval :=
  match variables !! key with
  | Some v => Ok v
  | None => Raise (KeyError (PyStr key))
  end.

Definition operator_node_to_function (op_node : node)
    : outcome (pyval -> pyval -> outcome pyval) :=
  let* key := value_of op_node in
  match key with
  | PyOperator OpADD => Ok Py.add
  | PyOperator OpSUBTRACT => Ok Py.sub
  | PyOperator OpMULTIPLY => Ok Py.mul
  | PyOperator OpDIVIDE => Ok Py.truediv
  | _ => Raise (KeyError key)
  end.

(** The conversion of an operand of [execute_math]: a variable reference
    is read from the variable holder, anything else gives its [value]. *)
Definition operand (x : node) (variables : scope) : outcome pyval :=
  match x with
  | VariableReferenceNode v => subscript variables v
  | _ => value_of x
  end.

(** The [while] loop of [execute_math]: two [pop(0)] per round. *)
Fixpoint execute_math_loop (expression : list node) (variables : scope)
    (accumulator : pyval) : outcome pyval :=
  match expression with
  | [] => Ok accumulator
  | [_] => Raise IndexError
  | operator :: x :: rest =>
      let* v := operand x variables in
      let* function := operator_node_to_function operator in
      let* accumulator' := function accumulator v in
      execute_math_loop rest variables accumulator'
  end.

(** [execute_math]: the first [pop(0)] gives the accumulator, the loop
    does the rest.  The source takes the nodes off the list it is given,
    a list of the AST; the interpreter comes here with the empty list
    only (see [is_math_expression]), where the first [pop(0)] raises, so
    that no list of the AST is ever changed. *)
Definition execute_math (expression : list node) (variables : scope)
    : outcome pyval :=
  match expression with
  | [] => Raise IndexError
  | first :: rest =>
      let* accumulator := operand first variables in
      execute_math_loop rest variables accumulator
  end.

(** The loop of [call_function] that places every argument into the new
    variable holder. *)
Fixpoint bind_arguments (params : list string) (args : list pyval)
    (function_variables : scope) : outcome scope :=
  match args with
  | [] => Ok function_variables
  | v :: args' =>
      match params with
      | [] => Raise IndexError
      | p :: params' =>
          bind_arguments params' args' (<[p := v]> function_variables)
      end
  end.

(** [handle_definition] on the function table. *)
Definition handle_definition (functions : function_table)
    (item : DefinitionNode) : function_table :=
  <[name item := item]> functions.

Section Interpreter.

Context `{Host}.

(** Computations of the interpreter act on the world and may raise. *)
Definition M (A : Type) : Type := World -> outcome A * World.

Definition ret {A : Type} (a : A) : M A := fun w => (Ok a, w).

Definition lift {A : Type} (m : outcome A) : M A := fun w => (m, w).

Definition raise {A : Type} (e : exception) : M A := lift (Raise e).

Definition then_ {A B : Type} (m : M A) (k : A -> M B) : M B :=
  fun w =>
    match m w with
    | (Ok a, w') => k a w'
    | (Raise e, w') => (Raise e, w')
    | (OutOfFuel, w') => (OutOfFuel, w')
    end.

Notation "'let+' x := m 'in' k" := (then_ m (fun x => k))
  (at level 10, x pattern, m at level 200, k at level 200).

(** [for expr in exprs: arguments.append(execute_item(expr, variables))] *)
Fixpoint execute_each (exec : node -> scope -> M (pyval * scope))
    (exprs : list node) (variables : scope) : M (list pyval * scope) :=
  match exprs with
  | [] => ret ([], variables)
  | expr :: rest =>
      let+ (v, variables1) := exec expr variables in
      let+ (vs, variables2) := execute_each exec rest variables1 in
      ret (v :: vs, variables2)
  end.

(** The loop of [call_function] over a body that is a list: every line
    is run, the value of the last one is returned; an empty body falls
    off the end of the function. *)
Fixpoint execute_lines (exec : node -> scope -> M (pyval * scope))
    (lines : list node) (variables : scope) : M pyval :=
  match lines with
  | [] => ret PyNone
  | [item] => let+ (ret_val, _) := exec item variables in ret ret_val
  | item :: rest =>
      let+ (_, variables1) := exec item variables in
      execute_lines exec rest variables1
  end.

(** The end of [call_function]: a body that is a list is run line by
    line, any other body is the only line. *)
Definition run_body (exec : node -> scope -> M (pyval * scope))
    (body : node) (function_variables : scope) : M pyval :=
  match body with
  | ListNode lines => execute_lines exec lines function_variables
  | line =>
      let+ (ret_val, _) := exec line function_variables in ret ret_val
  end.

(** The call of a callable of the host on the unpacked arguments. *)
Definition call_host
    (function : list pyval -> World -> host_result * World)
    (args : list pyval) : M pyval :=
  fun w =>
    match function args w with
    | (HostReturn v, w') => (Ok v, w')
    | (HostRaise msg, w') => (Raise (HostError msg), w')
    end.

Variable functions : function_table.

(** [execute_item] and [call_function].  [execute_item] gives back the
    value of the item and the variable holder as the item leaves it.  Its
    branch for a [DefinitionNode] is [handle_definition]; it is taken in
    the pre-pass of [begin_execution], see [register_definitions]. *)
Fixpoint execute_item (fuel : nat) (item : node) (variables : scope)
    {struct fuel} : M (pyval * scope) :=
  match fuel with
  | O => lift OutOfFuel
  | S fuel' =>
    match item with
    | VariableDeclarationNode target expression =>
        match expression with
        | ListNode l =>
            let+ is_math := lift (is_math_expression l) in
            if is_math : bool then
              let+ accumulator := lift (execute_math l variables) in
              ret (PyNone, <[target := accumulator]> variables)
            else ret (PyNone, variables)
        | CallNode callee arg_exprs =>
            let+ (args, variables1) :=
              execute_each (execute_item fuel') arg_exprs variables in
            let+ result := call_function fuel' callee args in
            ret (PyNone, <[target := result]> variables1)
        | _ =>
            let+ v := lift (value_of expression) in
            ret (PyNone, <[target := v]> variables)
        end
    | CallNode callee arg_exprs =>
        match functions !! callee with
        | None =>
            match builtins callee with
            | Some function =>
                let+ (args, variables1) :=
                  execute_each (execute_item fuel') arg_exprs variables in
                let+ result := call_host function args in
                ret (result, variables1)
            | None => raise (CouldNotFindFunction callee)
            end
        | Some function =>
            if bool_decide (length (arguments function) ≠ length arg_exprs)
            then raise (TakesArgumentsInsteadOf callee (arguments function)
                          (length arg_exprs))
            else
              let+ (args, variables1) :=
                execute_each (execute_item fuel') arg_exprs variables in
              let+ result := call_function fuel' callee args in
              ret (result, variables1)
        end
    | VariableReferenceNode v =>
        let+ x := lift (subscript variables v) in ret (x, variables)
    | ListNode l =>
        let+ is_math := lift (is_math_expression l) in
        if is_math : bool then
          let+ result := lift (execute_math l variables) in
          ret (result, variables)
        else ret (PyNone, variables)
    | StringNode _ | IntegerNode _ | OperatorNode _ =>
        let+ v := lift (value_of item) in
        if Py.truthy v then ret (v, variables)
        else raise (NoWayToExecute item)
    end
  end

with call_function (fuel : nat) (callee : string) (args : list pyval)
    {struct fuel} : M pyval :=
  match fuel with
  | O => lift OutOfFuel
  | S fuel' =>
    match functions !! callee with
    | None => raise (FunctionDoesNotExist callee)
    | Some function =>
        if bool_decide (length args ≠ length (arguments function))
        then raise (FunctionExpects callee (length (arguments function))
                      (length args))
        else
          let+ function_variables :=
            lift (bind_arguments (arguments function) args ∅) in
          run_body (execute_item fuel') (body function) function_variables
    end
  end.

End Interpreter.

(** The pre-pass of [begin_execution]: every definition of the AST is
    handed to [handle_definition], in order.  ([execute_item] is called
    there without a variable holder; its default one is never read or
    written for a definition.) *)
Definition register_definitions (ast : list DefinitionNode) : function_table :=
  foldl handle_definition ∅ ast.

(** The last definition of the AST that bears the name [n], if any. *)
Fixpoint last_named (n : string) (ast : list DefinitionNode)
    : option DefinitionNode :=
  match ast with
  | [] => None
  | item :: rest =>
      match last_named n rest with
      | Some later => Some later
      | None => if decide (name item = n) then Some item else None
      end
  end.

Definition begin_execution `{Host} (fuel : nat) (ast : list DefinitionNode)
    : M unit :=
  let functions := register_definitions ast in
  match functions !! "main" with
  | None => raise MustDeclareMain
  | Some main =>
      if (0 <? length (arguments main))%nat
      then raise (MainTakesArguments (length (arguments main)))
      else then_ (call_function functions fuel "main" []) (fun _ => ret tt)
  end.

(** The exceptions with which a call of [callee] on [n] arguments is turned
    down for its number of arguments, [params] being the parameters of the
    callee: the one of [execute_item] and the one of [call_function]. *)
Definition arity_error_of (callee : string) (params : list string) (n : nat)
    (e : exception) : Prop :=
  e = TakesArgumentsInsteadOf callee params n
  \/ e = FunctionExpects callee (length params) n.

(** The exceptions of [begin_execution] about the entry point. *)
Definition entry_point_error (e : exception) : bool :=
  match e with
  | MustDeclareMain | MainTakesArguments _ => true
  | _ => false
  end.

(** The exceptions of the places that compare a call with its callee. *)
Definition arity_error (e : exception) : bool :=
  match e with
  | TakesArgumentsInsteadOf _ _ _ | FunctionExpects _ _ _ => true
  | _ => false
  end.

(** A value or an exception, given back together with a variable holder
    that the computation has not touched. *)
Definition with_scope (r : outcome pyval) (variables : scope)
    : outcome (pyval * scope) :=
  match r with
  | Ok v => Ok (v, variables)
  | Raise e => Raise e
  | OutOfFuel => OutOfFuel
  end.

(** What holds of every exception that the evaluation of a node raises
    over the function table [functions]: an arity exception names a
    registered function, its parameters, and a number of arguments that
    is not theirs; the exceptions about the entry point are not raised at
    all. *)
Definition evaluation_exception (functions : function_table)
    (e : exception) : Prop :=
  match e with
  | TakesArgumentsInsteadOf callee params n =>
      exists function,
        functions !! callee = Some function
        /\ params = arguments function /\ length params <> n
  | FunctionExpects callee expected got =>
      exists function,
        functions !! callee = Some function
        /\ expected = length (arguments function) /\ got <> expected
  | MustDeclareMain | MainTakesArguments _ => False
  | _ => True
  end.

(** The exceptions that are neither about arity nor about the entry
    point, and the computations that raise no other. *)
Definition plain (e : exception) : bool :=
  negb (arity_error e || entry_point_error e).

Definition raises_plain {A : Type} (m : outcome A) : Prop :=
  forall e, m = Raise e -> plain e = true.

Definition raises_evaluation `{Host} (functions : function_table)
    {A : Type} (m : M A) : Prop :=
  forall w e w', m w = (Raise e, w') -> evaluation_exception functions e.

(** The arithmetic fold in the words of the specification, to compare
    [execute_math] with: the run is a first operand followed by pairs of
    an operator and an operand, and each operator is applied at once to
    the running accumulator and the next operand. *)
Definition apply_operator (o : Operator) : pyval -> pyval -> outcome pyval :=
  match o with
  | OpADD => Py.add
  | OpSUBTRACT => Py.sub
  | OpMULTIPLY => Py.mul
  | OpDIVIDE => Py.truediv
  end.

Fixpoint left_fold (variables : scope) (accumulator : pyval)
    (steps : list (Operator * node)) : outcome pyval :=
  match steps with
  | [] => Ok accumulator
  | (o, x) :: rest =>
      let* v := operand x variables in
      let* accumulator' := apply_operator o accumulator v in
      left_fold variables accumulator' rest
  end.

Definition arithmetic_run (first : node) (steps : list (Operator * node))
    : list node :=
  first :: flat_map (fun step => [OperatorNode (fst step); snd step]) steps.

(** A line feed as a text, to write sources of more than one line. *)
Definition nl : string := String Text.LF EmptyString.

(** Sample programs, as source text, tokens and definitions. *)
Module Samples.

(** An assignment whose call goes on after the end of the line. *)
Definition split_call_source : string :=
  String.concat nl
    ["def main()"; "  x = f(1,"; "        2)"; "end"; ""].

Definition split_call_line : Token :=
  mkToken VARIABLE_DECLARATION (String.append "x = f(1," nl).

(** An assignment line that holds the [end] of its definition. *)
Definition early_end_line : Token :=
  mkToken VARIABLE_DECLARATION (String.append "x = 1 end" nl).

(** A definition without any expression in its body. *)
Definition empty_body_source : string :=
  String.concat nl ["def f()"; "end"].

Definition greeting_source : string :=
  String.concat nl
    ["def main()"; "  x = 1"; "  print('hi', x)"; "end"; ""].

Definition greeting_tokens : list Token :=
  [ mkToken DEF "def "; mkToken IDENTIFIER "main";
    mkToken OPEN_PAREN "("; mkToken CLOSE_PAREN ")";
    mkToken VARIABLE_DECLARATION (String.append "x = 1" nl);
    mkToken IDENTIFIER "print"; mkToken OPEN_PAREN "(";
    mkToken STRING "'hi'"; mkToken COMMA ","; mkToken IDENTIFIER "x";
    mkToken CLOSE_PAREN ")"; mkToken END "end" ].

Definition empty_body_tokens : list Token :=
  [ mkToken OPEN_PAREN "("; mkToken CLOSE_PAREN ")"; mkToken END "end" ].

(** [def pair(a, b)] whose body is [a]. *)
Definition pair : DefinitionNode :=
  mkDefinition "pair" ["a"; "b"] (VariableReferenceNode "a").

(** [def g()] whose body reads [x], a variable of its caller. *)
Definition g : DefinitionNode :=
  mkDefinition "g" [] (VariableReferenceNode "x").

(** [def main()] whose body prints a text. *)
Definition main : DefinitionNode :=
  mkDefinition "main" [] (CallNode "print" [StringNode "hi"]).

(** Another [def main()], whose body is a text. *)
Definition first_main : DefinitionNode :=
  mkDefinition "main" [] (StringNode "first").

(** [def second(a, b)], whose body is the two lines [a] and [b]. *)
Definition second : DefinitionNode :=
  mkDefinition "second" ["a"; "b"]
    (ListNode [VariableReferenceNode "a"; VariableReferenceNode "b"]).

(** [def nothing()], whose body has no line. *)
Definition nothing : DefinitionNode :=
  mkDefinition "nothing" [] (ListNode []).

End Samples.

(** A small host: [print] appends its arguments to the lines printed so
    far, [len] measures a [str]. *)
Module Console.

Definition print (args : list pyval) (w : list (list pyval))
    : host_result * list (list pyval) :=
  (HostReturn PyNone, w ++ [args]).

Definition len (args : list pyval) (w : list (list pyval))
    : host_result * list (list pyval) :=
  match args with
  | [PyStr s] => (HostReturn (PyInt (Z.of_nat (String.length s))), w)
  | _ => (HostRaise "TypeError", w)
  end.

Definition host : Host :=
  {| World := list (list pyval);
     builtins := fun callee =>
       if String.eqb callee "print" then Some print
       else if String.eqb callee "len" then Some len
       else None |}.

End Console.

(* ===================================================================== *)
(** * The script (__main__.py) *)
(* ===================================================================== *)

(** The script of [__main__.py] on the contents of the file it has read:
    the tokenizer, the parser and the interpreter, one after the other. *)
Definition run_source `{Host} (fuel : nat) (contents : string) : M unit :=
  then_ (lift (tokenize_code contents))
    (fun tokens =>
       then_ (lift (parse fuel tokens))
         (fun ast => begin_execution fuel ast)).

(* ===================================================================== *)
(** * Predicates on tokens and nodes *)
(* ===================================================================== *)

Fixpoint all_letters (s : string) : bool :=
  match s with
  | String c rest => Text.is_letter c && all_letters rest
  | EmptyString => true
  end.

(** A name as the tokenizer reads it: letters and underscores, one or
    more. *)
Definition is_name (s : string) : bool :=
  all_letters s && negb (String.eqb s EmptyString).

(** A token as the parser wants it: its raw text is what the parser reads
    back from a token of its type.  The text of an [INTEGER] is a run of
    decimal digits, the text of a [STRING] and of a [VARIABLE_DECLARATION] is
    matched as a whole by the pattern that the parser applies to it, and
    the right hand side of a declaration holds no line feed. *)
Definition well_lexed (t : Token) : Prop :=
  match type t with
  | DEF => value t = "def "
  | END => value t = "end"
  | VARIABLE_DECLARATION =>
      exists target expression,
        Re.declaration (value t)
        = Some (target, expression, String.length (value t))
        /\ is_name target = true
        /\ Text.has_newline expression = false
        /\ (String.length expression + 3 <= String.length (value t))%nat
  | IDENTIFIER => is_name (value t) = true /\ value t <> "end"
  | INTEGER => value t <> EmptyString /\ all_digits (value t) = true
  | STRING =>
      exists text,
        Re.quoted (value t) = Some (text, String.length (value t))
        /\ text <> EmptyString
  | OPEN_PAREN => value t = "("
  | CLOSE_PAREN => value t = ")"
  | COMMA => value t = ","
  | ADD => value t = "+"
  | SUBTRACT => value t = "-"
  | MULTIPLY => value t = "*"
  | DIVIDE => value t = "/"
  end.

(** Has the computation stopped for want of fuel? *)
Definition ran_out {A : Type} (r : outcome A) : bool :=
  match r with
  | OutOfFuel => true
  | _ => false
  end.

Definition is_declaration (t : Token) : bool :=
  bool_decide (type t = VARIABLE_DECLARATION).

Definition is_list (e : node) : bool :=
  match e with
  | ListNode _ => true
  | _ => false
  end.

(** The nodes that the parser builds from the tokens of the tokenizer:
    no text is empty, no number is negative, every name is a name, a list
    has two items or more and no list among them. *)
Fixpoint sound (e : node) : bool :=
  match e with
  | StringNode text => negb (String.eqb text EmptyString)
  | IntegerNode z => 0 <=? z
  | VariableReferenceNode v => is_name v
  | OperatorNode _ => true
  | CallNode callee arg_exprs => is_name callee && forallb sound arg_exprs
  | VariableDeclarationNode target expression =>
      is_name target && sound expression
  | ListNode items =>
      (2 <=? length items)%nat
      && forallb (fun item => negb (is_list item) && sound item) items
  end.

Definition sound_definition (d : DefinitionNode) : bool :=
  is_name (name d) && forallb is_name (arguments d) && sound (body d).

(** The exceptions of the parser on the tokens of the tokenizer: a token
    of another type than the one looked for, a token that starts no
    item, the end of the tokens, a right hand side that the tokenizer
    turns down, and what [int] raises. *)
Definition parser_exception (e : exception) : bool :=
  match e with
  | LookingForType _ _ | InvalidTokenType _ | IndexError
  | NoValidTokens _ | ValueError => true
  | _ => false
  end.

(** What a token costs the parser: a declaration brings the tokens of
    its right hand side with it, fewer than it has characters. *)
Definition weight (t : Token) : nat :=
  match type t with
  | VARIABLE_DECLARATION => S (String.length (value t))
  | _ => 1%nat
  end.

Definition measure (tokens : list Token) : nat :=
  foldr (fun t n => (weight t + n)%nat) 0%nat tokens.

(** Fuel that lets the parser come to its end on [tokens]. *)
Definition parse_fuel (tokens : list Token) : nat :=
  (2 * measure tokens + 2)%nat.

(** The tokens of a list of parameter names, commas between them. *)
Fixpoint names_tokens (names : list string) : list Token :=
  match names with
  | [] => []
  | n :: rest =>
      mkToken IDENTIFIER n
      :: match rest with
         | [] => []
         | _ :: _ => mkToken COMMA "," :: names_tokens rest
         end
  end.

Definition more_names_tokens (names : list string) : list Token :=
  match names with
  | [] => []
  | _ :: _ => mkToken COMMA "," :: names_tokens names
  end.

(** Does the evaluation of [item] come to an assignment?  The
    arguments of a call are evaluated, the items of a list are not. *)
Fixpoint assigns (item : node) : bool :=
  match item with
  | VariableDeclarationNode _ _ => true
  | CallNode _ arg_exprs => existsb assigns arg_exprs
  | _ => false
  end.

(** The exceptions of a script, but for the literals that are not
    executed: of those, the number zero only. *)
Definition zero_or_other (e : exception) : bool :=
  match e with
  | NoWayToExecute (IntegerNode z) => z =? 0
  | NoWayToExecute _ => false
  | _ => true
  end.

(** The surface syntax of the definitions without assignments, to write
    tokens from and to compare the parser with. *)
Module Syntax.

(** An item of an expression; an argument of a call is a run of items. *)
Inductive term : Type :=
| TInteger (digits : string)
| TString (text : string)
| TReference (name : string)
| TOperator (o : Operator)
| TCall (callee : string) (args : list (list term)).

Record definition : Type := mkSyntax {
  dname : string;
  dparams : list string;
  dbody : list term
}.

Definition operator_token (o : Operator) : Token :=
  match o with
  | OpADD => mkToken ADD "+"
  | OpSUBTRACT => mkToken SUBTRACT "-"
  | OpDIVIDE => mkToken DIVIDE "/"
  | OpMULTIPLY => mkToken MULTIPLY "*"
  end.

Definition quote : string := "'".

(** The runs of tokens of the arguments, a comma between two runs. *)
Fixpoint join (parts : list (list Token)) : list Token :=
  match parts with
  | [] => []
  | part :: rest =>
      part ++ match rest with
              | [] => []
              | _ :: _ => mkToken COMMA "," :: join rest
              end
  end.

Fixpoint term_tokens (t : term) : list Token :=
  match t with
  | TInteger digits => [mkToken INTEGER digits]
  | TString text =>
      [mkToken STRING (String.append quote (String.append text quote))]
  | TReference name => [mkToken IDENTIFIER name]
  | TOperator o => [operator_token o]
  | TCall callee args =>
      mkToken IDENTIFIER callee :: mkToken OPEN_PAREN "("
      :: join (map (flat_map term_tokens) args) ++ [mkToken CLOSE_PAREN ")"]
  end.

Definition run_tokens (run : list term) : list Token :=
  flat_map term_tokens run.

(** What [parse_expr] makes of the items it has parsed, one or more. *)
Definition run_node (items : list node) : node :=
  match items with
  | [item] => item
  | _ => ListNode items
  end.

Fixpoint term_node (t : term) : node :=
  match t with
  | TInteger digits => IntegerNode (digits_value 0 digits)
  | TString text => StringNode text
  | TReference name => VariableReferenceNode name
  | TOperator o => OperatorNode o
  | TCall callee args =>
      CallNode callee (map (fun run => run_node (map term_node run)) args)
  end.

Fixpoint no_quote (s : string) : bool :=
  match s with
  | String c rest => negb (Text.is_quote c) && no_quote rest
  | EmptyString => true
  end.

(** The terms that can be written: digits for a number, no more of them
    than [int] takes, a text without quotes and not empty, no argument
    without items. *)
Fixpoint valid (t : term) : bool :=
  match t with
  | TInteger digits =>
      all_digits digits && negb (String.eqb digits EmptyString)
      && (Z.of_nat (String.length digits) <=? max_str_digits)
  | TString text => no_quote text && negb (String.eqb text EmptyString)
  | TReference _ | TOperator _ => true
  | TCall _ args =>
      forallb (fun run =>
                 match run with
                 | [] => false
                 | _ :: _ => forallb valid run
                 end) args
  end.

Definition valid_run (run : list term) : bool :=
  match run with
  | [] => false
  | _ :: _ => forallb valid run
  end.

Definition definition_tokens (d : definition) : list Token :=
  mkToken DEF "def " :: mkToken IDENTIFIER (dname d)
  :: mkToken OPEN_PAREN "(" :: names_tokens (dparams d)
  ++ mkToken CLOSE_PAREN ")" :: run_tokens (dbody d) ++ [mkToken END "end"].

Definition definition_node (d : definition) : DefinitionNode :=
  mkDefinition (dname d) (dparams d) (run_node (map term_node (dbody d))).

Definition source_tokens (definitions : list definition) : list Token :=
  flat_map definition_tokens definitions.

(** What follows the first argument: a comma in front of each other
    one. *)
Definition more_join (parts : list (list Token)) : list Token :=
  match parts with
  | [] => []
  | _ :: _ => mkToken COMMA "," :: join parts
  end.

(** The node of an argument. *)
Definition argument_node (run : list term) : node :=
  run_node (map term_node run).

End Syntax.

(** The token in front starts an item of an expression. *)
Definition starts_item (tokens : list Token) : bool :=
  match tokens with
  | token :: _ =>
      match type token with
      | INTEGER | STRING | IDENTIFIER | ADD | SUBTRACT | MULTIPLY | DIVIDE =>
          true
      | _ => false
      end
  | [] => false
  end.

(** A host over the world [W] with the callables [callables]. *)
Definition host_of (W : Type)
    (callables : string -> option (list pyval -> W -> host_result * W))
    : Host :=
  {| World := W; builtins := callables |}.

(* ===================================================================== *)
(** * Predicates on outcomes and computations *)
(* ===================================================================== *)

(** A result of the parser that satisfies [P], or one of the exceptions
    of the parser. *)
Definition returns {A : Type} (P : A -> Prop) (r : outcome A) : Prop :=
  match r with
  | Ok a => P a
  | Raise e => parser_exception e = true
  | OutOfFuel => True
  end.

Definition lexed_head (expected_type : TokenType)
    (r : Token * list Token) : Prop :=
  well_lexed (fst r) /\ type (fst r) = expected_type
  /\ Forall well_lexed (snd r).

Definition sound_item (r : node * list Token) : Prop :=
  sound (fst r) = true /\ is_list (fst r) = false
  /\ Forall well_lexed (snd r).

Definition sound_expr (r : node * list Token) : Prop :=
  sound (fst r) = true /\ Forall well_lexed (snd r).

Definition sound_exprs (r : list node * list Token) : Prop :=
  forallb sound (fst r) = true /\ Forall well_lexed (snd r).

Definition sound_names (r : list string * list Token) : Prop :=
  forallb is_name (fst r) = true /\ Forall well_lexed (snd r).

Definition sound_parsed_definition (r : DefinitionNode * list Token) : Prop :=
  sound_definition (fst r) = true /\ Forall well_lexed (snd r).

(** A result that satisfies [P], or an exception: the fuel was
    enough. *)
Definition settles {A : Type} (P : A -> Prop) (r : outcome A) : Prop :=
  match r with
  | Ok a => P a
  | Raise _ => True
  | OutOfFuel => False
  end.

Definition popped (tokens : list Token) (r : Token * list Token) : Prop :=
  tokens = fst r :: snd r.

Definition lighter (tokens : list Token) {A : Type}
    (r : A * list Token) : Prop :=
  (measure (snd r) < measure tokens)%nat.

Definition not_heavier (tokens : list Token) {A : Type}
    (r : A * list Token) : Prop :=
  (measure (snd r) <= measure tokens)%nat.

(** [r'] is [r] continued with more fuel: when [r] is a result or an
    exception, [r'] is the same. *)
Definition continues {A : Type} (r r' : outcome A) : Prop :=
  ran_out r = false -> r' = r.

(** [m] keeps the invariant [inv] of the world, and its result
    satisfies [Q]. *)
Definition keeps `{Host} (inv : World -> Prop) {A : Type} (m : M A)
    (Q : A -> Prop) : Prop :=
  forall w, inv w ->
    inv (snd (m w))
    /\ match fst (m w) with
       | Ok a => Q a
       | _ => True
       end.

(** The computations whose exceptions all satisfy [allowed]. *)
Definition raises_only `{Host} (allowed : exception -> bool) {A : Type}
    (m : M A) : Prop :=
  forall w e w', m w = (Raise e, w') -> allowed e = true.

(** The program of [src/test.py]. *)
Module TestProgram.

(** A double quote as a text. *)
Definition dq : string := String (ascii_of_N 34) EmptyString.

Definition prompt : string := "Enter your username: ".

Definition greeting : string := "Welcome back".

(** The constant [CODE]. *)
Definition CODE : string :=
  String.concat nl
    [ "";
      "def main()";
      String.concat dq ["    username = get_input("; prompt; ")"];
      String.concat dq ["    print("; greeting; ", username)"];
      "end";
      "";
      "def get_input(prompt)";
      "    input(prompt)";
      "end";
      "" ].

(** A host for it: [input] answers with a name, [print] prints. *)
Definition input (args : list pyval) (w : list (list pyval))
    : host_result * list (list pyval) :=
  (HostReturn (PyStr "ada"), w ++ [args]).

Definition terminal : Host :=
  {| World := list (list pyval);
     builtins := fun callee =>
       if String.eqb callee "input" then Some input
       else if String.eqb callee "print" then Some Console.print
       else None |}.

Definition main : DefinitionNode :=
  mkDefinition "main" []
    (ListNode
       [ VariableDeclarationNode "username"
           (CallNode "get_input" [StringNode prompt]);
         CallNode "print"
           [StringNode greeting; VariableReferenceNode "username"] ]).

Definition get_input : DefinitionNode :=
  mkDefinition "get_input" ["prompt"]
    (CallNode "input" [VariableReferenceNode "prompt"]).

End TestProgram.

(** More sample programs. *)
Module Programs.

(** A script that stops at the number zero. *)
Definition zero_source : string := "def main() 0 end".

(** A text without any definition. *)
Definition sum_source : string := "1 + 2".

Definition sum_tokens : list Token :=
  [ mkToken INTEGER "1"; mkToken ADD "+"; mkToken INTEGER "2" ].

(** A definition that ends after its opening parenthesis. *)
Definition open_source : string := "def main(".

Definition open_tokens : list Token :=
  [ mkToken DEF "def "; mkToken IDENTIFIER "main"; mkToken OPEN_PAREN "(" ].

(** A text that starts with a character of no token. *)
Definition question_source : string := "?".

(** What has been printed stays printed. *)
Definition logged (w : list (list pyval)) : Prop :=
  [[PyStr "log"]] `prefix_of` w.

(** [def main() print('hi', x) end] as it is written. *)
Definition written_main : Syntax.definition :=
  Syntax.mkSyntax "main" []
    [Syntax.TCall "print" [[Syntax.TString "hi"]; [Syntax.TReference "x"]]].

(** A definition of the name [print]. *)
Definition print_definition : DefinitionNode :=
  mkDefinition "print" ["text"] (VariableReferenceNode "text").

(** The callables of the console without [print]. *)
Definition hidden_print (callee : string)
    : option (list pyval -> list (list pyval)
              -> host_result * list (list pyval)) :=
  if String.eqb callee "print" then None
  else builtins (Host := Console.host) callee.

End Programs.

(* ===================================================================== *)
(** * Properties of the text operations *)
(* ===================================================================== *)

Section TextFacts.

Import Text.

Lemma append_cons (c : ascii) (a b : string) :
  String.append (String c a) b = String c (String.append a b).
Proof. reflexivity. Qed.

Lemma append_empty_l (a : string) : String.append EmptyString a = a.
Proof. reflexivity. Qed.

Lemma take_drop (n : nat) (s : string) :
  String.append (take n s) (drop n s) = s.
Proof.
  revert s; induction n as [|n IH]; intros [|c s]; simpl; try reflexivity.
  now rewrite append_cons, IH.
Qed.

Lemma length_drop (n : nat) (s : string) :
  String.length (drop n s) = (String.length s - n)%nat.
Proof.
  revert s; induction n as [|n IH]; intros [|c s]; simpl; auto with arith.
Qed.

Lemma append_assoc (a b c : string) :
  String.append (String.append a b) c = String.append a (String.append b c).
Proof.
  induction a as [|x a IH]; [reflexivity|].
  now rewrite !append_cons, IH.
Qed.

Lemma append_empty_r (a : string) : String.append a EmptyString = a.
Proof.
  induction a as [|x a IH]; [reflexivity|].
  now rewrite append_cons, IH.
Qed.

Lemma squeeze_append (a b : string) :
  squeeze (String.append a b) = String.append (squeeze a) (squeeze b).
Proof.
  induction a as [|x a IH]; [reflexivity|].
  rewrite append_cons; simpl.
  destruct (is_space x); [exact IH | now rewrite append_cons, IH].
Qed.

Lemma squeeze_lstrip (s : string) : squeeze (lstrip s) = squeeze s.
Proof.
  induction s as [|x s IH]; simpl; [reflexivity|].
  destruct (is_space x) eqn:E; [exact IH | simpl; now rewrite E].
Qed.

Lemma length_lstrip (s : string) :
  (String.length (lstrip s) <= String.length s)%nat.
Proof.
  induction s as [|x s IH]; simpl; [lia|].
  destruct (is_space x); simpl; lia.
Qed.

(** What [lstrip] removes is whitespace, and nothing but a prefix. *)
Lemma lstrip_split (s : string) :
  exists gap, all_space gap = true /\ s = String.append gap (lstrip s).
Proof.
  induction s as [|x s (gap & Hgap & IH)]; simpl.
  - exists EmptyString; split; reflexivity.
  - destruct (is_space x) eqn:E.
    + exists (String x gap); simpl; rewrite E, Hgap; split; [reflexivity|].
      now rewrite append_cons, <- IH.
    + exists EmptyString; split; reflexivity.
Qed.

Lemma squeeze_all_space (gap : string) :
  all_space gap = true -> squeeze gap = EmptyString.
Proof.
  induction gap as [|x gap IH]; simpl; [reflexivity|].
  destruct (is_space x); simpl; [exact IH | discriminate].
Qed.

End TextFacts.

(* ===================================================================== *)
(** * Properties of the tokenizer *)
(* ===================================================================== *)

Section TokenizerFacts.

Import Text.

Lemma raw_text_app (a b : list Token) :
  raw_text (a ++ b) = String.append (raw_text a) (raw_text b).
Proof.
  induction a as [|t a IH]; simpl; [reflexivity|].
  now rewrite IH, append_assoc.
Qed.

(** A match hands out a prefix of the code and keeps the rest. *)
Lemma first_match_split table code token code' :
  first_match table code = Some (token, code') ->
  code = String.append (value token) code'.
Proof.
  induction table as [|[token_type token_re] table IH]; simpl; [discriminate|].
  destruct (token_re code) as [n|]; [|exact IH].
  intros [= <- <-]; simpl. symmetry; apply take_drop.
Qed.

Lemma tokenize_next_split code token code' :
  tokenize_next code = Ok (token, code') ->
  code = String.append (value token) code'.
Proof.
  unfold tokenize_next.
  destruct (first_match TOKENS code) as [[t c]|] eqn:E; [|discriminate].
  intros [= <- <-]. now apply first_match_split in E.
Qed.

Lemma declaration_productive code target expression n :
  Re.declaration code = Some (target, expression, n) -> (1 <= n)%nat.
Proof.
  unfold Re.declaration.
  destruct (span is_letter code) as [|k]; [discriminate|].
  destruct (Re.equals_sign _) as [j|]; [|discriminate].
  destruct (drop _ code) as [|c r']; [discriminate|].
  destruct (is_space c); [destruct (Re.line r')|];
    try destruct (Re.line (String c r')); intros [= <- <- <-] || discriminate;
    lia.
Qed.

Lemma literal_productive (c : ascii) : productive (Re.literal c).
Proof.
  intros code n. unfold Re.literal.
  destruct (Re.char_is c code); [intros [= <-]; lia | discriminate].
Qed.

Lemma TOKENS_productive :
  Forall (fun entry => productive (snd entry)) TOKENS.
Proof.
  unfold TOKENS.
  repeat first [apply Forall_nil_2 | apply Forall_cons_2]; simpl;
    try apply literal_productive; intros code n.
  - unfold Re.def_. destruct (_ && _); [intros [= <-]; lia | discriminate].
  - unfold Re.end_. destruct (_ && _); [intros [= <-]; lia | discriminate].
  - unfold Re.variable_declaration.
    destruct (Re.declaration code) as [[[t e] k]|] eqn:E; [|discriminate].
    intros [= <-]. eapply declaration_productive; eassumption.
  - unfold Re.identifier. destruct (span is_letter code); [discriminate|].
    destruct (Re.at_word _); [discriminate | intros [= <-]; lia].
  - unfold Re.integer. destruct (span is_digit code); [discriminate|].
    intros [= <-]; lia.
  - unfold Re.string_, Re.quoted. destruct code as [|q rest]; [discriminate|].
    destruct (is_quote q); [|discriminate].
    destruct (span _ rest); [discriminate|].
    destruct (drop _ rest); [discriminate | intros [= <-]; lia].
Qed.

Lemma first_match_shrinks table code token code' :
  Forall (fun entry => productive (snd entry)) table ->
  first_match table code = Some (token, code') ->
  (String.length code' < String.length code)%nat \/ code = EmptyString.
Proof.
  induction 1 as [|[token_type token_re] table Hp _ IH]; simpl; [discriminate|].
  destruct (token_re code) as [n|] eqn:E; [|exact IH].
  intros [= <- <-]. apply Hp in E. rewrite length_drop.
  destruct code; [now right | left; simpl; lia].
Qed.

(** The length of the code is fuel enough for the loop of
    [tokenize_code]. *)
Lemma tokenize_loop_fuel fuel code tokens :
  (String.length code <= fuel)%nat ->
  tokenize_loop fuel code tokens <> OutOfFuel.
Proof.
  revert code tokens; induction fuel as [|fuel IH]; intros code tokens Hlen.
  - destruct code; simpl in *; [discriminate | lia].
  - destruct code as [|c code]; simpl; [discriminate|].
    unfold tokenize_next.
    destruct (first_match TOKENS (String c code)) as [[t code']|] eqn:E;
      simpl; [|discriminate].
    apply IH.
    apply first_match_shrinks in E; [|exact TOKENS_productive].
    destruct E as [E|E]; [|discriminate].
    pose proof (length_lstrip code'). simpl in *; lia.
Qed.

Lemma tokenize_code_total source : tokenize_code source <> OutOfFuel.
Proof. unfold tokenize_code. apply tokenize_loop_fuel. lia. Qed.

(** The loop keeps the text: what has been turned into tokens and what
    is still to be read make up the same text, whitespace apart. *)
Lemma tokenize_loop_text fuel code tokens result :
  tokenize_loop fuel code tokens = Ok result ->
  squeeze (raw_text result)
  = String.append (squeeze (raw_text tokens)) (squeeze code).
Proof.
  revert code tokens; induction fuel as [|fuel IH]; intros code tokens.
  - destruct code; simpl; [|discriminate].
    intros [= <-]. now rewrite append_empty_r.
  - destruct code as [|c code]; simpl.
    + intros [= <-]. now rewrite append_empty_r.
    + destruct (tokenize_next (String c code)) as [[t code']| |] eqn:E;
        simpl; try discriminate.
      intros Hloop. apply IH in Hloop. rewrite Hloop.
      apply tokenize_next_split in E.
      change (if is_space c then squeeze code else String c (squeeze code))
        with (squeeze (String c code)).
      rewrite E, raw_text_app, !squeeze_append, squeeze_lstrip; simpl.
      now rewrite append_empty_r, append_assoc.
Qed.

Lemma all_space_append (a b : string) :
  all_space a = true -> all_space b = true ->
  all_space (String.append a b) = true.
Proof.
  intros Ha Hb. induction a as [|x a IH]; [exact Hb|].
  rewrite append_cons. simpl in *.
  apply andb_true_iff in Ha as [-> Ha]. now apply IH.
Qed.

Lemma interleaved_gap gap tokens source :
  all_space gap = true ->
  interleaved tokens source ->
  interleaved tokens (String.append gap source).
Proof.
  intros Hgap [gap0 Hgap0 | gap0 token rest source0 Hgap0 Hrest].
  - constructor. now apply all_space_append.
  - rewrite <- append_assoc. constructor; [now apply all_space_append|].
    exact Hrest.
Qed.

(** What the loop adds to the tokens it starts with is laid out in the
    code it reads. *)
Lemma tokenize_loop_interleaved fuel code tokens result :
  tokenize_loop fuel code tokens = Ok result ->
  exists new_tokens,
    result = tokens ++ new_tokens /\ interleaved new_tokens code.
Proof.
  revert code tokens; induction fuel as [|fuel IH]; intros code tokens.
  - destruct code; simpl; [|discriminate].
    intros [= <-]. exists []. split; [now rewrite app_nil_r|].
    now constructor.
  - destruct code as [|c code]; simpl.
    + intros [= <-]. exists []. split; [now rewrite app_nil_r|].
      now constructor.
    + destruct (tokenize_next (String c code)) as [[t code']| |] eqn:E;
        simpl; try discriminate.
      intros Hloop. apply IH in Hloop as (new_tokens & -> & Hnew).
      exists (t :: new_tokens). split; [now rewrite <- app_assoc|].
      apply tokenize_next_split in E. rewrite E.
      destruct (lstrip_split code') as (gap & Hgap & Hcode').
      rewrite Hcode'.
      apply (interleaved_cons EmptyString); [reflexivity|].
      now apply interleaved_gap.
Qed.

(** C8. Round trip of the tokenizer: for every source text that
    [tokenize_code] accepts, the source is the raw texts of the tokens in
    order with nothing but whitespace around them, so that the raw texts
    joined and the source are the same text once whitespace is left
    out. *)
Theorem tokenize_code_round_trip (source : string) (tokens : list Token) :
  tokenize_code source = Ok tokens ->
  interleaved tokens source
  /\ squeeze (raw_text tokens) = squeeze source.
Proof.
  unfold tokenize_code. intros Hloop. split.
  - apply tokenize_loop_interleaved in Hloop as (new_tokens & -> & Hnew).
    destruct (lstrip_split source) as (gap & Hgap & Hsource).
    rewrite Hsource. now apply interleaved_gap.
  - apply tokenize_loop_text in Hloop.
    now rewrite Hloop, squeeze_lstrip.
Qed.

End TokenizerFacts.

(* ===================================================================== *)
(** * Properties of the parser *)
(* ===================================================================== *)

Section ParserFacts.

Lemma parse_integer_single tokens e tokens' :
  parse_integer tokens = Ok (e, tokens') -> single e.
Proof.
  unfold parse_integer. intros Hp.
  destruct (consume tokens INTEGER) as [[t ts]| |]; simpl in Hp;
    try discriminate.
  destruct (int_of_string (value t)); simpl in Hp; try discriminate.
  now injection Hp as <- <-.
Qed.

Lemma parse_string_single tokens e tokens' :
  parse_string tokens = Ok (e, tokens') -> single e.
Proof.
  unfold parse_string. intros Hp.
  destruct (consume tokens STRING) as [[t ts]| |]; simpl in Hp;
    try discriminate.
  destruct (Re.quoted (value t)) as [[text k]|]; try discriminate.
  now injection Hp as <- <-.
Qed.

Lemma parse_operator_single tokens e tokens' :
  parse_operator tokens = Ok (e, tokens') -> single e.
Proof.
  unfold parse_operator. intros Hp.
  repeat match type of Hp with
  | (if ?c then _ else _) = _ => destruct c
  end; try discriminate;
  match type of Hp with
  | bind ?m _ = _ => destruct m as [[t ts]| |]; simpl in Hp; try discriminate
  end; now injection Hp as <- <-.
Qed.

Lemma parse_variable_reference_single tokens e tokens' :
  parse_variable_reference tokens = Ok (e, tokens') -> single e.
Proof.
  unfold parse_variable_reference. intros Hp.
  destruct (consume tokens IDENTIFIER) as [[t ts]| |]; simpl in Hp;
    try discriminate.
  now injection Hp as <- <-.
Qed.

Lemma parse_call_single fuel tokens e tokens' :
  parse_call fuel tokens = Ok (e, tokens') -> single e.
Proof.
  destruct fuel as [|fuel]; simpl; [discriminate|]. intros Hp.
  destruct (consume tokens IDENTIFIER) as [[t ts]| |]; simpl in Hp;
    try discriminate.
  destruct (consume ts OPEN_PAREN) as [[t1 ts1]| |]; simpl in Hp;
    try discriminate.
  destruct (parse_argument_expressions_loop fuel [] ts1) as [[a ts2]| |];
    simpl in Hp; try discriminate.
  destruct (consume ts2 CLOSE_PAREN) as [[t3 ts3]| |]; simpl in Hp;
    try discriminate.
  now injection Hp as <- <-.
Qed.

Lemma parse_variable_declaration_single fuel tokens e tokens' :
  parse_variable_declaration fuel tokens = Ok (e, tokens') -> single e.
Proof.
  destruct fuel as [|fuel]; simpl; [discriminate|]. intros Hp.
  destruct (consume tokens VARIABLE_DECLARATION) as [[t ts]| |];
    simpl in Hp; try discriminate.
  destruct (Re.declaration (value t)) as [[[target expression] k]|];
    try discriminate.
  destruct (tokenize_code expression) as [new_tokens| |]; simpl in Hp;
    try discriminate.
  destruct (parse_expr_loop fuel false _ _ [] _) as [[b ts3]| |];
    simpl in Hp; try discriminate.
  now injection Hp as <- <-.
Qed.

Lemma parse_item_single fuel tokens e tokens' :
  parse_item (parse_call fuel) (parse_variable_declaration fuel) tokens
  = Ok (e, tokens') ->
  single e.
Proof.
  unfold parse_item. intros Hp.
  repeat match type of Hp with
  | (if ?c then _ else _) = _ => destruct c
  end;
  eauto using parse_integer_single, parse_string_single,
    parse_operator_single, parse_call_single,
    parse_variable_declaration_single, parse_variable_reference_single.
  destruct tokens; discriminate.
Qed.

Lemma expr_result_shape items item e :
  single item -> expr_result (items ++ [item]) = Ok e -> well_shaped e.
Proof.
  intros Hs. destruct items as [|x [|y items]]; simpl.
  - intros [= <-]. destruct item; simpl in *; first [exact I | contradiction].
  - intros [= <-]. simpl. lia.
  - intros [= <-]. simpl. lia.
Qed.

Lemma parse_expr_loop_shape fuel function_call n start_len items tokens
    e tokens' :
  parse_expr_loop fuel function_call n start_len items tokens
  = Ok (e, tokens') ->
  well_shaped e.
Proof.
  revert items tokens; induction fuel as [|fuel IH]; intros items tokens;
    simpl; [discriminate|].
  destruct (parse_item _ _ tokens) as [[item tokens1]| |] eqn:Hitem; simpl;
    try discriminate.
  apply parse_item_single in Hitem.
  destruct (_ || _).
  - destruct (expr_result (items ++ [item])) as [r| |] eqn:Hr; simpl;
      try discriminate.
    intros [= <- <-]. eapply expr_result_shape; eassumption.
  - apply IH.
Qed.

Lemma consume_head token rest expected_type :
  type token = expected_type ->
  consume (token :: rest) expected_type = Ok (token, rest).
Proof.
  intros <-. unfold consume. rewrite bool_decide_eq_false_2; [reflexivity|].
  intros Hne; now apply Hne.
Qed.

(** With [END] next, the loop of [parse_expr] has no item to parse. *)
Lemma parse_expr_at_END fuel function_call n token rest :
  type token = END ->
  parse_expr (S fuel) function_call n (token :: rest)
  = Raise (InvalidTokenType token).
Proof.
  intros Htype. unfold parse_expr; simpl.
  unfold parse_item, is_operator_next, peek; simpl.
  rewrite Htype; simpl. reflexivity.
Qed.

(** C10. The expression-sequence parser never returns an empty
    sequence: what [parse_expr] returns is one item or a list of two
    items or more, so never the empty list; and a definition whose
    parameter list is followed at once by [END] is no definition with an
    empty body, its parse fails with the exception of an invalid
    token. *)
Theorem parse_expr_never_empty :
  (forall fuel function_call n tokens e tokens',
      parse_expr fuel function_call n tokens = Ok (e, tokens') ->
      e <> ListNode [] /\ well_shaped e)
  /\ (forall fuel def_token name_token tokens arg_names end_token rest,
        type def_token = DEF ->
        type name_token = IDENTIFIER ->
        parse_argument_names tokens = Ok (arg_names, end_token :: rest) ->
        type end_token = END ->
        parse_definition (S fuel) (def_token :: name_token :: tokens)
        = Raise (InvalidTokenType end_token)).
Proof.
  split.
  - intros fuel function_call n tokens e tokens' Hp.
    apply parse_expr_loop_shape in Hp. split; [|exact Hp].
    intros ->. simpl in Hp. lia.
  - intros fuel def_token name_token tokens arg_names end_token rest
      Hdef Hname Hargs Hend.
    unfold parse_definition.
    rewrite (consume_head _ _ _ Hdef); cbn [bind].
    rewrite (consume_head _ _ _ Hname); cbn [bind].
    rewrite Hargs; cbn [bind].
    now rewrite parse_expr_at_END.
Qed.

End ParserFacts.

(* ===================================================================== *)
(** * Properties of the interpreter *)
(* ===================================================================== *)

Section ArithmeticFacts.

(** A list of classes is no second argument for [isinstance]: the test
    of [is_math_expression] raises on the first element it is asked
    about, and only the empty list passes it. *)
Lemma is_math_expression_cons (first : node) (rest : list node) :
  is_math_expression (first :: rest) = Raise TypeError.
Proof. reflexivity. Qed.

Lemma is_math_expression_nil : is_math_expression [] = Ok true.
Proof. reflexivity. Qed.

Lemma operator_node_to_function_operator (o : Operator) :
  operator_node_to_function (OperatorNode o) = Ok (apply_operator o).
Proof. now destruct o. Qed.

Lemma execute_math_loop_left_fold variables steps accumulator :
  execute_math_loop
    (flat_map (fun step => [OperatorNode (fst step); snd step]) steps)
    variables accumulator
  = left_fold variables accumulator steps.
Proof.
  revert accumulator; induction steps as [|[o x] steps IH];
    intros accumulator; [reflexivity|].
  cbn [flat_map fst snd app execute_math_loop left_fold].
  destruct (operand x variables) as [v| |]; cbn [bind]; try reflexivity.
  rewrite operator_node_to_function_operator; cbn [bind].
  destruct (apply_operator o accumulator v); cbn [bind]; auto.
Qed.

(** [execute_math] on its own is the left to right fold, without any
    precedence among the operators. *)
Lemma execute_math_left_fold variables first steps :
  execute_math (arithmetic_run first steps) variables
  = let* accumulator := operand first variables in
    left_fold variables accumulator steps.
Proof.
  unfold arithmetic_run, execute_math.
  destruct (operand first variables); cbn [bind]; try reflexivity.
  apply execute_math_loop_left_fold.
Qed.

Example execute_math_2_plus_3_times_4 :
  execute_math
    [IntegerNode 2; OperatorNode OpADD; IntegerNode 3;
     OperatorNode OpMULTIPLY; IntegerNode 4] ∅
  = Ok (PyInt 20).
Proof. reflexivity. Qed.

Example execute_math_10_minus_4_minus_1 :
  execute_math
    [IntegerNode 10; OperatorNode OpSUBTRACT; IntegerNode 4;
     OperatorNode OpSUBTRACT; IntegerNode 1] ∅
  = Ok (PyInt 5).
Proof. reflexivity. Qed.

(** [7 / 2] is the float [3.5], that is 7 * 2^50 * 2^-51. *)
Example execute_math_7_over_2 :
  execute_math [IntegerNode 7; OperatorNode OpDIVIDE; IntegerNode 2] ∅
  = Ok (PyFloat (S754_finite false (7 * 2 ^ 50) (-51))).
Proof. vm_compute. reflexivity. Qed.

End ArithmeticFacts.

Section InterpreterFacts.

Context `{Host}.
Variable functions : function_table.

(** C1. An arithmetic run never reaches the fold.  A list of one node or
    more makes [is_math_expression] raise [TypeError], as an expression
    of its own and as the right hand side of an assignment; and as the
    body of a function its nodes are run one by one, so that [2 + 3 * 4]
    gives 4, the value of its last node, not 20. *)
Theorem arithmetic_run_raises (fuel : nat) (first : node)
    (rest : list node) (target : string) (variables : scope) (w : World) :
  execute_item functions (S fuel) (ListNode (first :: rest)) variables w
  = (Raise TypeError, w)
  /\ execute_item functions (S fuel)
       (VariableDeclarationNode target (ListNode (first :: rest))) variables w
     = (Raise TypeError, w)
  /\ run_body (execute_item functions (S fuel))
       (ListNode
          [IntegerNode 2; OperatorNode OpADD; IntegerNode 3;
           OperatorNode OpMULTIPLY; IntegerNode 4]) variables w
     = (Ok (PyInt 4), w).
Proof. repeat split. Qed.

(** C2. An assignment whose right hand side is a variable reference
    does not read the variable: the target is bound to the name of the
    referenced variable, as a [str], and that is what a later read of the
    target finds. *)
Theorem assignment_of_reference_binds_name (fuel : nat) (target v : string)
    (variables : scope) (w : World) :
  execute_item functions (S fuel)
    (VariableDeclarationNode target (VariableReferenceNode v)) variables w
  = (Ok (PyNone, <[target := PyStr v]> variables), w)
  /\ subscript (<[target := PyStr v]> variables) target = Ok (PyStr v).
Proof.
  split; [reflexivity|].
  unfold subscript. now rewrite lookup_insert_eq.
Qed.

(** C3. A literal whose value is false in a test, the integer 0 or the
    empty text, falls through to the exception of the node that cannot be
    executed. *)
Theorem false_literal_not_executed (fuel : nat) (variables : scope)
    (w : World) :
  execute_item functions (S fuel) (IntegerNode 0) variables w
  = (Raise (NoWayToExecute (IntegerNode 0)), w)
  /\ execute_item functions (S fuel) (StringNode EmptyString) variables w
     = (Raise (NoWayToExecute (StringNode EmptyString)), w).
Proof. split; reflexivity. Qed.

(** The literals that do evaluate to their value. *)
Lemma integer_literal_value (fuel : nat) (z : Z) (variables : scope)
    (w : World) :
  z <> 0 ->
  execute_item functions (S fuel) (IntegerNode z) variables w
  = (Ok (PyInt z, variables), w).
Proof.
  intros Hz. cbn. unfold then_, lift, ret; cbn.
  now apply Z.eqb_neq in Hz as ->.
Qed.

Lemma string_literal_value (fuel : nat) (c : ascii) (s : string)
    (variables : scope) (w : World) :
  execute_item functions (S fuel) (StringNode (String c s)) variables w
  = (Ok (PyStr (String c s), variables), w).
Proof. reflexivity. Qed.

(** A call node whose name no definition bears goes to the host. *)
Lemma call_node_delegates (fuel : nat) (callee : string)
    (arg_exprs : list node) (variables : scope) (w : World) :
  functions !! callee = None ->
  execute_item functions (S fuel) (CallNode callee arg_exprs) variables w
  = match builtins callee with
    | Some function =>
        then_ (execute_each (execute_item functions fuel) arg_exprs variables)
          (fun '(args, variables1) =>
             then_ (call_host function args)
               (fun result => ret (result, variables1))) w
    | None => (Raise (CouldNotFindFunction callee), w)
    end.
Proof.
  intros Hnone. cbn [execute_item call_function]. rewrite Hnone.
  now destruct (builtins callee).
Qed.

Lemma call_function_undefined (fuel : nat) (callee : string)
    (args : list pyval) (w : World) :
  functions !! callee = None ->
  call_function functions (S fuel) callee args w
  = (Raise (FunctionDoesNotExist callee), w).
Proof.
  intros Hnone. cbn [execute_item call_function]. now rewrite Hnone.
Qed.

Lemma execute_item_declaration_call (fuel : nat) (target callee : string)
    (arg_exprs : list node) (variables : scope) :
  execute_item functions (S fuel)
    (VariableDeclarationNode target (CallNode callee arg_exprs)) variables
  = then_ (execute_each (execute_item functions fuel) arg_exprs variables)
      (fun '(args, variables1) =>
         then_ (call_function functions fuel callee args)
           (fun result => ret (PyNone, <[target := result]> variables1))).
Proof. reflexivity. Qed.

(** The call on the right hand side of an assignment goes to
    [call_function], which knows the defined functions only. *)
Lemma assignment_call_undefined (fuel : nat) (target callee : string)
    (arg_exprs : list node) (variables : scope) (w : World)
    (args : list pyval) (variables1 : scope) (w1 : World) :
  functions !! callee = None ->
  execute_each (execute_item functions (S fuel)) arg_exprs variables w
  = (Ok (args, variables1), w1) ->
  execute_item functions (S (S fuel))
    (VariableDeclarationNode target (CallNode callee arg_exprs)) variables w
  = (Raise (FunctionDoesNotExist callee), w1).
Proof.
  intros Hnone Heach. rewrite execute_item_declaration_call.
  unfold then_ at 1. rewrite Heach. unfold then_.
  now rewrite call_function_undefined.
Qed.

End InterpreterFacts.

Section PlainFacts.

Lemma raises_plain_Ok {A} (a : A) : raises_plain (Ok a).
Proof. intros e; discriminate. Qed.

Lemma raises_plain_OutOfFuel {A} : raises_plain (@OutOfFuel A).
Proof. intros e; discriminate. Qed.

Lemma raises_plain_Raise {A} (e : exception) :
  plain e = true -> raises_plain (@Raise A e).
Proof. intros He e' [= <-]; exact He. Qed.

Lemma raises_plain_bind {A B} (m : outcome A) (k : A -> outcome B) :
  raises_plain m -> (forall a, raises_plain (k a)) -> raises_plain (bind m k).
Proof.
  intros Hm Hk e. destruct m as [a|e'|]; simpl.
  - apply Hk.
  - intros [= <-]. now apply Hm.
  - discriminate.
Qed.

Ltac plain_step :=
  first
    [ apply raises_plain_Ok
    | apply raises_plain_OutOfFuel
    | apply raises_plain_Raise; reflexivity
    | apply raises_plain_bind; [|intros ?] ].

Lemma overflow_check_plain f : raises_plain (Py.overflow_check f).
Proof. destruct f; simpl; plain_step. Qed.

Lemma float_of_int_plain z : raises_plain (Py.float_of_int z).
Proof. apply overflow_check_plain. Qed.

Lemma int_truediv_plain a b : raises_plain (Py.int_truediv a b).
Proof.
  unfold Py.int_truediv.
  destruct (b =? 0); [plain_step|]. destruct (a =? 0); [plain_step|].
  destruct (SFdiv_core_binary _ _ _ _ _ _) as [[q e] l].
  apply overflow_check_plain.
Qed.

Lemma float_truediv_plain x y : raises_plain (Py.float_truediv x y).
Proof. unfold Py.float_truediv. destruct (Py.float_is_zero y); plain_step. Qed.

Lemma numeric_plain on_int on_float a b :
  raises_plain (Py.numeric on_int on_float a b).
Proof.
  destruct a, b; simpl; repeat plain_step; apply float_of_int_plain.
Qed.

Lemma add_plain a b : raises_plain (Py.add a b).
Proof.
  destruct a, b; try apply numeric_plain; simpl; plain_step.
Qed.

Lemma sub_plain a b : raises_plain (Py.sub a b).
Proof. apply numeric_plain. Qed.

Lemma mul_plain a b : raises_plain (Py.mul a b).
Proof.
  destruct a, b; try apply numeric_plain; simpl; plain_step.
Qed.

Lemma truediv_plain a b : raises_plain (Py.truediv a b).
Proof.
  destruct a, b; simpl; repeat plain_step;
    auto using float_of_int_plain, int_truediv_plain, float_truediv_plain.
Qed.

Lemma value_of_plain x : raises_plain (value_of x).
Proof. destruct x; simpl; plain_step. Qed.

Lemma subscript_plain variables key : raises_plain (subscript variables key).
Proof. unfold subscript. destruct (variables !! key); plain_step. Qed.

Lemma operand_plain x variables : raises_plain (operand x variables).
Proof. destruct x; simpl; first [apply subscript_plain | plain_step]. Qed.

Lemma operator_node_to_function_plain op_node :
  raises_plain (operator_node_to_function op_node).
Proof.
  unfold operator_node_to_function. apply raises_plain_bind.
  - apply value_of_plain.
  - intros [| | |[]|]; plain_step.
Qed.

Lemma operator_node_to_function_result op_node function :
  operator_node_to_function op_node = Ok function ->
  exists o, function = apply_operator o.
Proof.
  unfold operator_node_to_function.
  destruct (value_of op_node) as [[| | |[]|]| |]; simpl; try discriminate;
    intros [= <-];
    [exists OpADD | exists OpSUBTRACT | exists OpDIVIDE | exists OpMULTIPLY];
    reflexivity.
Qed.

Lemma apply_operator_plain o a b : raises_plain (apply_operator o a b).
Proof.
  destruct o; simpl; auto using add_plain, sub_plain, mul_plain, truediv_plain.
Qed.

Lemma execute_math_loop_plain expression variables accumulator :
  raises_plain (execute_math_loop expression variables accumulator).
Proof.
  remember (length expression) as k eqn:Hk.
  revert expression accumulator Hk.
  induction (lt_wf k) as [k _ IH]; intros expression accumulator ->.
  destruct expression as [|operator [|x rest]]; simpl; try plain_step.
  - apply operand_plain.
  - destruct (operator_node_to_function operator) as [function| |] eqn:Ef;
      simpl.
    + apply operator_node_to_function_result in Ef as [o ->].
      plain_step; [apply apply_operator_plain|].
      eapply IH; [|reflexivity]. simpl; lia.
    + apply raises_plain_Raise.
      now apply (operator_node_to_function_plain operator).
    + plain_step.
Qed.

Lemma execute_math_plain expression variables :
  raises_plain (execute_math expression variables).
Proof.
  destruct expression; simpl; plain_step;
    auto using operand_plain, execute_math_loop_plain.
Qed.

Lemma comprehension_plain {A B} (f : A -> outcome B) l :
  (forall x, raises_plain (f x)) -> raises_plain (comprehension f l).
Proof.
  intros Hf. induction l; simpl; repeat plain_step; auto.
Qed.

Lemma is_math_expression_plain expression :
  raises_plain (is_math_expression expression).
Proof.
  unfold is_math_expression. plain_step; [|plain_step].
  apply comprehension_plain. intros x; simpl. plain_step.
Qed.

Lemma bind_arguments_plain params args function_variables :
  raises_plain (bind_arguments params args function_variables).
Proof.
  revert params function_variables; induction args as [|v args IH];
    intros [|p params] function_variables; simpl; try plain_step; apply IH.
Qed.

End PlainFacts.

Section EvaluationFacts.

Context `{Host}.
Variable functions : function_table.

Lemma plain_evaluation_exception e :
  plain e = true -> evaluation_exception functions e.
Proof. destruct e; simpl; try discriminate; exact (fun _ => I). Qed.

Lemma raises_evaluation_ret {A} (a : A) : raises_evaluation functions (ret a).
Proof. intros w e w'; discriminate. Qed.

Lemma raises_evaluation_lift {A} (m : outcome A) :
  raises_plain m -> raises_evaluation functions (lift m).
Proof.
  intros Hm w e w'. unfold lift. intros [= -> <-].
  apply plain_evaluation_exception. now apply Hm.
Qed.

Lemma raises_evaluation_raise {A} e :
  evaluation_exception functions e ->
  raises_evaluation functions (@raise _ A e).
Proof. intros He w e' w'. unfold raise, lift. now intros [= <- <-]. Qed.

Lemma raises_evaluation_then {A B} (m : M A) (k : A -> M B) :
  raises_evaluation functions m ->
  (forall a, raises_evaluation functions (k a)) ->
  raises_evaluation functions (then_ m k).
Proof.
  intros Hm Hk w e w'. unfold then_.
  destruct (m w) as [[a|e0|] w0] eqn:Em.
  - apply Hk.
  - intros [= <- <-]. eapply Hm; eassumption.
  - discriminate.
Qed.

Lemma raises_evaluation_call_host function args :
  raises_evaluation functions (call_host function args).
Proof.
  intros w e w'. unfold call_host.
  destruct (function args w) as [[v|msg] w0]; [discriminate|].
  now intros [= <- <-].
Qed.

Ltac evaluation_step :=
  lazymatch goal with
  | |- forall _ : node, _ => intros ? ?
  | |- raises_evaluation _ (ret _) => apply raises_evaluation_ret
  | |- raises_evaluation _ (raise _) =>
      apply raises_evaluation_raise; simpl; solve [exact I | naive_solver]
  | |- raises_evaluation _ (call_host _ _) =>
      apply raises_evaluation_call_host
  | |- raises_evaluation _ (lift _) =>
      apply raises_evaluation_lift;
      first
        [ apply value_of_plain | apply subscript_plain
        | apply is_math_expression_plain | apply execute_math_plain
        | apply bind_arguments_plain
        | intros ?; discriminate ]
  | |- raises_evaluation _ (then_ _ _) =>
      apply raises_evaluation_then; [|intros ?]
  | |- raises_evaluation _ (match ?a with (_, _) => _ end) => destruct a
  | |- raises_evaluation _ (if ?b then _ else _) => destruct b
  | |- raises_evaluation _ _ =>
      match goal with
      | IH : _ |- _ => apply IH
      end
  end.

Lemma raises_evaluation_execute_each exec exprs variables :
  (forall expr vars, raises_evaluation functions (exec expr vars)) ->
  raises_evaluation functions (execute_each exec exprs variables).
Proof.
  intros Hexec. revert variables; induction exprs as [|expr exprs IH];
    intros variables; simpl; repeat evaluation_step.
Qed.

Lemma raises_evaluation_execute_lines exec lines variables :
  (forall expr vars, raises_evaluation functions (exec expr vars)) ->
  raises_evaluation functions (execute_lines exec lines variables).
Proof.
  intros Hexec. revert variables; induction lines as [|item lines IH];
    intros variables; simpl; [evaluation_step|].
  destruct lines as [|item' lines]; repeat evaluation_step.
Qed.

Lemma raises_evaluation_run_body exec body variables :
  (forall expr vars, raises_evaluation functions (exec expr vars)) ->
  raises_evaluation functions (run_body exec body variables).
Proof.
  intros Hexec.
  destruct body; simpl; repeat evaluation_step.
  now apply raises_evaluation_execute_lines.
Qed.

(** Every exception of the evaluation is an [evaluation_exception]. *)
Lemma evaluation_raises fuel :
  (forall item variables,
      raises_evaluation functions (execute_item functions fuel item variables))
  /\ (forall callee args,
        raises_evaluation functions (call_function functions fuel callee args)).
Proof.
  pose proof raises_evaluation_execute_each as Heach.
  pose proof raises_evaluation_run_body as Hbody.
  induction fuel as [|fuel [IHitem IHcall]].
  - split; intros; simpl; evaluation_step.
  - split.
    + intros item variables.
      destruct item as [v|v|v|v|callee arg_exprs|target expression|items];
        cbn [execute_item call_function].
      * repeat evaluation_step.
      * repeat evaluation_step.
      * repeat evaluation_step.
      * repeat evaluation_step.
      * destruct (functions !! callee) as [function|] eqn:Ef.
        -- case_bool_decide as Hlen; repeat evaluation_step.
        -- destruct (builtins callee) as [function|];
             repeat evaluation_step.
      * destruct expression as [v|v|v|v|callee arg_exprs|t e|l];
          repeat evaluation_step.
      * repeat evaluation_step.
    + intros callee args. cbn [execute_item call_function].
      destruct (functions !! callee) as [function|] eqn:Ef.
      * case_bool_decide as Hlen; repeat evaluation_step.
      * repeat evaluation_step.
Qed.

End EvaluationFacts.

Section BodyLines.

Context `{Host}.

Lemma then_assoc {A B C : Type} (m : M A) (k : A -> M B) (k' : B -> M C)
    (w : World) :
  then_ (then_ m k) k' w = then_ m (fun a => then_ (k a) k') w.
Proof. unfold then_. now destruct (m w) as [[a|e|] w1]. Qed.

Lemma then_cong {A B : Type} (m : M A) (k k' : A -> M B) (w : World) :
  (forall a w1, k a w1 = k' a w1) -> then_ m k w = then_ m k' w.
Proof. intros Hk. unfold then_. destruct (m w) as [[a|e|] w1]; auto. Qed.

Lemma then_first {A B : Type} (m m' : M A) (k : A -> M B) (w : World) :
  m w = m' w -> then_ m k w = then_ m' k w.
Proof. intros Hm. unfold then_. now rewrite Hm. Qed.

(** The loop over the lines of a body, split at its last line. *)
Lemma execute_lines_snoc
    (exec : node -> scope -> M (pyval * scope)) (lines : list node)
    (last : node) (variables : scope) (w : World) :
  execute_lines exec (lines ++ [last]) variables w
  = then_ (execute_each exec lines variables)
      (fun '(_, variables1) =>
         then_ (exec last variables1) (fun '(ret_val, _) => ret ret_val)) w.
Proof.
  revert variables w. induction lines as [|line lines IH]; intros variables w.
  - reflexivity.
  - assert (execute_lines exec ((line :: lines) ++ [last]) variables w
            = then_ (exec line variables)
                (fun '(_, variables1) =>
                   execute_lines exec (lines ++ [last]) variables1) w)
      as -> by (now destruct lines).
    cbn [execute_each]. rewrite then_assoc. apply then_cong.
    intros [v variables1] w1. rewrite IH, then_assoc. apply then_cong.
    now intros [vs variables2] w2.
Qed.

End BodyLines.

Section CallFacts.

Context `{Host}.
Variable functions : function_table.

Lemma bind_arguments_dom params args (function_variables : scope) :
  length args = length params ->
  exists bound,
    bind_arguments params args function_variables = Ok bound
    /\ dom bound = list_to_set params ∪ dom function_variables.
Proof.
  revert params function_variables; induction args as [|v args IH];
    intros [|p params] function_variables Hlen; simpl in Hlen;
    try discriminate.
  - exists function_variables. split; [reflexivity|].
    simpl. now rewrite union_empty_l_L.
  - destruct (IH params (<[p := v]> function_variables)) as (bound & Hb & Hd);
      [lia|].
    exists bound. split; [exact Hb|].
    rewrite Hd, dom_insert_L. simpl.
    now rewrite (assoc_L (∪)), (comm_L (∪) (list_to_set params)).
Qed.

(** The loop binds the parameters to the arguments by position, a later
    parameter of the same name taking the place of an earlier one. *)
Lemma bind_arguments_zip params args (function_variables : scope) :
  length args = length params ->
  bind_arguments params args function_variables
  = Ok (list_to_map (reverse (zip params args)) ∪ function_variables).
Proof.
  revert params function_variables; induction args as [|v args IH];
    intros [|p params] function_variables Hlen; simpl in Hlen;
    try discriminate.
  - simpl. now rewrite (left_id_L ∅ (∪)).
  - simpl. rewrite IH by lia. f_equal.
    rewrite reverse_cons, list_to_map_app. simpl.
    rewrite insert_empty, <- (assoc_L (∪)).
    now rewrite <- insert_union_singleton_l.
Qed.

Lemma execute_each_length exec exprs variables w args variables1 w1 :
  execute_each exec exprs variables w = (Ok (args, variables1), w1) ->
  length args = length exprs.
Proof.
  revert variables w args variables1 w1;
    induction exprs as [|expr exprs IH]; intros variables w args variables1 w1;
    simpl.
  - unfold ret. now intros [= <- <- <-].
  - unfold then_ at 1.
    destruct (exec expr variables w) as [[[v vars0]|e|] w0]; try discriminate.
    unfold then_ at 1.
    destruct (execute_each exec exprs vars0 w0) as [[[vs vars2]|e|] w2] eqn:E;
      try discriminate.
    unfold ret. intros [= <- <- <-]. simpl. f_equal. eapply IH; eassumption.
Qed.

Variable callee : string.
Variable function : DefinitionNode.
Hypothesis Hfunction : functions !! callee = Some function.

(** [call_function] on as many arguments as parameters runs the body
    in a variable holder made of the parameters and nothing else. *)
Lemma call_function_matching fuel args w :
  length args = length (arguments function) ->
  exists function_variables,
    bind_arguments (arguments function) args ∅ = Ok function_variables
    /\ function_variables
       = list_to_map (reverse (zip (arguments function) args))
    /\ dom function_variables = list_to_set (arguments function)
    /\ call_function functions (S fuel) callee args w
       = run_body (execute_item functions fuel) (body function)
           function_variables w.
Proof.
  intros Hlen.
  destruct (bind_arguments_dom (arguments function) args ∅ Hlen)
    as (bound & Hb & Hd).
  exists bound. split; [exact Hb|].
  split.
  { pose proof (bind_arguments_zip (arguments function) args ∅ Hlen) as Hz.
    rewrite Hb in Hz. injection Hz as ->. apply (right_id_L ∅ (∪)). }
  split; [now rewrite Hd, dom_empty_L, union_empty_r_L|].
  cbn [call_function execute_item]. rewrite Hfunction.
  rewrite bool_decide_eq_false_2 by (intros Hne; now apply Hne).
  unfold then_ at 1, lift. now rewrite Hb.
Qed.

Lemma call_function_mismatch fuel args w :
  length args <> length (arguments function) ->
  call_function functions (S fuel) callee args w
  = (Raise (FunctionExpects callee (length (arguments function))
              (length args)), w).
Proof.
  intros Hlen. cbn [call_function execute_item]. rewrite Hfunction.
  now rewrite bool_decide_eq_true_2.
Qed.

Lemma call_node_mismatch fuel arg_exprs variables w :
  length arg_exprs <> length (arguments function) ->
  execute_item functions (S fuel) (CallNode callee arg_exprs) variables w
  = (Raise (TakesArgumentsInsteadOf callee (arguments function)
              (length arg_exprs)), w).
Proof.
  intros Hlen. cbn [call_function execute_item]. rewrite Hfunction.
  rewrite bool_decide_eq_true_2; [reflexivity|]. congruence.
Qed.

Lemma call_node_matching fuel arg_exprs variables w :
  length arg_exprs = length (arguments function) ->
  execute_item functions (S fuel) (CallNode callee arg_exprs) variables w
  = then_ (execute_each (execute_item functions fuel) arg_exprs variables)
      (fun '(args, variables1) =>
         then_ (call_function functions fuel callee args)
           (fun result => ret (result, variables1))) w.
Proof.
  intros Hlen. cbn [call_function execute_item]. rewrite Hfunction.
  rewrite bool_decide_eq_false_2; [reflexivity|]. congruence.
Qed.

(** No evaluation raises the arity exception of a call that has as many
    arguments as the callee has parameters. *)
Lemma matching_arity_not_raised {A} (m : M A) n e w w' :
  raises_evaluation functions m ->
  n = length (arguments function) ->
  m w = (Raise e, w') ->
  ~ arity_error_of callee (arguments function) n e.
Proof.
  intros Hm -> Hrun [-> | ->]; apply Hm in Hrun; simpl in Hrun;
    destruct Hrun as (f & Hf & Hp & Hn); rewrite Hfunction in Hf;
    injection Hf as <-; congruence.
Qed.

(** C5. Arity of a call to a defined function.  A call is turned down
    with an arity exception of its own (the one of [execute_item] for a
    call node, the one of [call_function] for evaluated arguments)
    exactly when the number of arguments differs from the number of
    parameters of the callee.  With as many arguments as parameters, and
    the arguments evaluated, the body of the callee is executed on the
    bound parameters: a body of one item is evaluated by [execute_item] and
    its value is the value of the call; of a body of several lines every
    line is evaluated by [execute_item], in order and in one variable
    holder, and the value of the last line is the value of the call; a
    body without lines gives [None].  The caller keeps the variable holder
    it had after its arguments. *)
Theorem call_arity :
  (forall fuel args w,
      (exists e w',
          call_function functions (S fuel) callee args w = (Raise e, w')
          /\ arity_error_of callee (arguments function) (length args) e)
      <-> length args <> length (arguments function))
  /\ (forall fuel arg_exprs variables w,
        (exists e w',
            execute_item functions (S fuel) (CallNode callee arg_exprs)
              variables w = (Raise e, w')
            /\ arity_error_of callee (arguments function)
                 (length arg_exprs) e)
        <-> length arg_exprs <> length (arguments function))
  /\ (forall fuel arg_exprs variables w args variables1 w1,
        length arg_exprs = length (arguments function) ->
        execute_each (execute_item functions (S fuel)) arg_exprs variables w
        = (Ok (args, variables1), w1) ->
        exists function_variables,
          bind_arguments (arguments function) args ∅ = Ok function_variables
          /\ (single (body function) ->
              execute_item functions (S (S fuel)) (CallNode callee arg_exprs)
                variables w
              = then_
                  (execute_item functions fuel (body function)
                     function_variables)
                  (fun '(result, _) => ret (result, variables1)) w1)
          /\ (forall lines last,
                body function = ListNode (lines ++ [last]) ->
                execute_item functions (S (S fuel))
                  (CallNode callee arg_exprs) variables w
                = then_
                    (execute_each (execute_item functions fuel) lines
                       function_variables)
                    (fun '(_, variables2) =>
                       then_ (execute_item functions fuel last variables2)
                         (fun '(result, _) => ret (result, variables1))) w1)
          /\ (body function = ListNode [] ->
              execute_item functions (S (S fuel)) (CallNode callee arg_exprs)
                variables w
              = (Ok (PyNone, variables1), w1))).
Proof.
  split; [|split].
  - intros fuel args w. split.
    + intros (e & w' & Hrun & He) Hlen.
      eapply matching_arity_not_raised; [| |exact Hrun|exact He];
        [apply evaluation_raises | exact Hlen].
    + intros Hlen. eexists _, w. split;
        [now apply call_function_mismatch | now right].
  - intros fuel arg_exprs variables w. split.
    + intros (e & w' & Hrun & He) Hlen.
      eapply matching_arity_not_raised; [| |exact Hrun|exact He];
        [apply evaluation_raises | exact Hlen].
    + intros Hlen. eexists _, w. split;
        [now apply call_node_mismatch | now left].
  - intros fuel arg_exprs variables w args variables1 w1 Hlen Heach.
    pose proof (execute_each_length _ _ _ _ _ _ _ Heach) as Hargs.
    destruct (call_function_matching fuel args w1)
      as (bound & Hb & _ & _ & Hcall); [congruence|].
    exists bound. split; [exact Hb|].
    assert (execute_item functions (S (S fuel)) (CallNode callee arg_exprs)
              variables w
            = then_
                (run_body (execute_item functions fuel) (body function)
                   bound)
                (fun result => ret (result, variables1)) w1) as Hrun.
    { rewrite call_node_matching by exact Hlen.
      unfold then_ at 1. rewrite Heach. unfold then_.
      now rewrite Hcall. }
    rewrite Hrun. clear Hrun Hcall. split; [|split].
    + intros Hsingle.
      destruct (body function); try contradiction;
        cbn [run_body]; rewrite then_assoc; apply then_cong;
        now intros [result variables2] w2.
    + intros lines last ->. cbn [run_body].
      rewrite (then_first _ _ _ _ (execute_lines_snoc _ lines last bound w1)).
      rewrite then_assoc. apply then_cong.
      intros [values variables2] w2. rewrite then_assoc. apply then_cong.
      now intros [result variables3] w3.
    + now intros ->.
Qed.

(** C7. Scope isolation.  The body of a called function runs in a new
    variable holder that binds the parameters to the arguments by position
    and whose names are exactly the parameters; a call without
    arguments gives the same outcome from any two variable holders of the
    caller, and leaves each of them as it was; and a callee whose body
    reads a name that is not one of its parameters fails on it, whatever
    the caller has bound. *)
Theorem call_scope_isolation :
  (forall fuel args w,
      length args = length (arguments function) ->
      exists function_variables,
        bind_arguments (arguments function) args ∅ = Ok function_variables
        /\ function_variables
           = list_to_map (reverse (zip (arguments function) args))
        /\ dom function_variables = list_to_set (arguments function)
        /\ call_function functions (S fuel) callee args w
           = run_body (execute_item functions fuel) (body function)
               function_variables w)
  /\ (forall fuel (variables1 variables2 : scope) w,
        exists r w',
          execute_item functions fuel (CallNode callee []) variables1 w
          = (with_scope r variables1, w')
          /\ execute_item functions fuel (CallNode callee []) variables2 w
             = (with_scope r variables2, w'))
  /\ (forall fuel x arg_exprs variables args variables1 w w1,
        x ∉ arguments function ->
        body function = VariableReferenceNode x ->
        length arg_exprs = length (arguments function) ->
        execute_each (execute_item functions (S (S fuel))) arg_exprs
          variables w = (Ok (args, variables1), w1) ->
        execute_item functions (S (S (S fuel))) (CallNode callee arg_exprs)
          variables w = (Raise (KeyError (PyStr x)), w1)).
Proof.
  split; [|split].
  - intros fuel args w Hlen. now apply call_function_matching.
  - intros fuel variables1 variables2 w.
    destruct fuel as [|fuel]; [now exists OutOfFuel, w|].
    destruct (decide (length (@nil node) = length (arguments function)))
      as [Hlen|Hlen].
    + rewrite !call_node_matching by exact Hlen.
      cbn [execute_each]. unfold then_, ret.
      destruct (call_function functions fuel callee [] w) as [[v|e|] w'];
        [now exists (Ok v), w' | now exists (Raise e), w'
        | now exists OutOfFuel, w'].
    + rewrite !call_node_mismatch by exact Hlen.
      now eexists (Raise _), w.
  - intros fuel x arg_exprs variables args variables1 w w1 Hx Hbody Hlen
      Heach.
    pose proof (execute_each_length _ _ _ _ _ _ _ Heach) as Hargs.
    destruct (call_function_matching (S fuel) args w1)
      as (bound & Hb & _ & Hd & Hcall); [congruence|].
    rewrite call_node_matching by exact Hlen.
    unfold then_ at 1. rewrite Heach. unfold then_ at 1.
    rewrite Hcall, Hbody. cbn [run_body execute_item call_function].
    assert (bound !! x = None) as Hnone.
    { apply not_elem_of_dom. rewrite Hd. now rewrite elem_of_list_to_set. }
    unfold then_, lift, subscript. now rewrite Hnone.
Qed.

End CallFacts.

Section EntryPointFacts.

Context `{Host}.

(** The pre-pass keeps, for each name, the last definition of the AST
    that bears it. *)
Lemma foldl_handle_definition_lookup (ast : list DefinitionNode)
    (functions : function_table) (n : string) :
  foldl handle_definition functions ast !! n
  = match last_named n ast with
    | Some item => Some item
    | None => functions !! n
    end.
Proof.
  revert functions; induction ast as [|item ast IH]; intros functions;
    [reflexivity|].
  cbn [foldl last_named]. rewrite IH.
  destruct (last_named n ast) as [later|]; [reflexivity|].
  unfold handle_definition. destruct (decide (name item = n)) as [<-|Hne].
  - apply lookup_insert_eq.
  - now apply lookup_insert_ne.
Qed.

Lemma register_definitions_lookup (ast : list DefinitionNode) (n : string) :
  register_definitions ast !! n = last_named n ast.
Proof.
  unfold register_definitions. rewrite foldl_handle_definition_lookup.
  now destruct (last_named n ast).
Qed.

(** C4. The entry point.  After the pre-pass the function table holds,
    under [main], the last definition of that name.  When there is none,
    or when it has parameters, the run fails with an exception of
    [begin_execution] about the entry point, the world untouched, whatever
    the fuel and the bodies; otherwise the body of [main] is run in an
    empty variable holder, its value is dropped, and no exception about
    the entry point comes out of the run. *)
Theorem begin_execution_entry_point (fuel : nat)
    (ast : list DefinitionNode) (w : World) :
  let functions := register_definitions ast in
  functions !! "main" = last_named "main" ast
  /\ match functions !! "main" with
     | None => begin_execution fuel ast w = (Raise MustDeclareMain, w)
     | Some main =>
         match arguments main with
         | _ :: _ =>
             begin_execution fuel ast w
             = (Raise (MainTakesArguments (length (arguments main))), w)
         | [] =>
             begin_execution (S fuel) ast w
             = then_ (run_body (execute_item functions fuel) (body main) ∅)
                 (fun _ => ret tt) w
             /\ (forall e w',
                   begin_execution fuel ast w = (Raise e, w') ->
                   entry_point_error e = false)
         end
     end.
Proof.
  intros functions. split; [apply register_definitions_lookup|].
  unfold begin_execution. fold functions.
  destruct (functions !! "main") as [main|] eqn:Hmain; [|reflexivity].
  destruct (arguments main) as [|p params] eqn:Hargs; [|reflexivity].
  simpl. split.
  - rewrite Hmain, Hargs. reflexivity.
  - intros e w'. unfold then_.
    destruct (call_function functions fuel "main" [] w) as [[v|e0|] w0] eqn:E;
      try discriminate.
    intros [= <- <-].
    apply (proj2 (evaluation_raises functions fuel)) in E.
    destruct e0; simpl in *; try reflexivity; contradiction.
Qed.

End EntryPointFacts.

(* ===================================================================== *)
(** * More on the text operations and the patterns *)
(* ===================================================================== *)

Section MoreTextFacts.

Import Text.

Lemma length_take (n : nat) (s : string) :
  String.length (take n s) = Nat.min n (String.length s).
Proof.
  revert s; induction n as [|n IH]; intros [|c s]; simpl; auto.
Qed.

Lemma span_le_length (p : ascii -> bool) (s : string) :
  (span p s <= String.length s)%nat.
Proof.
  induction s as [|c s IH]; simpl; [lia|]. destruct (p c); lia.
Qed.

Lemma span_take (p : ascii -> bool) (j : nat) (s : string) :
  span p (take j s) = Nat.min (span p s) j.
Proof.
  revert s; induction j as [|j IH]; intros [|c s]; simpl;
    try destruct (p c); try rewrite IH; lia.
Qed.

Lemma drop_take (n j : nat) (s : string) :
  drop n (take (n + j) s) = take j (drop n s).
Proof.
  revert s; induction n as [|n IH]; intros [|c s]; simpl; auto.
  now destruct j.
Qed.

Lemma take_take (a b : nat) (s : string) :
  take a (take b s) = take (Nat.min a b) s.
Proof.
  revert b s; induction a as [|a IH]; intros [|b] [|c s]; simpl; auto.
  now rewrite IH.
Qed.

Lemma drop_drop (a b : nat) (s : string) :
  drop a (drop b s) = drop (b + a) s.
Proof.
  revert s; induction b as [|b IH]; intros s; simpl; auto.
  destruct s as [|c s]; [now destruct a | apply IH].
Qed.

Lemma take_span_forall (p : ascii -> bool) (s : string) (q : string -> bool) :
  q EmptyString = true ->
  (forall c r, q (String c r) = p c && q r) ->
  q (take (span p s) s) = true.
Proof.
  intros Hnil Hcons. induction s as [|c s IH]; simpl; [exact Hnil|].
  destruct (p c) eqn:E; simpl; [|exact Hnil].
  now rewrite Hcons, E, IH.
Qed.

Lemma drop_span_head (p : ascii -> bool) (s : string) (c : ascii) (r : string) :
  drop (span p s) s = String c r -> p c = false.
Proof.
  induction s as [|x s IH]; simpl; [discriminate|].
  destruct (p x) eqn:E; simpl; [exact IH|]. now intros [= <- <-].
Qed.

Lemma take_nonempty (n : nat) (s : string) :
  (1 <= n)%nat -> s <> EmptyString -> take n s <> EmptyString.
Proof. destruct n, s; simpl; try lia; congruence. Qed.

Lemma has_newline_take_span (s : string) :
  has_newline (take (span (fun c => negb (is_newline c)) s) s) = false.
Proof.
  induction s as [|c s IH]; simpl; [reflexivity|].
  destruct (is_newline c) eqn:E; simpl; [reflexivity|]. now rewrite E.
Qed.

Lemma has_newline_take (n : nat) (s : string) :
  has_newline s = false -> has_newline (take n s) = false.
Proof.
  revert s; induction n as [|n IH]; intros [|c s]; simpl; auto.
  intros Hn. apply orb_false_iff in Hn as [-> Hn]. now apply IH.
Qed.

End MoreTextFacts.

Section WellLexed.

Import Text.

Lemma prefix_take (p s : string) :
  String.prefix p s = true -> take (String.length p) s = p.
Proof.
  revert s; induction p as [|a p IH]; intros [|b s]; simpl; try discriminate;
    auto.
  destruct (ascii_dec a b) as [<-|]; [|discriminate].
  intros Hp. now rewrite IH.
Qed.

Lemma prefix_append (p r : string) : String.prefix p (String.append p r) = true.
Proof.
  induction p as [|a p IH]; [now destruct r|].
  rewrite append_cons. simpl. now destruct (ascii_dec a a).
Qed.

Lemma char_is_eq (c : ascii) (s : string) :
  Re.char_is c s = true -> exists r, s = String c r.
Proof.
  destruct s as [|c' r]; simpl; [discriminate|].
  intros Hc. apply Ascii.eqb_eq in Hc as <-. now exists r.
Qed.

Lemma char_is_take (c : ascii) (j : nat) (s : string) :
  (1 <= j)%nat -> Re.char_is c (take j s) = Re.char_is c s.
Proof. destruct j, s; simpl; auto; lia. Qed.

(** The pattern of a line on the text it has matched, and on any longer
    piece of the text it was tried on. *)
Lemma line_some (s : string) (m : nat) :
  Re.line s = Some m ->
  (2 <= m <= String.length s)%nat
  /\ m = S (span (fun c => negb (is_newline c)) s)
  /\ forall j, (m <= j)%nat -> Re.line (take j s) = Some m.
Proof.
  unfold Re.line.
  destruct (span _ s) as [|m0] eqn:Hspan; [discriminate|].
  destruct (Re.char_is LF (drop (S m0) s)) eqn:Hlf; [|discriminate].
  intros [= <-].
  assert (String.length (drop (S m0) s) >= 1)%nat as Hlen.
  { apply char_is_eq in Hlf as [r ->]. simpl; lia. }
  rewrite length_drop in Hlen.
  split; [lia|]. split; [reflexivity|].
  intros j Hj. rewrite span_take, Hspan.
  replace (Nat.min (S m0) j) with (S m0) by lia.
  replace j with (S m0 + (j - S m0))%nat by lia.
  rewrite drop_take, char_is_take by lia. now rewrite Hlf.
Qed.

Lemma line_none (s : string) (j : nat) :
  Re.line s = None -> Re.line (take j s) = None.
Proof.
  unfold Re.line. rewrite span_take.
  destruct (span _ s) as [|m0] eqn:Hspan; [reflexivity|].
  destruct (Re.char_is LF (drop (S m0) s)) eqn:Hlf; [discriminate|].
  intros _.
  destruct (Nat.min (S m0) j) as [|m1] eqn:Hmin; [reflexivity|].
  destruct (le_lt_dec j (S m0)) as [Hle|Hlt].
  - replace (S m1) with j by lia.
    assert (drop j (take j s) = EmptyString) as ->; [|reflexivity].
    assert (String.length (drop j (take j s)) = 0)%nat as Hz.
    { rewrite length_drop, length_take. lia. }
    now destruct (drop j (take j s)).
  - replace (S m1) with (S m0) by lia.
    replace j with (S m0 + (j - S m0))%nat by lia.
    rewrite drop_take, char_is_take by lia. now rewrite Hlf.
Qed.

Lemma equals_sign_some (s : string) (k : nat) :
  Re.equals_sign s = Some k ->
  (1 <= k <= 2)%nat /\ (k <= String.length s)%nat
  /\ forall j, (k <= j)%nat -> Re.equals_sign (take j s) = Some k.
Proof.
  unfold Re.equals_sign. destruct s as [|c rest]; [discriminate|].
  destruct (Ascii.eqb c "=") eqn:Heq.
  - intros [= <-]. split; [lia|]. split; [simpl; lia|].
    intros [|j] Hj; [lia|]. simpl. now rewrite Heq.
  - destruct (is_space c && Re.char_is "=" rest) eqn:Hsp; [|discriminate].
    intros [= <-]. apply andb_true_iff in Hsp as [Hc Hr].
    split; [lia|]. split.
    { apply char_is_eq in Hr as [r ->]. simpl; lia. }
    intros [|[|j]] Hj; try lia.
    change (take (S (S j)) (String c rest))
      with (String c (take (S j) rest)).
    cbv beta iota. rewrite Heq, Hc, char_is_take by lia. now rewrite Hr.
Qed.

Lemma all_letters_take_span (s : string) :
  all_letters (take (span is_letter s) s) = true.
Proof. now apply take_span_forall. Qed.

Lemma all_digits_take_span (s : string) :
  all_digits (take (span is_digit s) s) = true.
Proof. now apply take_span_forall. Qed.

Lemma take_S (n : nat) (c : ascii) (s : string) :
  take (S n) (String c s) = String c (take n s).
Proof. reflexivity. Qed.

(** [Re.declaration] once the name and the sign are known. *)
Lemma declaration_eq (code : string) (n k : nat) :
  span is_letter code = n -> (1 <= n)%nat ->
  Re.equals_sign (drop n code) = Some k ->
  Re.declaration code
  = match drop (n + k) code with
    | String c r' =>
        let plain :=
          match Re.line (String c r') with
          | Some m =>
              Some (take n code, take (m - 1) (String c r'), (n + k + m)%nat)
          | None => None
          end in
        if is_space c then
          match Re.line r' with
          | Some m => Some (take n code, take (m - 1) r', (n + k + 1 + m)%nat)
          | None => plain
          end
        else plain
    | EmptyString => None
    end.
Proof.
  intros <- Hn Hk. unfold Re.declaration.
  destruct (span is_letter code) as [|n0]; [lia|]. rewrite Hk.
  now destruct (drop (S n0 + k) code).
Qed.

(** The pattern of a declaration on the text it has matched: the same
    groups again, and the whole text. *)
Lemma declaration_matched (code target expression : string) (total : nat) :
  Re.declaration code = Some (target, expression, total) ->
  Re.declaration (take total code) = Some (target, expression, total)
  /\ String.length (take total code) = total
  /\ is_name target = true
  /\ has_newline expression = false
  /\ (String.length expression + 3 <= total)%nat.
Proof.
  destruct (Nat.eq_dec (span is_letter code) 0%nat) as [Hz|Hnz].
  { unfold Re.declaration. now rewrite Hz. }
  remember (span is_letter code) as n eqn:Hn. symmetry in Hn.
  destruct (Re.equals_sign (drop n code)) as [k|] eqn:Hk.
  2:{ unfold Re.declaration. rewrite Hn. destruct n; [lia|]. now rewrite Hk. }
  rewrite (declaration_eq code n k Hn) by (lia || exact Hk).
  pose proof (equals_sign_some _ _ Hk) as (Hk12 & Hklen & Hktake).
  rewrite length_drop in Hklen.
  pose proof (span_le_length is_letter code) as Hnlen. rewrite Hn in Hnlen.
  remember (drop (n + k) code) as r eqn:Hr.
  assert (String.length r = String.length code - (n + k))%nat as Hrlen
    by (subst r; apply length_drop).
  assert (is_name (take n code) = true) as Hletters.
  { unfold is_name. rewrite <- Hn at 1. rewrite all_letters_take_span.
    destruct n; [lia|]. destruct code; [simpl in Hnlen; lia|reflexivity]. }
  (* the name and the sign are found again in a long enough prefix *)
  assert (forall j, (1 <= j)%nat ->
             span is_letter (take (n + k + j) code) = n
             /\ Re.equals_sign (drop n (take (n + k + j) code)) = Some k
             /\ drop (n + k) (take (n + k + j) code) = take j r
             /\ take n (take (n + k + j) code) = take n code) as Hhead.
  { intros j Hj. rewrite span_take, Hn, take_take.
    replace (Nat.min n (n + k + j)) with n by lia.
    split; [reflexivity|]. split.
    - replace (n + k + j)%nat with (n + (k + j))%nat by lia.
      rewrite drop_take. apply Hktake. lia.
    - split; [|reflexivity]. now rewrite drop_take, Hr. }
  assert (forall m, Re.line r = Some m ->
             (forall c r', r = String c r' -> is_space c = true ->
                           Re.line r' = None) ->
             Re.declaration (take (n + k + m) code)
             = Some (take n code, take (m - 1) r, (n + k + m)%nat)
             /\ String.length (take (n + k + m) code) = (n + k + m)%nat
             /\ is_name (take n code) = true
             /\ has_newline (take (m - 1) r) = false
             /\ (String.length (take (m - 1) r) + 3 <= n + k + m)%nat)
    as Hplain.
  { intros m Hline Hnone.
    pose proof (line_some _ _ Hline) as (Hm & Hmspan & Hmtake).
    destruct (Hhead m) as (Hs & He & Hd & Ht); [lia|].
    split; [|split; [|split; [|split]]].
    - rewrite (declaration_eq _ n k Hs) by (lia || exact He).
      rewrite Hd, Ht.
      destruct r as [|c r']; [simpl in Hm; lia|].
      destruct m as [|m']; [lia|].
      rewrite take_S. cbv beta iota zeta. rewrite <- take_S.
      rewrite (Hmtake (S m')) by lia. rewrite take_take.
      replace (Nat.min (S m' - 1) (S m')) with (S m' - 1)%nat by lia.
      destruct (is_space c) eqn:Hc; [|reflexivity].
      rewrite line_none; [reflexivity|]. now apply (Hnone c r').
    - rewrite length_take. lia.
    - exact Hletters.
    - rewrite Hmspan. simpl. rewrite Nat.sub_0_r.
      apply has_newline_take_span.
    - rewrite length_take. lia. }
  destruct r as [|c r'] eqn:Er; [discriminate|]. cbv zeta.
  destruct (is_space c) eqn:Hc.
  - destruct (Re.line r') as [m|] eqn:Hline'.
    + intros [= <- <- <-].
      pose proof (line_some _ _ Hline') as (Hm & Hmspan & Hmtake).
      simpl in Hrlen.
      replace (n + k + 1 + m)%nat with (n + k + S m)%nat by lia.
      destruct (Hhead (S m)) as (Hs & He & Hd & Ht); [lia|].
      split; [|split; [|split; [|split]]].
      * rewrite (declaration_eq _ n k Hs) by (lia || exact He).
        rewrite Hd, Ht.
        rewrite take_S. cbv beta iota zeta. rewrite Hc, (Hmtake m) by lia.
        rewrite take_take.
        replace (Nat.min (m - 1) m) with (m - 1)%nat by lia.
        replace (n + k + 1 + m)%nat with (n + k + S m)%nat by lia.
        reflexivity.
      * rewrite length_take. lia.
      * exact Hletters.
      * rewrite Hmspan. simpl. rewrite Nat.sub_0_r.
        apply has_newline_take_span.
      * rewrite length_take. lia.
    + destruct (Re.line (String c r')) as [m|] eqn:Hline; [|discriminate].
      intros [= <- <- <-]. apply (Hplain m eq_refl).
      now intros c0 r0 [= <- <-] _.
  - destruct (Re.line (String c r')) as [m|] eqn:Hline; [|discriminate].
    intros [= <- <- <-]. apply (Hplain m eq_refl).
    intros c0 r0 [= <- <-] Hc0. congruence.
Qed.

(** The pattern of a quoted text on the text it has matched. *)
Lemma quoted_matched (code text : string) (total : nat) :
  Re.quoted code = Some (text, total) ->
  Re.quoted (take total code) = Some (text, total)
  /\ String.length (take total code) = total
  /\ text <> EmptyString.
Proof.
  destruct code as [|q rest]; [discriminate|]. unfold Re.quoted at 1.
  destruct (is_quote q) eqn:Hq; [|discriminate].
  destruct (span (fun c => negb (is_quote c)) rest) as [|m0] eqn:Hspan;
    [discriminate|].
  destruct (drop (S m0) rest) as [|c r] eqn:Hdrop; [discriminate|].
  intros [= <- <-].
  pose proof (span_le_length (fun c => negb (is_quote c)) rest) as Hlen.
  rewrite Hspan in Hlen.
  assert (S (S m0) <= String.length rest)%nat as Hlen'.
  { pose proof (length_drop (S m0) rest) as Hd. rewrite Hdrop in Hd.
    simpl in Hd. lia. }
  split; [|split].
  - rewrite take_S. unfold Re.quoted. rewrite Hq, span_take, Hspan.
    replace (Nat.min (S m0) (S (S m0))) with (S m0) by lia.
    replace (S (S m0)) with (S m0 + 1)%nat at 1 by lia.
    rewrite drop_take, Hdrop, take_take.
    replace (Nat.min (S m0) (S (S m0))) with (S m0) by lia.
    reflexivity.
  - rewrite length_take. simpl String.length. lia.
  - destruct rest; [simpl in Hlen'; lia|]. discriminate.
Qed.

Lemma prefix_length (p s : string) :
  String.prefix p s = true -> (String.length p <= String.length s)%nat.
Proof.
  revert s; induction p as [|a p IH]; intros [|b s]; simpl; try discriminate;
    try lia.
  destruct (ascii_dec a b); [|discriminate]. intros Hp.
  specialize (IH _ Hp). lia.
Qed.

Lemma take_all (n : nat) (s : string) :
  (String.length s <= n)%nat -> take n s = s.
Proof.
  revert s; induction n as [|n IH]; intros [|c s]; simpl; auto; try lia.
  intros Hn. f_equal. apply IH. lia.
Qed.

Lemma drop_all (n : nat) (s : string) :
  (String.length s <= n)%nat -> drop n s = EmptyString.
Proof.
  revert s; induction n as [|n IH]; intros [|c s]; simpl; auto; try lia.
  intros Hn. apply IH. lia.
Qed.

(** A text that is its own run of letters and is followed by no word
    character: what the pattern of [end] asks of the text [end]. *)
Lemma end_matches (code : string) :
  take (span is_letter code) code = "end" ->
  Re.at_word (drop (span is_letter code) code) = false ->
  Re.end_ code = Some 3%nat.
Proof.
  intros Htake Hword. unfold Re.end_, starts_with.
  assert (span is_letter code = 3)%nat as Hspan.
  { pose proof (length_take (span is_letter code) code) as Hl.
    pose proof (span_le_length is_letter code) as Hle.
    rewrite Htake in Hl. simpl in Hl. lia. }
  rewrite Hspan in *.
  assert (String.prefix "end" code = true) as ->.
  { rewrite <- Htake.
    rewrite <- (take_drop 3 code) at 2. apply prefix_append. }
  now rewrite Hword.
Qed.

(** Every token the table of patterns gives is well formed for its
    type. *)
Lemma first_match_well_lexed (code : string) (t : Token) (rest : string) :
  first_match TOKENS code = Some (t, rest) -> well_lexed t.
Proof.
  unfold TOKENS. cbn [first_match].
  destruct (Re.def_ code) as [n|] eqn:Hdef.
  { intros [= <- _]. unfold Re.def_ in Hdef.
    destruct (starts_with "def " code) eqn:Hp; [|discriminate].
    destruct (Re.at_word (drop 4 code)); [|discriminate].
    injection Hdef as <-. unfold well_lexed. cbn [type value].
    now apply (prefix_take "def "). }
  destruct (Re.end_ code) as [n|] eqn:Hend.
  { intros [= <- _]. unfold Re.end_ in Hend.
    destruct (starts_with "end" code) eqn:Hp; [|discriminate].
    destruct (Re.at_word (drop 3 code)); [discriminate|].
    injection Hend as <-. unfold well_lexed. cbn [type value].
    now apply (prefix_take "end"). }
  unfold Re.variable_declaration.
  destruct (Re.declaration code) as [[[target expression] n]|] eqn:Hdecl.
  { intros [= <- _]. unfold well_lexed. cbn [type value].
    destruct (declaration_matched _ _ _ _ Hdecl) as (H1 & H2 & H3 & H4 & H5).
    exists target, expression. rewrite H2. auto. }
  destruct (Re.identifier code) as [n|] eqn:Hid.
  { intros [= <- _]. unfold well_lexed. cbn [type value].
    unfold Re.identifier in Hid.
    destruct (span is_letter code) as [|n0] eqn:Hspan; [discriminate|].
    destruct (Re.at_word (drop (S n0) code)) eqn:Hword; [discriminate|].
    injection Hid as <-. split.
    - unfold is_name. rewrite <- Hspan at 1. rewrite all_letters_take_span.
      destruct code; [discriminate|reflexivity].
    - intros Heq. rewrite <- Hspan in Heq, Hword.
      rewrite (end_matches code Heq Hword) in Hend. discriminate. }
  destruct (Re.integer code) as [n|] eqn:Hint.
  { intros [= <- _]. unfold well_lexed. cbn [type value].
    unfold Re.integer in Hint.
    destruct (span is_digit code) as [|n0] eqn:Hspan; [discriminate|].
    injection Hint as <-. split.
    - destruct code; [discriminate|]. discriminate.
    - rewrite <- Hspan. apply all_digits_take_span. }
  unfold Re.string_.
  destruct (Re.quoted code) as [[text n]|] eqn:Hq.
  { intros [= <- _]. unfold well_lexed. cbn [type value].
    destruct (quoted_matched _ _ _ Hq) as (H1 & H2 & H3).
    exists text. rewrite H2. auto. }
  unfold Re.literal.
  repeat match goal with
         | |- context [Re.char_is ?c code] =>
             let H := fresh "Hc" in
             destruct (Re.char_is c code) eqn:H;
             [ intros [= <- _]; apply char_is_eq in H as [r ->];
               reflexivity | ]
         end.
  discriminate.
Qed.

Lemma tokenize_loop_well_lexed (fuel : nat) (code : string)
    (acc tokens : list Token) :
  Forall well_lexed acc ->
  tokenize_loop fuel code acc = Ok tokens ->
  Forall well_lexed tokens.
Proof.
  revert code acc. induction fuel as [|fuel IH]; intros code acc Hacc.
  - destruct code; simpl; [now intros [= <-]|discriminate].
  - destruct code as [|c code']; [now intros [= <-]|].
    cbn [tokenize_loop]. unfold tokenize_next.
    destruct (first_match TOKENS (String c code')) as [[t rest]|] eqn:Hm;
      [|discriminate].
    cbn [bind]. apply IH. apply Forall_app; split; [exact Hacc|].
    apply Forall_cons_2; [|apply Forall_nil_2].
    exact (first_match_well_lexed _ _ _ Hm).
Qed.

(** X1. Every token of a tokenized source is well formed for its type. *)
Theorem tokenize_code_well_lexed (source : string) (tokens : list Token) :
  tokenize_code source = Ok tokens -> Forall well_lexed tokens.
Proof.
  unfold tokenize_code. apply tokenize_loop_well_lexed. apply Forall_nil_2.
Qed.

End WellLexed.

Section TokenizerEdges.

Import Text.

Lemma lstrip_drop (s : string) : exists j, lstrip s = drop j s.
Proof.
  induction s as [|c s [j IH]]; [now exists 0%nat|]. simpl.
  destruct (is_space c); [now exists (S j) | now exists 0%nat].
Qed.

Lemma lstrip_lstrip (s : string) : lstrip (lstrip s) = lstrip s.
Proof.
  induction s as [|c s IH]; [reflexivity|]. simpl.
  destruct (is_space c) eqn:Hc; [exact IH|]. simpl. now rewrite Hc.
Qed.

Lemma lstrip_all_space (s : string) :
  all_space s = true <-> lstrip s = EmptyString.
Proof.
  induction s as [|c s IH]; [easy|]. simpl.
  destruct (is_space c); simpl; [exact IH|]. split; discriminate.
Qed.

Lemma lstrip_gap (gap s : string) :
  all_space gap = true -> lstrip (String.append gap s) = lstrip s.
Proof.
  induction gap as [|c gap IH]; [reflexivity|]. rewrite append_cons. simpl.
  destruct (is_space c); [exact IH | discriminate].
Qed.

Lemma first_match_drop table code token code' :
  first_match table code = Some (token, code') -> exists n, code' = drop n code.
Proof.
  induction table as [|[token_type token_re] table IH]; simpl; [discriminate|].
  destruct (token_re code) as [n|]; [|exact IH].
  intros [= <- <-]. now exists n.
Qed.

(** Where the loop of the tokenizer fails: at a piece of the code it was
    given that starts with no whitespace and with no token. *)
Lemma tokenize_loop_failure fuel code acc e :
  tokenize_loop fuel code acc = Raise e ->
  lstrip code = code ->
  exists k rest,
    e = NoValidTokens rest /\ rest = drop k code /\ rest <> EmptyString
    /\ lstrip rest = rest /\ first_match TOKENS rest = None.
Proof.
  revert code acc. induction fuel as [|fuel IH]; intros code acc.
  - destruct code; discriminate.
  - destruct code as [|c code']; [discriminate|].
    cbn [tokenize_loop]. unfold tokenize_next.
    destruct (first_match TOKENS (String c code')) as [[t rest]|] eqn:Hm.
    + cbn [bind]. intros Hloop _.
      destruct (IH _ _ Hloop (lstrip_lstrip rest))
        as (k & rest' & He & Hrest & Hne & Hstrip & Hnone).
      destruct (first_match_drop _ _ _ _ Hm) as [n Hn].
      destruct (lstrip_drop rest) as [j Hj].
      exists (n + (j + k))%nat, rest'. repeat split; auto.
      now rewrite Hrest, Hj, Hn, !drop_drop.
    + cbn [bind]. intros [= <-] Hstrip.
      exists 0%nat, (String c code'). repeat split; auto; discriminate.
Qed.

(** Where the tokenizer fails: at a piece of the source that starts
    with no whitespace and with no token. *)
Lemma tokenize_code_raises (source : string) (e : exception) :
  tokenize_code source = Raise e ->
  exists k rest,
    e = NoValidTokens rest /\ rest = drop k source /\ rest <> EmptyString
    /\ lstrip rest = rest /\ first_match TOKENS rest = None.
Proof.
  unfold tokenize_code. intros Hcode.
  destruct (tokenize_loop_failure _ _ _ _ Hcode (lstrip_lstrip source))
    as (k & rest & -> & Hrest & Hne & Hstrip & Hnone).
  destruct (lstrip_drop source) as [j Hj].
  exists (j + k)%nat, rest. repeat split; auto.
  now rewrite Hrest, Hj, drop_drop.
Qed.

(** X2. The tokenizer always comes to an end, and it fails in one way only:
    on a piece of the source that starts with no whitespace and that no
    pattern of the table matches. *)
Theorem tokenize_code_outcome (source : string) :
  (exists tokens, tokenize_code source = Ok tokens)
  \/ (exists k rest,
        tokenize_code source = Raise (NoValidTokens rest)
        /\ rest = drop k source /\ rest <> EmptyString
        /\ lstrip rest = rest /\ first_match TOKENS rest = None).
Proof.
  destruct (tokenize_code source) as [tokens|e|] eqn:Hcode.
  - left. now exists tokens.
  - right.
    destruct (tokenize_code_raises source e Hcode)
      as (k & rest & -> & Hrest).
    now exists k, rest.
  - now destruct (tokenize_code_total source).
Qed.

(** X3. The sources without any token are the sources of whitespace. *)
Theorem tokenize_code_empty (source : string) :
  tokenize_code source = Ok [] <-> all_space source = true.
Proof.
  unfold tokenize_code. split.
  - intros Hloop.
    apply tokenize_loop_interleaved in Hloop as (new_tokens & Hnew & Hinter).
    destruct new_tokens; [|discriminate].
    assert (all_space (lstrip source) = true) as Hgap
      by now inversion Hinter.
    apply lstrip_all_space. rewrite <- lstrip_lstrip.
    now apply lstrip_all_space.
  - intros Hspace. apply lstrip_all_space in Hspace. now rewrite Hspace.
Qed.

(** X4. Whitespace in front of a source does not change its tokens. *)
Theorem tokenize_code_leading_space (gap source : string) :
  all_space gap = true ->
  tokenize_code (String.append gap source) = tokenize_code source.
Proof.
  intros Hgap. unfold tokenize_code. now rewrite (lstrip_gap _ _ Hgap).
Qed.

Lemma has_newline_drop (n : nat) (s : string) :
  has_newline (drop n s) = true -> has_newline s = true.
Proof.
  revert s; induction n as [|n IH]; intros [|c s]; simpl; auto.
  intros Hn. rewrite (IH _ Hn). apply orb_true_r.
Qed.

Lemma has_newline_lstrip (s : string) :
  has_newline (lstrip s) = true -> has_newline s = true.
Proof.
  destruct (lstrip_drop s) as [j ->]. apply has_newline_drop.
Qed.

Lemma line_has_newline (s : string) (m : nat) :
  Re.line s = Some m -> has_newline s = true.
Proof.
  unfold Re.line.
  destruct (span (fun c => negb (is_newline c)) s) as [|m0]; [discriminate|].
  destruct (Re.char_is LF (drop (S m0) s)) eqn:Hc; [|discriminate].
  intros _. apply (has_newline_drop (S m0)).
  apply char_is_eq in Hc as [r ->]. reflexivity.
Qed.

Lemma declaration_has_newline code target expression n :
  Re.declaration code = Some (target, expression, n) ->
  has_newline code = true.
Proof.
  unfold Re.declaration.
  destruct (span is_letter code) as [|k]; [discriminate|].
  destruct (Re.equals_sign _) as [j|]; [|discriminate].
  destruct (drop (S k + j) code) as [|c r'] eqn:Hdrop; [discriminate|].
  assert (forall m, Re.line (String c r') = Some m -> has_newline code = true)
    as Hplain.
  { intros m Hm. apply (has_newline_drop (S k + j)). rewrite Hdrop.
    exact (line_has_newline _ _ Hm). }
  assert (forall m, Re.line r' = Some m -> has_newline code = true) as Hskip.
  { intros m Hm. apply (has_newline_drop (S k + j)). rewrite Hdrop. simpl.
    rewrite (line_has_newline _ _ Hm). apply orb_true_r. }
  destruct (is_space c).
  - destruct (Re.line r') as [m|] eqn:Hline'; [intros _; now apply (Hskip m)|].
    destruct (Re.line (String c r')) as [m|] eqn:Hline; [|discriminate].
    intros _. now apply (Hplain m).
  - destruct (Re.line (String c r')) as [m|] eqn:Hline; [|discriminate].
    intros _. now apply (Hplain m).
Qed.

(** A token of a declaration comes from a code with a line feed. *)
Lemma first_match_declaration (code : string) (t : Token) (rest : string) :
  first_match TOKENS code = Some (t, rest) ->
  type t = VARIABLE_DECLARATION -> has_newline code = true.
Proof.
  unfold TOKENS. cbn [first_match].
  destruct (Re.def_ code); [now intros [= <- _]|].
  destruct (Re.end_ code); [now intros [= <- _]|].
  unfold Re.variable_declaration.
  destruct (Re.declaration code) as [[[target expression] n]|] eqn:Hdecl.
  { intros _ _. exact (declaration_has_newline _ _ _ _ Hdecl). }
  destruct (Re.identifier code); [now intros [= <- _]|].
  destruct (Re.integer code); [now intros [= <- _]|].
  destruct (Re.string_ code); [now intros [= <- _]|].
  repeat match goal with
         | |- context [Re.literal ?c code] =>
             destruct (Re.literal c code); [now intros [= <- _]|]
         end.
  discriminate.
Qed.

Lemma tokenize_loop_one_line fuel code acc tokens :
  has_newline code = false ->
  existsb is_declaration acc = false ->
  tokenize_loop fuel code acc = Ok tokens ->
  existsb is_declaration tokens = false.
Proof.
  revert code acc. induction fuel as [|fuel IH]; intros code acc Hcode Hacc.
  - destruct code; simpl; [now intros [= <-]|discriminate].
  - destruct code as [|c code']; [now intros [= <-]|].
    cbn [tokenize_loop]. unfold tokenize_next.
    destruct (first_match TOKENS (String c code')) as [[t rest]|] eqn:Hm;
      [|discriminate].
    cbn [bind]. apply IH.
    + destruct (has_newline (lstrip rest)) eqn:Hrest; [|reflexivity].
      apply has_newline_lstrip in Hrest.
      destruct (first_match_drop _ _ _ _ Hm) as [n ->].
      apply has_newline_drop in Hrest. congruence.
    + rewrite existsb_app, Hacc. simpl. rewrite orb_false_r.
      unfold is_declaration. apply bool_decide_eq_false. intros Ht.
      pose proof (first_match_declaration _ _ _ Hm Ht). congruence.
Qed.

Lemma lstrip_one_line (s : string) :
  has_newline s = false -> has_newline (lstrip s) = false.
Proof.
  intros Hs. destruct (has_newline (lstrip s)) eqn:H; [|reflexivity].
  apply has_newline_lstrip in H. congruence.
Qed.

(** X5. A text without a line feed gives no token of a declaration: the
    right hand side of an assignment is never an assignment. *)
Theorem tokenize_code_one_line (source : string) (tokens : list Token) :
  has_newline source = false ->
  tokenize_code source = Ok tokens ->
  existsb is_declaration tokens = false.
Proof.
  intros Hsource. unfold tokenize_code.
  apply tokenize_loop_one_line; [|reflexivity].
  now apply lstrip_one_line.
Qed.

End TokenizerEdges.

(* ===================================================================== *)
(** * The parser on the tokens of the tokenizer *)
(* ===================================================================== *)

Section ParserEquations.

Lemma parse_expr_loop_S fuel function_call n start_len items tokens :
  parse_expr_loop (S fuel) function_call n start_len items tokens
  = let* (item, tokens1) :=
      parse_item (parse_call fuel) (parse_variable_declaration fuel) tokens in
    let items1 := items ++ [item] in
    if (start_len - len tokens1 =? n) || finished function_call tokens1
    then let* result := expr_result items1 in Ok (result, tokens1)
    else parse_expr_loop fuel function_call n start_len items1 tokens1.
Proof. reflexivity. Qed.

Lemma parse_call_S fuel tokens :
  parse_call (S fuel) tokens
  = let* (token, tokens1) := consume tokens IDENTIFIER in
    let* (_, tokens2) := consume tokens1 OPEN_PAREN in
    let* (argument_expressions, tokens3) :=
      parse_argument_expressions_loop fuel [] tokens2 in
    let* (_, tokens4) := consume tokens3 CLOSE_PAREN in
    Ok (CallNode (value token) argument_expressions, tokens4).
Proof. reflexivity. Qed.

Lemma parse_argument_expressions_loop_S fuel expressions tokens :
  parse_argument_expressions_loop (S fuel) expressions tokens
  = if peek tokens CLOSE_PAREN 0 then Ok (expressions, tokens)
    else
      let* (expression, tokens1) :=
        parse_expr_loop fuel true (-1) (len tokens) [] tokens in
      parse_argument_commas_loop fuel (expressions ++ [expression]) tokens1.
Proof. reflexivity. Qed.

Lemma parse_argument_commas_loop_S fuel expressions tokens :
  parse_argument_commas_loop (S fuel) expressions tokens
  = if peek tokens COMMA 0 then
      let* (_, tokens1) := consume tokens COMMA in
      let* (expression, tokens2) :=
        parse_expr_loop fuel true (-1) (len tokens1) [] tokens1 in
      parse_argument_commas_loop fuel (expressions ++ [expression]) tokens2
    else parse_argument_expressions_loop fuel expressions tokens.
Proof. reflexivity. Qed.

Lemma parse_variable_declaration_S fuel tokens :
  parse_variable_declaration (S fuel) tokens
  = let* (token, tokens1) := consume tokens VARIABLE_DECLARATION in
    match Re.declaration (value token) with
    | None => Raise AttributeError
    | Some (target, expression, _) =>
        let* new_tokens := tokenize_code expression in
        let tokens2 := new_tokens ++ tokens1 in
        let* (body, tokens3) :=
          parse_expr_loop fuel false (len new_tokens) (len tokens2) []
            tokens2 in
        Ok (VariableDeclarationNode target body, tokens3)
    end.
Proof. reflexivity. Qed.

(** What [consume] gives: the head of the tokens, of the type asked
    for; or one of its two exceptions. *)
Lemma consume_inv tokens expected_type :
  match consume tokens expected_type with
  | Ok (token, rest) => tokens = token :: rest /\ type token = expected_type
  | Raise e =>
      (tokens = [] /\ e = IndexError)
      \/ (exists token rest,
            tokens = token :: rest /\ type token <> expected_type
            /\ e = LookingForType expected_type (type token))
  | OutOfFuel => False
  end.
Proof.
  destruct tokens as [|token rest]; simpl; [now left|].
  destruct (decide (type token = expected_type)) as [Heq|Hne].
  - rewrite bool_decide_eq_false_2 by (intros Hne; now apply Hne). auto.
  - rewrite bool_decide_eq_true_2 by exact Hne. right. now exists token, rest.
Qed.

End ParserEquations.

Section ParserInvariant.

Lemma returns_bind {A B : Type} (P : A -> Prop) (Q : B -> Prop)
    (m : outcome A) (k : A -> outcome B) :
  returns P m -> (forall a, P a -> returns Q (k a)) -> returns Q (bind m k).
Proof. destruct m as [a|e|]; simpl; auto. Qed.

Lemma returns_weaken {A : Type} (P Q : A -> Prop) (r : outcome A) :
  returns P r -> (forall a, P a -> Q a) -> returns Q r.
Proof. destruct r as [a|e|]; simpl; auto. Qed.

Lemma consume_lexed tokens expected_type :
  Forall well_lexed tokens ->
  returns (lexed_head expected_type) (consume tokens expected_type).
Proof.
  intros Htokens. pose proof (consume_inv tokens expected_type) as Hc.
  destruct (consume tokens expected_type) as [[token rest]|e|]; simpl; auto.
  - destruct Hc as [-> Htype]. apply Forall_cons in Htokens as [Ht Hrest].
    now repeat split.
  - destruct Hc as [[_ ->]|(token & rest & _ & _ & ->)]; reflexivity.
Qed.

Lemma digits_value_nonneg (s : string) (acc : Z) :
  all_digits s = true -> 0 <= acc -> 0 <= digits_value acc s.
Proof.
  revert acc; induction s as [|c s IH]; intros acc; simpl; [auto|].
  intros Hd Hacc. apply andb_true_iff in Hd as [Hc Hs].
  apply IH; [exact Hs|].
  unfold digit_value. unfold Text.is_digit, Text.between in Hc.
  apply andb_true_iff in Hc as [Hlo _]. apply N.leb_le in Hlo. lia.
Qed.

Lemma is_name_intro (s : string) :
  s <> EmptyString -> all_letters s = true -> is_name s = true.
Proof.
  intros Hne Hl. unfold is_name. rewrite Hl. simpl.
  destruct s; [contradiction|reflexivity].
Qed.

Lemma not_empty (s : string) :
  s <> EmptyString -> negb (String.eqb s EmptyString) = true.
Proof. destruct s; [contradiction|reflexivity]. Qed.

Lemma digit_plain (c : ascii) :
  Text.is_digit c = true ->
  is_int_space c = false /\ Ascii.eqb c "_" = false
  /\ Ascii.eqb c "-" = false /\ Ascii.eqb c "+" = false.
Proof.
  destruct c as [[] [] [] [] [] [] [] []]; vm_compute; intros Hc;
    try discriminate Hc; repeat split.
Qed.

Lemma int_digits_all_digits (s : string) (after_digit : bool) :
  all_digits s = true -> s <> EmptyString \/ after_digit = true ->
  int_digits after_digit s = Some s.
Proof.
  revert after_digit. induction s as [|c s IH]; intros after_digit Hd Hs.
  - destruct Hs as [Hs| ->]; [contradiction|reflexivity].
  - simpl in Hd. apply andb_true_iff in Hd as [Hc Hd].
    cbn [int_digits]. rewrite Hc, (IH true Hd) by now right. reflexivity.
Qed.

(** [int] on a run of digits: its value, up to [max_str_digits]
    digits. *)
Lemma int_of_string_digits (s : string) :
  all_digits s = true -> s <> EmptyString ->
  int_of_string s
  = if max_str_digits <? Z.of_nat (String.length s) then Raise ValueError
    else Ok (digits_value 0 s).
Proof.
  intros Hd Hne. unfold int_of_string.
  destruct s as [|c s]; [contradiction|].
  pose proof Hd as Hc. simpl in Hc. apply andb_true_iff in Hc as [Hc _].
  destruct (digit_plain c Hc) as (Hspace & _ & Hminus & Hplus).
  cbn [skip_int_space]. rewrite Hspace, Hminus, Hplus.
  now rewrite (int_digits_all_digits _ false Hd) by now left.
Qed.

(** A number of more digits than [int] takes stops the parser. *)
Lemma parse_integer_over_limit (digits : string) (more : list Token) :
  all_digits digits = true ->
  max_str_digits < Z.of_nat (String.length digits) ->
  parse_integer (mkToken INTEGER digits :: more) = Raise ValueError.
Proof.
  intros Hd Hlen. unfold parse_integer.
  rewrite (consume_head _ _ INTEGER) by reflexivity. cbn [bind value].
  rewrite int_of_string_digits; [|exact Hd|].
  - apply Z.ltb_lt in Hlen. now rewrite Hlen.
  - intros ->. simpl in Hlen. unfold max_str_digits in Hlen. lia.
Qed.

Lemma int_of_string_settles (s : string) : ran_out (int_of_string s) = false.
Proof.
  unfold int_of_string.
  destruct (skip_int_space s) as [|c rest]; [reflexivity|].
  destruct (Ascii.eqb c "-"); [|destruct (Ascii.eqb c "+")];
    (destruct (int_digits false _); [|reflexivity]);
    now destruct (_ <? _).
Qed.

Lemma parse_integer_sound tokens :
  Forall well_lexed tokens -> returns sound_item (parse_integer tokens).
Proof.
  intros Htokens. unfold parse_integer.
  eapply returns_bind; [exact (consume_lexed _ INTEGER Htokens)|].
  intros [token rest] (Ht & Htype & Hrest). simpl in *.
  unfold well_lexed in Ht. rewrite Htype in Ht. destruct Ht as [Hne Hd].
  rewrite (int_of_string_digits _ Hd Hne).
  destruct (_ <? _); [reflexivity|]. simpl. repeat split; auto. simpl.
  apply Z.leb_le. apply digits_value_nonneg; [exact Hd|lia].
Qed.

Lemma parse_string_sound tokens :
  Forall well_lexed tokens -> returns sound_item (parse_string tokens).
Proof.
  intros Htokens. unfold parse_string.
  eapply returns_bind; [exact (consume_lexed _ STRING Htokens)|].
  intros [token rest] (Ht & Htype & Hrest). simpl in *.
  unfold well_lexed in Ht. rewrite Htype in Ht.
  destruct Ht as (text & -> & Hne). simpl. repeat split; auto.
  simpl. now apply not_empty.
Qed.

Lemma parse_variable_reference_sound tokens :
  Forall well_lexed tokens ->
  returns sound_item (parse_variable_reference tokens).
Proof.
  intros Htokens. unfold parse_variable_reference.
  eapply returns_bind; [exact (consume_lexed _ IDENTIFIER Htokens)|].
  intros [token rest] (Ht & Htype & Hrest). simpl in *.
  unfold well_lexed in Ht. rewrite Htype in Ht.
  destruct Ht as (Hname & _). now repeat split.
Qed.

Lemma parse_operator_sound tokens :
  Forall well_lexed tokens -> is_operator_next tokens = true ->
  returns sound_item (parse_operator tokens).
Proof.
  intros Htokens Hnext. unfold parse_operator.
  unfold is_operator_next in Hnext. simpl in Hnext.
  repeat match goal with
         | |- returns _ (if ?c then _ else _) =>
             let H := fresh "Hp" in destruct c eqn:H
         end;
    try (eapply returns_bind; [exact (consume_lexed _ _ Htokens)|];
         intros [token rest] (Ht & Htype & Hrest); now repeat split).
  simpl in Hnext. discriminate.
Qed.

Lemma expr_result_sound items item :
  forallb (fun item => negb (is_list item) && sound item) items = true ->
  sound item = true -> is_list item = false ->
  returns (fun e => sound e = true) (expr_result (items ++ [item])).
Proof.
  intros Hitems Hs Hl.
  assert (forallb (fun item => negb (is_list item) && sound item)
            (items ++ [item]) = true) as Hall.
  { rewrite forallb_app, Hitems. simpl. now rewrite Hl, Hs. }
  destruct items as [|x [|y items]]; simpl; auto.
Qed.

Lemma tokenize_code_lexed source :
  returns (Forall well_lexed) (tokenize_code source).
Proof.
  destruct (tokenize_code source) as [tokens|e|] eqn:Ht; simpl; [| |exact I].
  - unfold tokenize_code in Ht.
    exact (tokenize_loop_well_lexed _ _ _ _ (Forall_nil_2 _) Ht).
  - now destruct (tokenize_code_raises source e Ht) as (k & rest & -> & _).
Qed.

(** The five parsers that call each other keep the tokens well formed
    and build sound nodes. *)
Lemma parser_sound (fuel : nat) :
  (forall function_call n start_len items tokens,
      Forall well_lexed tokens ->
      forallb (fun item => negb (is_list item) && sound item) items = true ->
      returns sound_expr
        (parse_expr_loop fuel function_call n start_len items tokens))
  /\ (forall tokens,
        Forall well_lexed tokens -> returns sound_item (parse_call fuel tokens))
  /\ (forall expressions tokens,
        Forall well_lexed tokens -> forallb sound expressions = true ->
        returns sound_exprs
          (parse_argument_expressions_loop fuel expressions tokens))
  /\ (forall expressions tokens,
        Forall well_lexed tokens -> forallb sound expressions = true ->
        returns sound_exprs
          (parse_argument_commas_loop fuel expressions tokens))
  /\ (forall tokens,
        Forall well_lexed tokens ->
        returns sound_item (parse_variable_declaration fuel tokens)).
Proof.
  induction fuel as [|fuel (IHexpr & IHcall & IHargs & IHcommas & IHdecl)].
  { repeat split; intros; exact I. }
  assert (forall tokens, Forall well_lexed tokens ->
            returns sound_item
              (parse_item (parse_call fuel) (parse_variable_declaration fuel)
                 tokens)) as Hitem.
  { intros tokens Htokens. unfold parse_item.
    destruct (peek tokens INTEGER 0); [now apply parse_integer_sound|].
    destruct (peek tokens STRING 0); [now apply parse_string_sound|].
    destruct (is_operator_next tokens) eqn:Hop;
      [now apply parse_operator_sound|].
    destruct (_ && _); [now apply IHcall|].
    destruct (peek tokens VARIABLE_DECLARATION 0); [now apply IHdecl|].
    destruct (peek tokens IDENTIFIER 0);
      [now apply parse_variable_reference_sound|].
    now destruct tokens. }
  repeat split.
  - intros function_call n start_len items tokens Htokens Hitems.
    rewrite parse_expr_loop_S.
    eapply returns_bind; [exact (Hitem _ Htokens)|].
    intros [item tokens1] (Hs & Hl & Htokens1). simpl in Hs, Hl, Htokens1.
    cbv zeta. destruct (_ || _).
    + eapply returns_bind; [exact (expr_result_sound _ _ Hitems Hs Hl)|].
      intros e He. now split.
    + apply IHexpr; [exact Htokens1|].
      rewrite forallb_app, Hitems. simpl. now rewrite Hl, Hs.
  - intros tokens Htokens. rewrite parse_call_S.
    eapply returns_bind; [exact (consume_lexed _ _ Htokens)|].
    intros [token tokens1] (Ht & Htype & Htokens1). simpl in *.
    eapply returns_bind; [exact (consume_lexed _ _ Htokens1)|].
    intros [t2 tokens2] (_ & _ & Htokens2). simpl in *.
    eapply returns_bind; [exact (IHargs [] _ Htokens2 eq_refl)|].
    intros [args tokens3] (Hargs & Htokens3). simpl in *.
    eapply returns_bind; [exact (consume_lexed _ _ Htokens3)|].
    intros [t4 tokens4] (_ & _ & Htokens4). simpl in *.
    repeat split; auto. simpl. rewrite Hargs, andb_true_r.
    unfold well_lexed in Ht. rewrite Htype in Ht.
    now destruct Ht as (-> & _).
  - intros expressions tokens Htokens Hexprs.
    rewrite parse_argument_expressions_loop_S.
    destruct (peek tokens CLOSE_PAREN 0); [now split|].
    eapply returns_bind; [exact (IHexpr _ _ _ [] _ Htokens eq_refl)|].
    intros [e tokens1] (He & Htokens1). simpl in *.
    apply IHcommas; [exact Htokens1|].
    rewrite forallb_app, Hexprs. simpl. now rewrite He.
  - intros expressions tokens Htokens Hexprs.
    rewrite parse_argument_commas_loop_S.
    destruct (peek tokens COMMA 0); [|now apply IHargs].
    eapply returns_bind; [exact (consume_lexed _ _ Htokens)|].
    intros [t1 tokens1] (_ & _ & Htokens1). simpl in *.
    eapply returns_bind; [exact (IHexpr _ _ _ [] _ Htokens1 eq_refl)|].
    intros [e tokens2] (He & Htokens2). simpl in *.
    apply IHcommas; [exact Htokens2|].
    rewrite forallb_app, Hexprs. simpl. now rewrite He.
  - intros tokens Htokens. rewrite parse_variable_declaration_S.
    eapply returns_bind; [exact (consume_lexed _ _ Htokens)|].
    intros [token tokens1] (Ht & Htype & Htokens1). simpl in *.
    unfold well_lexed in Ht. rewrite Htype in Ht.
    destruct Ht as (target & expression & -> & Hletters & _ & Hlen).
    eapply returns_bind; [exact (tokenize_code_lexed expression)|].
    intros new_tokens Hnew. cbv zeta.
    assert (Forall well_lexed (new_tokens ++ tokens1)) as Htokens2
      by (apply Forall_app; now split).
    eapply returns_bind; [exact (IHexpr _ _ _ [] _ Htokens2 eq_refl)|].
    intros [body tokens3] (Hbody & Htokens3). simpl in *.
    repeat split; auto. simpl. now rewrite Hbody, Hletters.
Qed.

End ParserInvariant.

Section ParserResults.

Lemma parse_argument_names_loop_sound fuel arg_names tokens :
  Forall well_lexed tokens -> forallb is_name arg_names = true ->
  returns sound_names (parse_argument_names_loop fuel arg_names tokens).
Proof.
  revert arg_names tokens.
  induction fuel as [|fuel IH]; intros arg_names tokens Htokens Hnames;
    simpl; (destruct (peek tokens COMMA 0); [|now split]); [exact I|].
  eapply returns_bind; [exact (consume_lexed _ _ Htokens)|].
  intros [t1 tokens1] (_ & _ & Htokens1). simpl in *.
  eapply returns_bind; [exact (consume_lexed _ _ Htokens1)|].
  intros [token tokens2] (Ht & Htype & Htokens2). simpl in *.
  apply IH; [exact Htokens2|]. rewrite forallb_app, Hnames. simpl.
  unfold well_lexed in Ht. rewrite Htype in Ht. now destruct Ht as [-> _].
Qed.

Lemma parse_argument_names_sound tokens :
  Forall well_lexed tokens ->
  returns sound_names (parse_argument_names tokens).
Proof.
  intros Htokens. unfold parse_argument_names.
  eapply returns_bind; [exact (consume_lexed _ _ Htokens)|].
  intros [t1 tokens1] (_ & _ & Htokens1). simpl in *.
  eapply (returns_bind sound_names).
  - destruct (peek tokens1 IDENTIFIER 0); [|now split].
    eapply returns_bind; [exact (consume_lexed _ _ Htokens1)|].
    intros [token tokens2] (Ht & Htype & Htokens2). simpl in *.
    apply parse_argument_names_loop_sound; [exact Htokens2|]. simpl.
    unfold well_lexed in Ht. rewrite Htype in Ht. now destruct Ht as [-> _].
  - intros [names tokens2] (Hnames & Htokens2). simpl in *.
    eapply returns_bind; [exact (consume_lexed _ _ Htokens2)|].
    intros [t3 tokens3] (_ & _ & Htokens3). simpl in *. now split.
Qed.

Lemma parse_definition_sound fuel tokens :
  Forall well_lexed tokens ->
  returns sound_parsed_definition (parse_definition fuel tokens).
Proof.
  intros Htokens. unfold parse_definition.
  eapply returns_bind; [exact (consume_lexed _ _ Htokens)|].
  intros [t1 tokens1] (_ & _ & Htokens1). simpl in *.
  eapply returns_bind; [exact (consume_lexed _ _ Htokens1)|].
  intros [token tokens2] (Ht & Htype & Htokens2). simpl in *.
  eapply returns_bind; [exact (parse_argument_names_sound _ Htokens2)|].
  intros [names tokens3] (Hnames & Htokens3). simpl in *.
  eapply returns_bind.
  { unfold parse_expr.
    exact (proj1 (parser_sound fuel) _ _ _ [] _ Htokens3 eq_refl). }
  intros [body tokens4] (Hbody & Htokens4). simpl in *.
  eapply returns_bind; [exact (consume_lexed _ _ Htokens4)|].
  intros [t5 tokens5] (_ & _ & Htokens5). simpl in *.
  split; [|exact Htokens5]. unfold sound_definition. simpl.
  rewrite Hnames, Hbody, !andb_true_r.
  unfold well_lexed in Ht. rewrite Htype in Ht. now destruct Ht as [-> _].
Qed.

Lemma parse_loop_sound fuel definitions tokens :
  Forall well_lexed tokens ->
  forallb sound_definition definitions = true ->
  returns (fun ast => forallb sound_definition ast = true)
    (parse_loop fuel definitions tokens).
Proof.
  revert definitions tokens.
  induction fuel as [|fuel IH]; intros definitions tokens Htokens Hdefs;
    simpl; (destruct (peek tokens DEF 0); [|exact Hdefs]); [exact I|].
  eapply returns_bind; [exact (parse_definition_sound fuel _ Htokens)|].
  intros [d tokens1] (Hd & Htokens1). simpl in *.
  apply IH; [exact Htokens1|]. rewrite forallb_app, Hdefs. simpl.
  now rewrite Hd.
Qed.

(** X6. The definitions parsed from the tokens of a source are sound: no
    empty text, no negative number, names of letters, lists of two items
    or more without a list among them. *)
Theorem parse_tokenized_sound (source : string) (tokens : list Token)
    (fuel : nat) (ast : list DefinitionNode) :
  tokenize_code source = Ok tokens ->
  parse fuel tokens = Ok ast ->
  forallb sound_definition ast = true.
Proof.
  intros Ht Hp. unfold tokenize_code in Ht.
  pose proof (tokenize_loop_well_lexed _ _ _ _ (Forall_nil_2 _) Ht) as Hl.
  pose proof (parse_loop_sound fuel [] tokens Hl eq_refl) as Hr.
  unfold parse in Hp. now rewrite Hp in Hr.
Qed.

(** X7. On the tokens of a source the parser raises its own exceptions
    only: the patterns it applies to a text or a declaration always
    match, and [parse_operator] always finds its operator. *)
Theorem parse_tokenized_raises (source : string) (tokens : list Token)
    (fuel : nat) (e : exception) :
  tokenize_code source = Ok tokens ->
  parse fuel tokens = Raise e ->
  parser_exception e = true.
Proof.
  intros Ht Hp. unfold tokenize_code in Ht.
  pose proof (tokenize_loop_well_lexed _ _ _ _ (Forall_nil_2 _) Ht) as Hl.
  pose proof (parse_loop_sound fuel [] tokens Hl eq_refl) as Hr.
  unfold parse in Hp. now rewrite Hp in Hr.
Qed.

End ParserResults.

Section ParserTermination.

Import Text.

Lemma settles_bind {A B : Type} (P : A -> Prop) (Q : B -> Prop)
    (m : outcome A) (k : A -> outcome B) :
  settles P m -> (forall a, P a -> settles Q (k a)) -> settles Q (bind m k).
Proof. destruct m as [a|e|]; simpl; auto. Qed.

Lemma settles_weaken {A : Type} (P Q : A -> Prop) (r : outcome A) :
  settles P r -> (forall a, P a -> Q a) -> settles Q r.
Proof. destruct r as [a|e|]; simpl; auto. Qed.

Lemma settles_ran_out {A : Type} (P : A -> Prop) (r : outcome A) :
  settles P r -> ran_out r = false.
Proof. now destruct r. Qed.

Lemma weight_pos (t : Token) : (1 <= weight t)%nat.
Proof. unfold weight. destruct (type t); lia. Qed.

Lemma measure_cons (t : Token) (tokens : list Token) :
  measure (t :: tokens) = (weight t + measure tokens)%nat.
Proof. reflexivity. Qed.

Lemma measure_app (a b : list Token) :
  measure (a ++ b) = (measure a + measure b)%nat.
Proof.
  induction a as [|t a IH]; [reflexivity|].
  rewrite <- app_comm_cons, !measure_cons, IH. lia.
Qed.

Lemma measure_plain (tokens : list Token) :
  existsb is_declaration tokens = false -> measure tokens = length tokens.
Proof.
  induction tokens as [|t tokens IH]; [reflexivity|].
  intros Hd. simpl in Hd. apply orb_false_iff in Hd as [Ht Hd].
  rewrite measure_cons, (IH Hd). unfold is_declaration in Ht.
  apply bool_decide_eq_false in Ht. unfold weight. simpl length.
  destruct (type t); try reflexivity. now destruct Ht.
Qed.

Lemma consume_settles tokens expected_type :
  settles (popped tokens) (consume tokens expected_type).
Proof.
  pose proof (consume_inv tokens expected_type) as Hc.
  destruct (consume tokens expected_type) as [[token rest]|e|]; simpl; auto.
  now destruct Hc.
Qed.

(** The tokenizer gives no more tokens than the source has
    characters. *)
Lemma tokenize_loop_length fuel code acc tokens :
  tokenize_loop fuel code acc = Ok tokens ->
  (length tokens <= length acc + String.length code)%nat.
Proof.
  revert code acc. induction fuel as [|fuel IH]; intros code acc.
  - destruct code; simpl; [|discriminate]. intros [= <-]. lia.
  - destruct code as [|c code']; [intros [= <-]; lia|].
    cbn [tokenize_loop]. unfold tokenize_next.
    destruct (first_match TOKENS (String c code')) as [[t rest]|] eqn:Hm;
      [|discriminate].
    cbn [bind]. intros Hloop. apply IH in Hloop.
    rewrite length_app in Hloop. simpl in Hloop.
    pose proof (length_lstrip rest) as Hstrip.
    destruct (first_match_shrinks _ _ _ _ TOKENS_productive Hm)
      as [Hlt|Hempty]; [|discriminate].
    lia.
Qed.

Lemma tokenize_code_length source tokens :
  tokenize_code source = Ok tokens ->
  (length tokens <= String.length source)%nat.
Proof.
  unfold tokenize_code. intros Hloop. apply tokenize_loop_length in Hloop.
  pose proof (length_lstrip source). simpl in Hloop. lia.
Qed.

(** The tokens of the right hand side of a declaration weigh less than
    the declaration. *)
Lemma declaration_tokens_measure token target expression n new_tokens :
  type token = VARIABLE_DECLARATION ->
  Re.declaration (value token) = Some (target, expression, n) ->
  tokenize_code expression = Ok new_tokens ->
  (measure new_tokens + 4 <= weight token)%nat.
Proof.
  intros Htype Hdecl Hnew.
  destruct (declaration_matched _ _ _ _ Hdecl) as (_ & Hn & _ & Hline & Hlen).
  assert (existsb is_declaration new_tokens = false) as Hplain.
  { exact (tokenize_loop_one_line _ _ [] _ (lstrip_one_line _ Hline)
             eq_refl Hnew). }
  rewrite (measure_plain _ Hplain).
  apply tokenize_code_length in Hnew.
  rewrite length_take in Hn. unfold weight. rewrite Htype. lia.
Qed.

Lemma popped_measure tokens token rest :
  popped tokens (token, rest) ->
  measure tokens = (weight token + measure rest)%nat.
Proof. unfold popped. simpl. now intros ->. Qed.

Lemma parse_integer_settles tokens :
  settles (lighter tokens) (parse_integer tokens).
Proof.
  unfold parse_integer, lighter.
  eapply settles_bind; [exact (consume_settles tokens _)|].
  intros [token tokens1] Hpop. apply popped_measure in Hpop.
  pose proof (weight_pos token).
  pose proof (int_of_string_settles (value token)) as Hint.
  destruct (int_of_string (value token)); simpl; auto; [lia|discriminate].
Qed.

Lemma parse_string_settles tokens :
  settles (lighter tokens) (parse_string tokens).
Proof.
  unfold parse_string, lighter.
  eapply settles_bind; [exact (consume_settles tokens _)|].
  intros [token tokens1] Hpop. apply popped_measure in Hpop.
  pose proof (weight_pos token).
  destruct (Re.quoted (value token)) as [[text k]|]; simpl; auto. lia.
Qed.

Lemma parse_variable_reference_settles tokens :
  settles (lighter tokens) (parse_variable_reference tokens).
Proof.
  unfold parse_variable_reference, lighter.
  eapply settles_bind; [exact (consume_settles tokens _)|].
  intros [token tokens1] Hpop. apply popped_measure in Hpop.
  pose proof (weight_pos token). simpl. lia.
Qed.

Lemma parse_operator_settles tokens :
  settles (lighter tokens) (parse_operator tokens).
Proof.
  unfold parse_operator.
  repeat match goal with
         | |- settles _ (if ?c then _ else _) => destruct c
         end; try exact I;
    (eapply settles_bind; [exact (consume_settles tokens _)|];
     intros [token tokens1] Hpop; apply popped_measure in Hpop;
     pose proof (weight_pos token); unfold lighter; simpl; lia).
Qed.

(** Fuel that is enough for each of the five parsers that call each
    other; the tokens left weigh less than the tokens taken. *)
Lemma parser_settles (fuel : nat) :
  (forall function_call n start_len items tokens,
      (2 * measure tokens + 2 <= fuel)%nat ->
      settles (lighter tokens)
        (parse_expr_loop fuel function_call n start_len items tokens))
  /\ (forall tokens,
        (2 * measure tokens + 1 <= fuel)%nat ->
        settles (lighter tokens) (parse_call fuel tokens))
  /\ (forall expressions tokens,
        (2 * measure tokens + 3 <= fuel)%nat ->
        settles (not_heavier tokens)
          (parse_argument_expressions_loop fuel expressions tokens))
  /\ (forall expressions tokens,
        (2 * measure tokens + 4 <= fuel)%nat ->
        settles (not_heavier tokens)
          (parse_argument_commas_loop fuel expressions tokens))
  /\ (forall tokens,
        (2 * measure tokens + 1 <= fuel)%nat ->
        settles (lighter tokens) (parse_variable_declaration fuel tokens)).
Proof.
  induction fuel as [|fuel (IHexpr & IHcall & IHargs & IHcommas & IHdecl)].
  { repeat split; intros; lia. }
  assert (forall tokens, (2 * measure tokens + 1 <= fuel)%nat ->
            settles (lighter tokens)
              (parse_item (parse_call fuel) (parse_variable_declaration fuel)
                 tokens)) as Hitem.
  { intros tokens Hfuel. unfold parse_item.
    destruct (peek tokens INTEGER 0); [apply parse_integer_settles|].
    destruct (peek tokens STRING 0); [apply parse_string_settles|].
    destruct (is_operator_next tokens); [apply parse_operator_settles|].
    destruct (_ && _); [now apply IHcall|].
    destruct (peek tokens VARIABLE_DECLARATION 0); [now apply IHdecl|].
    destruct (peek tokens IDENTIFIER 0);
      [apply parse_variable_reference_settles|].
    now destruct tokens. }
  unfold lighter, not_heavier in *. repeat split.
  - intros function_call n start_len items tokens Hfuel.
    rewrite parse_expr_loop_S.
    eapply settles_bind; [apply Hitem; lia|].
    intros [item tokens1] Hlt. simpl in Hlt. cbv zeta.
    destruct (_ || _).
    + unfold expr_result.
      destruct (items ++ [item]) as [|x [|y l]]; simpl; auto.
    + eapply settles_weaken.
      * apply IHexpr. lia.
      * intros [e tokens2] Hlt2. simpl in *. lia.
  - intros tokens Hfuel. rewrite parse_call_S.
    eapply settles_bind; [exact (consume_settles tokens _)|].
    intros [token tokens1] Hpop1. apply popped_measure in Hpop1.
    eapply settles_bind; [exact (consume_settles tokens1 _)|].
    intros [t2 tokens2] Hpop2. apply popped_measure in Hpop2.
    pose proof (weight_pos token). pose proof (weight_pos t2).
    eapply settles_bind; [apply (IHargs [] tokens2); lia|].
    intros [args tokens3] Hle. simpl in Hle.
    eapply settles_bind; [exact (consume_settles tokens3 _)|].
    intros [t4 tokens4] Hpop4. apply popped_measure in Hpop4.
    simpl. lia.
  - intros expressions tokens Hfuel.
    rewrite parse_argument_expressions_loop_S.
    destruct (peek tokens CLOSE_PAREN 0); [simpl; lia|].
    eapply settles_bind; [apply IHexpr; lia|].
    intros [e tokens1] Hlt. simpl in Hlt.
    eapply settles_weaken.
    + apply IHcommas. lia.
    + intros [es tokens2] Hle. simpl in *. lia.
  - intros expressions tokens Hfuel.
    rewrite parse_argument_commas_loop_S.
    destruct (peek tokens COMMA 0); [|apply IHargs; lia].
    eapply settles_bind; [exact (consume_settles tokens _)|].
    intros [t1 tokens1] Hpop1. apply popped_measure in Hpop1.
    pose proof (weight_pos t1).
    eapply settles_bind; [apply IHexpr; lia|].
    intros [e tokens2] Hlt. simpl in Hlt.
    eapply settles_weaken.
    + apply IHcommas. lia.
    + intros [es tokens3] Hle. simpl in *. lia.
  - intros tokens Hfuel. rewrite parse_variable_declaration_S.
    pose proof (consume_inv tokens VARIABLE_DECLARATION) as Hc.
    destruct (consume tokens VARIABLE_DECLARATION) as [[token tokens1]|e|];
      simpl; auto.
    destruct Hc as [-> Htype]. rewrite measure_cons in *.
    destruct (Re.declaration (value token))
      as [[[target expression] n]|] eqn:Hdecl; [|exact I].
    destruct (tokenize_code expression) as [new_tokens|e|] eqn:Hnew;
      simpl; auto.
    2:{ now destruct (tokenize_code_total expression). }
    pose proof (declaration_tokens_measure _ _ _ _ _ Htype Hdecl Hnew) as Hw.
    pose proof (measure_app new_tokens tokens1) as Happ.
    eapply settles_bind; [apply IHexpr; lia|].
    intros [body tokens3] Hlt. simpl in *. lia.
Qed.

Lemma parse_argument_names_loop_settles fuel arg_names tokens :
  (length tokens <= fuel)%nat ->
  settles (fun r => exists k, snd r = skipn k tokens)
    (parse_argument_names_loop fuel arg_names tokens).
Proof.
  revert arg_names tokens.
  induction fuel as [|fuel IH]; intros arg_names tokens Hfuel; simpl.
  - destruct tokens; [|simpl in Hfuel; lia]. simpl. now exists 0%nat.
  - destruct (peek tokens COMMA 0); [|now exists 0%nat].
    eapply settles_bind; [exact (consume_settles tokens _)|].
    intros [t1 tokens1] Hpop1. unfold popped in Hpop1. simpl in Hpop1.
    eapply settles_bind; [exact (consume_settles tokens1 _)|].
    intros [t2 tokens2] Hpop2. unfold popped in Hpop2. simpl in Hpop2.
    subst. simpl in Hfuel.
    eapply settles_weaken.
    + apply IH. lia.
    + intros [names tokens3] [k Hk]. simpl in *. exists (S (S k)).
      exact Hk.
Qed.

Lemma measure_skipn (k : nat) (tokens : list Token) :
  (measure (skipn k tokens) <= measure tokens)%nat.
Proof.
  revert tokens; induction k as [|k IH]; intros [|t tokens];
    try (simpl; lia).
  rewrite measure_cons. simpl skipn. specialize (IH tokens). lia.
Qed.

Lemma parse_argument_names_settles tokens :
  settles (not_heavier tokens) (parse_argument_names tokens).
Proof.
  unfold parse_argument_names, not_heavier.
  eapply settles_bind; [exact (consume_settles tokens _)|].
  intros [t1 tokens1] Hpop1. apply popped_measure in Hpop1.
  eapply (settles_bind (not_heavier tokens1)).
  - unfold not_heavier. destruct (peek tokens1 IDENTIFIER 0); [|simpl; lia].
    eapply settles_bind; [exact (consume_settles tokens1 _)|].
    intros [t2 tokens2] Hpop2. apply popped_measure in Hpop2.
    eapply settles_weaken.
    + apply parse_argument_names_loop_settles. lia.
    + intros [names tokens3] [k Hk]. simpl in *. rewrite Hk.
      pose proof (measure_skipn k tokens2). lia.
  - intros [names tokens2] Hle. unfold not_heavier in Hle. simpl in Hle.
    eapply settles_bind; [exact (consume_settles tokens2 _)|].
    intros [t3 tokens3] Hpop3. apply popped_measure in Hpop3. simpl. lia.
Qed.

Lemma parse_definition_settles fuel tokens :
  (2 * measure tokens + 1 <= fuel)%nat ->
  settles (lighter tokens) (parse_definition fuel tokens).
Proof.
  intros Hfuel. unfold parse_definition, lighter.
  eapply settles_bind; [exact (consume_settles tokens _)|].
  intros [t1 tokens1] Hpop1. apply popped_measure in Hpop1.
  eapply settles_bind; [exact (consume_settles tokens1 _)|].
  intros [t2 tokens2] Hpop2. apply popped_measure in Hpop2.
  pose proof (weight_pos t1). pose proof (weight_pos t2).
  eapply settles_bind; [exact (parse_argument_names_settles tokens2)|].
  intros [names tokens3] Hle. unfold not_heavier in Hle. simpl in Hle.
  eapply settles_bind.
  { unfold parse_expr. apply (proj1 (parser_settles fuel)). lia. }
  intros [body tokens4] Hlt. unfold lighter in Hlt. simpl in Hlt.
  eapply settles_bind; [exact (consume_settles tokens4 _)|].
  intros [t5 tokens5] Hpop5. apply popped_measure in Hpop5. simpl. lia.
Qed.

Lemma parse_loop_settles fuel definitions tokens :
  (2 * measure tokens + 2 <= fuel)%nat ->
  settles (fun _ => True) (parse_loop fuel definitions tokens).
Proof.
  revert definitions tokens.
  induction fuel as [|fuel IH]; intros definitions tokens Hfuel; [lia|].
  simpl. destruct (peek tokens DEF 0); [|exact I].
  eapply settles_bind; [apply parse_definition_settles; lia|].
  intros [d tokens1] Hlt. unfold lighter in Hlt. simpl in Hlt.
  apply IH. lia.
Qed.

End ParserTermination.

Section ParserFuel.

Lemma continues_refl {A : Type} (r : outcome A) : continues r r.
Proof. now intros _. Qed.

Lemma continues_bind {A B : Type} (m m' : outcome A)
    (k k' : A -> outcome B) :
  continues m m' -> (forall a, continues (k a) (k' a)) ->
  continues (bind m k) (bind m' k').
Proof.
  unfold continues. intros Hm Hk.
  destruct m as [a|e|]; simpl; [| |discriminate].
  - rewrite Hm by reflexivity. simpl. apply Hk.
  - now rewrite Hm by reflexivity.
Qed.

Lemma continues_trans {A : Type} (r1 r2 r3 : outcome A) :
  continues r1 r2 -> continues r2 r3 -> continues r1 r3.
Proof.
  unfold continues. intros H12 H23 Hr. rewrite <- (H12 Hr).
  apply H23. now rewrite (H12 Hr).
Qed.

Ltac continue_step :=
  lazymatch goal with
  | |- continues (bind _ _) (bind _ _) =>
      apply continues_bind; [|intros [? ?]]
  | |- continues (if ?c then _ else _) (if ?c then _ else _) =>
      destruct c
  | |- continues ?r ?r => apply continues_refl
  end.

(** One unit of fuel more does not change what the five parsers
    give. *)
Lemma parser_continues (fuel : nat) :
  (forall function_call n start_len items tokens,
      continues
        (parse_expr_loop fuel function_call n start_len items tokens)
        (parse_expr_loop (S fuel) function_call n start_len items tokens))
  /\ (forall tokens,
        continues (parse_call fuel tokens) (parse_call (S fuel) tokens))
  /\ (forall expressions tokens,
        continues
          (parse_argument_expressions_loop fuel expressions tokens)
          (parse_argument_expressions_loop (S fuel) expressions tokens))
  /\ (forall expressions tokens,
        continues
          (parse_argument_commas_loop fuel expressions tokens)
          (parse_argument_commas_loop (S fuel) expressions tokens))
  /\ (forall tokens,
        continues (parse_variable_declaration fuel tokens)
          (parse_variable_declaration (S fuel) tokens)).
Proof.
  induction fuel as [|fuel (IHexpr & IHcall & IHargs & IHcommas & IHdecl)].
  { repeat split; intros; intros Hr; discriminate. }
  assert (forall tokens,
            continues
              (parse_item (parse_call fuel) (parse_variable_declaration fuel)
                 tokens)
              (parse_item (parse_call (S fuel))
                 (parse_variable_declaration (S fuel)) tokens)) as Hitem.
  { intros tokens. unfold parse_item.
    repeat first [apply IHcall | apply IHdecl | continue_step]. }
  repeat split.
  - intros function_call n start_len items tokens.
    rewrite (parse_expr_loop_S (S fuel)), (parse_expr_loop_S fuel).
    apply continues_bind; [apply Hitem|]. intros [item tokens1]. cbv zeta.
    destruct (_ || _); [apply continues_refl | apply IHexpr].
  - intros tokens. rewrite (parse_call_S (S fuel)), (parse_call_S fuel).
    apply continues_bind; [apply continues_refl|]. intros [token tokens1].
    apply continues_bind; [apply continues_refl|]. intros [t2 tokens2].
    apply continues_bind; [apply IHargs|]. intros [args tokens3].
    apply continues_refl.
  - intros expressions tokens.
    rewrite (parse_argument_expressions_loop_S (S fuel)),
      (parse_argument_expressions_loop_S fuel).
    destruct (peek tokens CLOSE_PAREN 0); [apply continues_refl|].
    apply continues_bind; [apply IHexpr|]. intros [e tokens1].
    apply IHcommas.
  - intros expressions tokens.
    rewrite (parse_argument_commas_loop_S (S fuel)),
      (parse_argument_commas_loop_S fuel).
    destruct (peek tokens COMMA 0); [|apply IHargs].
    apply continues_bind; [apply continues_refl|]. intros [t1 tokens1].
    apply continues_bind; [apply IHexpr|]. intros [e tokens2].
    apply IHcommas.
  - intros tokens.
    rewrite (parse_variable_declaration_S (S fuel)),
      (parse_variable_declaration_S fuel).
    apply continues_bind; [apply continues_refl|]. intros [token tokens1].
    destruct (Re.declaration (value token)) as [[[target expression] n]|];
      [|apply continues_refl].
    apply continues_bind; [apply continues_refl|]. intros new_tokens.
    cbv zeta. apply continues_bind; [apply IHexpr|]. intros [body tokens3].
    apply continues_refl.
Qed.

Lemma parse_definition_continues fuel tokens :
  continues (parse_definition fuel tokens) (parse_definition (S fuel) tokens).
Proof.
  unfold parse_definition.
  apply continues_bind; [apply continues_refl|]. intros [t1 tokens1].
  apply continues_bind; [apply continues_refl|]. intros [t2 tokens2].
  apply continues_bind; [apply continues_refl|]. intros [names tokens3].
  apply continues_bind; [apply (proj1 (parser_continues fuel))|].
  intros [body tokens4]. apply continues_refl.
Qed.

Lemma parse_loop_continues fuel definitions tokens :
  continues (parse_loop fuel definitions tokens)
    (parse_loop (S fuel) definitions tokens).
Proof.
  revert definitions tokens.
  induction fuel as [|fuel IH]; intros definitions tokens.
  - simpl. destruct (peek tokens DEF 0); [intros Hr; discriminate|].
    apply continues_refl.
  - change (parse_loop (S (S fuel)) definitions tokens)
      with (if peek tokens DEF 0 then
              let* (definition, tokens1) := parse_definition (S fuel) tokens in
              parse_loop (S fuel) (definitions ++ [definition]) tokens1
            else Ok definitions).
    change (parse_loop (S fuel) definitions tokens)
      with (if peek tokens DEF 0 then
              let* (definition, tokens1) := parse_definition fuel tokens in
              parse_loop fuel (definitions ++ [definition]) tokens1
            else Ok definitions).
    destruct (peek tokens DEF 0); [|apply continues_refl].
    apply continues_bind; [apply parse_definition_continues|].
    intros [d tokens1]. apply IH.
Qed.

Lemma parse_loop_more fuel extra definitions tokens :
  continues (parse_loop fuel definitions tokens)
    (parse_loop (fuel + extra) definitions tokens).
Proof.
  induction extra as [|extra IH].
  - rewrite Nat.add_0_r. apply continues_refl.
  - rewrite Nat.add_succ_r. eapply continues_trans; [exact IH|].
    apply parse_loop_continues.
Qed.

(** X8. The parser is a function of the tokens: with [parse_fuel tokens] it
    returns or raises, and with more fuel it gives the same. *)
Theorem parse_total (tokens : list Token) (extra : nat) :
  ran_out (parse (parse_fuel tokens) tokens) = false
  /\ parse (parse_fuel tokens + extra) tokens
     = parse (parse_fuel tokens) tokens.
Proof.
  assert (ran_out (parse (parse_fuel tokens) tokens) = false) as Hr.
  { apply (settles_ran_out (fun _ => True)). apply parse_loop_settles.
    unfold parse_fuel. lia. }
  split; [exact Hr|]. now apply parse_loop_more.
Qed.

End ParserFuel.

Section ArgumentNames.

Lemma names_tokens_cons (n : string) (rest : list string) :
  names_tokens (n :: rest) = mkToken IDENTIFIER n :: more_names_tokens rest.
Proof. now destruct rest. Qed.

Lemma parse_argument_names_loop_names names arg_names rest fuel :
  (2 * length names <= fuel)%nat ->
  parse_argument_names_loop fuel arg_names
    (more_names_tokens names ++ mkToken CLOSE_PAREN ")" :: rest)
  = Ok (arg_names ++ names, mkToken CLOSE_PAREN ")" :: rest).
Proof.
  revert arg_names fuel.
  induction names as [|n names IH]; intros arg_names fuel Hfuel.
  - rewrite app_nil_r. now destruct fuel.
  - destruct fuel as [|fuel]; [simpl in Hfuel; lia|].
    unfold more_names_tokens. rewrite names_tokens_cons.
    cbn [app parse_argument_names_loop]. unfold peek. cbn [lookup].
    simpl. rewrite IH by (simpl in Hfuel; lia).
    now rewrite <- app_assoc.
Qed.

Lemma length_more_names_tokens (names : list string) :
  length (more_names_tokens names) = (2 * length names)%nat.
Proof.
  induction names as [|n names IH]; [reflexivity|].
  unfold more_names_tokens in *. rewrite names_tokens_cons.
  destruct names; simpl in *; lia.
Qed.

Lemma parse_argument_names_written (names : list string)
    (rest : list Token) :
  parse_argument_names
    (mkToken OPEN_PAREN "(" :: names_tokens names
       ++ mkToken CLOSE_PAREN ")" :: rest)
  = Ok (names, rest).
Proof.
  unfold parse_argument_names. destruct names as [|n names]; [reflexivity|].
  rewrite names_tokens_cons. simpl.
  rewrite parse_argument_names_loop_names; [reflexivity|].
  rewrite length_app, length_more_names_tokens. lia.
Qed.

(** X9. The parser of parameter names reads back the names that are written
    between the parentheses with commas between them, and leaves what
    follows the closing parenthesis. *)
Theorem parse_argument_names_round_trip (names : list string)
    (rest : list Token) :
  parse_argument_names
    (mkToken OPEN_PAREN "(" :: names_tokens names
       ++ mkToken CLOSE_PAREN ")" :: rest)
  = Ok (names, rest).
Proof. apply parse_argument_names_written. Qed.

End ArgumentNames.

(* ===================================================================== *)
(** * The interpreter, the world and the variable holders *)
(* ===================================================================== *)

Section Triples.

Context `{Host}.

Variable inv : World -> Prop.

Lemma keeps_ret {A : Type} (a : A) (Q : A -> Prop) : Q a -> keeps inv (ret a) Q.
Proof. intros Ha w Hw. now split. Qed.

Lemma keeps_lift {A : Type} (m : outcome A) (Q : A -> Prop) :
  (forall a, m = Ok a -> Q a) -> keeps inv (lift m) Q.
Proof. intros Hm w Hw. split; [exact Hw|]. simpl. destruct m; auto. Qed.

Lemma keeps_raise {A : Type} (e : exception) (Q : A -> Prop) :
  keeps inv (raise e) Q.
Proof. intros w Hw. now split. Qed.

Lemma keeps_then {A B : Type} (m : M A) (k : A -> M B)
    (P : A -> Prop) (Q : B -> Prop) :
  keeps inv m P -> (forall a, P a -> keeps inv (k a) Q) -> keeps inv (then_ m k) Q.
Proof.
  intros Hm Hk w Hw. unfold then_. destruct (Hm w Hw) as [Hw' Ha].
  destruct (m w) as [[a|e|] w']; simpl in *; auto.
  now apply Hk.
Qed.

Lemma keeps_weaken {A : Type} (m : M A) (P Q : A -> Prop) :
  keeps inv m P -> (forall a, P a -> Q a) -> keeps inv m Q.
Proof.
  intros Hm HPQ w Hw. destruct (Hm w Hw) as [Hw' Ha]. split; [exact Hw'|].
  destruct (fst (m w)); auto.
Qed.

Hypothesis host_keeps :
  forall callee function args w,
    builtins callee = Some function -> inv w -> inv (snd (function args w)).

Lemma keeps_call_host callee function args :
  builtins callee = Some function ->
  keeps inv (call_host function args) (fun _ => True).
Proof.
  intros Hb w Hw. unfold call_host.
  pose proof (host_keeps callee function args w Hb Hw) as Hw'.
  destruct (function args w) as [[v|msg] w']; now split.
Qed.

Lemma keeps_execute_each (exec : node -> scope -> M (pyval * scope))
    exprs variables :
  (forall expr vars,
      keeps inv (exec expr vars) (fun r => dom vars ⊆ dom (snd r))) ->
  keeps inv (execute_each exec exprs variables)
    (fun r => dom variables ⊆ dom (snd r)).
Proof.
  intros Hexec. revert variables.
  induction exprs as [|expr exprs IH]; intros variables; simpl.
  - now apply keeps_ret.
  - eapply keeps_then; [apply Hexec|]. intros [v variables1] H1.
    eapply keeps_then; [apply IH|]. intros [vs variables2] H2.
    apply keeps_ret. simpl in *. set_solver.
Qed.

Lemma keeps_execute_lines (exec : node -> scope -> M (pyval * scope))
    lines variables :
  (forall expr vars, keeps inv (exec expr vars) (fun _ => True)) ->
  keeps inv (execute_lines exec lines variables) (fun _ => True).
Proof.
  intros Hexec. revert variables.
  induction lines as [|item lines IH]; intros variables; simpl.
  - now apply keeps_ret.
  - destruct lines as [|item' lines].
    + eapply keeps_then; [apply Hexec|]. intros [v variables1] _.
      now apply keeps_ret.
    + eapply keeps_then; [apply Hexec|]. intros [v variables1] _.
      apply IH.
Qed.

Lemma keeps_run_body (exec : node -> scope -> M (pyval * scope))
    body variables :
  (forall expr vars, keeps inv (exec expr vars) (fun _ => True)) ->
  keeps inv (run_body exec body variables) (fun _ => True).
Proof.
  intros Hexec.
  destruct body; simpl;
    try (eapply keeps_then; [apply Hexec|]; intros [? ?] _;
         now apply keeps_ret).
  now apply keeps_execute_lines.
Qed.

Variable functions : function_table.

Lemma dom_insert_grows (variables : scope) (target : string) (v : pyval) :
  dom variables ⊆ dom (<[target := v]> variables).
Proof. rewrite dom_insert. set_solver. Qed.

(** The evaluation keeps every invariant of the world that the
    callables of the host keep, and it unbinds no name. *)
Lemma evaluation_keeps fuel :
  (forall item variables,
      keeps inv (execute_item functions fuel item variables)
        (fun r => dom variables ⊆ dom (snd r)))
  /\ (forall callee args,
        keeps inv (call_function functions fuel callee args) (fun _ => True)).
Proof.
  induction fuel as [|fuel [IHitem IHcall]].
  { split; intros; intros w Hw; now split. }
  assert (forall exprs variables,
            keeps inv (execute_each (execute_item functions fuel) exprs variables)
              (fun r => dom variables ⊆ dom (snd r))) as Heach.
  { intros. now apply keeps_execute_each. }
  split.
  - intros item variables.
    destruct item as [v|v|v|v|callee arg_exprs|target expression|items];
      cbn [execute_item call_function].
    + eapply (keeps_then _ _ (fun _ => True)); [now apply keeps_lift|]. intros x _.
      destruct (Py.truthy x); [now apply keeps_ret | apply keeps_raise].
    + eapply (keeps_then _ _ (fun _ => True)); [now apply keeps_lift|]. intros x _.
      destruct (Py.truthy x); [now apply keeps_ret | apply keeps_raise].
    + eapply (keeps_then _ _ (fun _ => True)); [now apply keeps_lift|]. intros x _.
      now apply keeps_ret.
    + eapply (keeps_then _ _ (fun _ => True)); [now apply keeps_lift|]. intros x _.
      destruct (Py.truthy x); [now apply keeps_ret | apply keeps_raise].
    + destruct (functions !! callee) as [function|].
      * case_bool_decide; [apply keeps_raise|].
        eapply keeps_then; [apply Heach|]. intros [args variables1] H1.
        eapply keeps_then; [apply IHcall|]. intros result _.
        now apply keeps_ret.
      * destruct (builtins callee) as [function|] eqn:Hb;
          [|apply keeps_raise].
        eapply keeps_then; [apply Heach|]. intros [args variables1] H1.
        eapply keeps_then; [exact (keeps_call_host _ _ _ Hb)|].
        intros result _. now apply keeps_ret.
    + destruct expression as [v|v|v|v|callee arg_exprs|t e|l];
        try (eapply (keeps_then _ _ (fun _ => True)); [now apply keeps_lift|];
             intros x _;
             apply keeps_ret; apply dom_insert_grows).
      * eapply keeps_then; [apply Heach|]. intros [args variables1] H1.
        eapply keeps_then; [apply IHcall|]. intros result _.
        apply keeps_ret. simpl in *.
        pose proof (dom_insert_grows variables1 target result). set_solver.
      * eapply (keeps_then _ _ (fun _ => True)); [now apply keeps_lift|]. intros [|] _.
        -- eapply (keeps_then _ _ (fun _ => True)); [now apply keeps_lift|]. intros x _.
           apply keeps_ret. apply dom_insert_grows.
        -- now apply keeps_ret.
    + eapply (keeps_then _ _ (fun _ => True)); [now apply keeps_lift|]. intros [|] _.
      * eapply (keeps_then _ _ (fun _ => True)); [now apply keeps_lift|]. intros x _.
        now apply keeps_ret.
      * now apply keeps_ret.
  - intros callee args. cbn [execute_item call_function].
    destruct (functions !! callee) as [function|]; [|apply keeps_raise].
    case_bool_decide; [apply keeps_raise|].
    eapply (keeps_then _ _ (fun _ => True)); [now apply keeps_lift|]. intros function_variables _.
    apply keeps_run_body. intros expr vars.
    eapply keeps_weaken; [apply IHitem|]. auto.
Qed.

End Triples.

Section WorldAndScope.

Context `{Host}.

(** X10. The interpreter acts on the world through the callables of the host
    only: an invariant of the world that they keep is kept by the
    evaluation of every item and by the whole script. *)
Theorem host_invariant_kept (inv : World -> Prop) :
  (forall callee function args w,
      builtins callee = Some function -> inv w ->
      inv (snd (function args w))) ->
  (forall functions fuel item variables w,
      inv w -> inv (snd (execute_item functions fuel item variables w)))
  /\ (forall fuel contents w,
        inv w -> inv (snd (run_source fuel contents w))).
Proof.
  intros Hhost. split.
  - intros functions fuel item variables w Hw.
    exact (proj1 (proj1 (evaluation_keeps inv Hhost functions fuel)
                    item variables w Hw)).
  - intros fuel contents w Hw. unfold run_source, then_, lift.
    destruct (tokenize_code contents) as [tokens|e|]; [|exact Hw|exact Hw].
    destruct (parse fuel tokens) as [ast|e|]; [|exact Hw|exact Hw].
    unfold begin_execution.
    destruct (register_definitions ast !! "main") as [main|]; [|exact Hw].
    destruct (0 <? length (arguments main))%nat; [exact Hw|].
    pose proof (proj2 (evaluation_keeps inv Hhost (register_definitions ast)
                         fuel) "main" [] w Hw) as [Hw' _].
    unfold then_.
    destruct (call_function (register_definitions ast) fuel "main" [] w)
      as [[v|e|] w']; exact Hw'.
Qed.

(** X11. The evaluation of an item unbinds no name: the names bound before
    are bound after. *)
Theorem scope_never_shrinks (functions : function_table) (fuel : nat)
    (item : node) (variables variables' : scope) (v : pyval) (w w' : World) :
  execute_item functions fuel item variables w = (Ok (v, variables'), w') ->
  dom variables ⊆ dom variables'.
Proof.
  intros Hrun.
  pose proof (proj1 (evaluation_keeps (fun _ => True) (fun _ _ _ _ _ _ => I)
                       functions fuel) item variables w I) as [_ Hr].
  now rewrite Hrun in Hr.
Qed.

Lemma frame_execute_each (exec : node -> scope -> M (pyval * scope))
    exprs variables :
  (forall expr vars,
      In expr exprs ->
      keeps (fun _ => True) (exec expr vars) (fun r => snd r = vars)) ->
  keeps (fun _ => True) (execute_each exec exprs variables)
    (fun r => snd r = variables).
Proof.
  revert variables.
  induction exprs as [|expr exprs IH]; intros variables Hexec; simpl.
  - now apply keeps_ret.
  - eapply keeps_then; [apply Hexec; now left|]. intros [v variables1] H1.
    simpl in H1. subst variables1.
    eapply keeps_then; [apply IH; intros; apply Hexec; now right|].
    intros [vs variables2] H2. now apply keeps_ret.
Qed.

(** An item that comes to no assignment leaves the variable holder as
    it was. *)
Lemma frame_keeps (functions : function_table) (fuel : nat) :
  forall item variables,
    assigns item = false ->
    keeps (fun _ => True) (execute_item functions fuel item variables)
      (fun r => snd r = variables).
Proof.
  induction fuel as [|fuel IH]; intros item variables Hitem.
  { intros w _. now split. }
  assert (forall exprs vars,
            existsb assigns exprs = false ->
            keeps (fun _ => True)
              (execute_each (execute_item functions fuel) exprs vars)
              (fun r => snd r = vars)) as Heach.
  { intros exprs vars Hexprs. apply frame_execute_each.
    intros expr vars' Hin. apply IH.
    destruct (assigns expr) eqn:Ha; [|reflexivity].
    assert (existsb assigns exprs = true) as Hex
      by (apply existsb_exists; eauto).
    congruence. }
  destruct item as [v|v|v|v|callee arg_exprs|target expression|items];
    cbn [execute_item call_function]; simpl in Hitem; try discriminate.
  - eapply (keeps_then _ _ _ (fun _ => True)); [now apply keeps_lift|].
    intros x _.
    destruct (Py.truthy x); [now apply keeps_ret | apply keeps_raise].
  - eapply (keeps_then _ _ _ (fun _ => True)); [now apply keeps_lift|].
    intros x _.
    destruct (Py.truthy x); [now apply keeps_ret | apply keeps_raise].
  - eapply (keeps_then _ _ _ (fun _ => True)); [now apply keeps_lift|].
    intros x _. now apply keeps_ret.
  - eapply (keeps_then _ _ _ (fun _ => True)); [now apply keeps_lift|].
    intros x _.
    destruct (Py.truthy x); [now apply keeps_ret | apply keeps_raise].
  - destruct (functions !! callee) as [function|].
    + case_bool_decide; [apply keeps_raise|].
      eapply keeps_then; [now apply Heach|]. intros [args variables1] H1.
      eapply (keeps_then _ _ _ (fun _ => True)).
      * intros w _. split; [exact I|]. now destruct (fst _).
      * intros result _. now apply keeps_ret.
    + destruct (builtins callee) as [function|] eqn:Hb;
        [|apply keeps_raise].
      eapply keeps_then; [now apply Heach|]. intros [args variables1] H1.
      eapply (keeps_then _ _ _ (fun _ => True)).
      * intros w _. split; [exact I|]. now destruct (fst _).
      * intros result _. now apply keeps_ret.
  - eapply (keeps_then _ _ _ (fun _ => True)); [now apply keeps_lift|].
    intros [|] _.
    + eapply (keeps_then _ _ _ (fun _ => True)); [now apply keeps_lift|].
      intros x _. now apply keeps_ret.
    + now apply keeps_ret.
Qed.

(** X12. An item without an assignment, also among the arguments of its
    calls, leaves the variable holder as it was. *)
Theorem no_assignment_no_change (functions : function_table) (fuel : nat)
    (item : node) (variables variables' : scope) (v : pyval) (w w' : World) :
  assigns item = false ->
  execute_item functions fuel item variables w = (Ok (v, variables'), w') ->
  variables' = variables.
Proof.
  intros Hitem Hrun.
  pose proof (frame_keeps functions fuel item variables Hitem w I) as [_ Hr].
  now rewrite Hrun in Hr.
Qed.

End WorldAndScope.

Section InterpreterEquations.

Context `{Host}.
Variable functions : function_table.

Lemma execute_item_call_S (fuel : nat) (callee : string)
    (arg_exprs : list node) (variables : scope) :
  execute_item functions (S fuel) (CallNode callee arg_exprs) variables
  = match functions !! callee with
    | None =>
        match builtins callee with
        | Some function =>
            then_ (execute_each (execute_item functions fuel) arg_exprs
                     variables)
              (fun '(args, variables1) =>
                 then_ (call_host function args)
                   (fun result => ret (result, variables1)))
        | None => raise (CouldNotFindFunction callee)
        end
    | Some function =>
        if bool_decide (length (arguments function) ≠ length arg_exprs)
        then raise (TakesArgumentsInsteadOf callee (arguments function)
                      (length arg_exprs))
        else
          then_ (execute_each (execute_item functions fuel) arg_exprs
                   variables)
            (fun '(args, variables1) =>
               then_ (call_function functions fuel callee args)
                 (fun result => ret (result, variables1)))
    end.
Proof. reflexivity. Qed.

Lemma call_function_S (fuel : nat) (callee : string) (args : list pyval) :
  call_function functions (S fuel) callee args
  = match functions !! callee with
    | None => raise (FunctionDoesNotExist callee)
    | Some function =>
        if bool_decide (length args ≠ length (arguments function))
        then raise (FunctionExpects callee (length (arguments function))
                      (length args))
        else
          then_ (lift (bind_arguments (arguments function) args ∅))
            (fun function_variables =>
               run_body (execute_item functions fuel) (body function)
                 function_variables)
    end.
Proof. reflexivity. Qed.

End InterpreterEquations.

Section MoreCallFacts.

Context `{Host}.
Variable functions : function_table.

Lemma zip_lookup_elem_of (params : list string) (args : list pyval)
    (i : nat) (p : string) (v : pyval) :
  params !! i = Some p -> args !! i = Some v -> (p, v) ∈ zip params args.
Proof.
  intros Hp Hv.
  exact (elem_of_lookup_zip_with_2 pair params args p v (p, v) i Hp Hv).
Qed.

(** X14. Arguments are passed by position: a function whose body is one of
    its parameters returns the argument at the place of that
    parameter. *)
Theorem call_returns_argument (fuel : nat) (callee : string)
    (function : DefinitionNode) (args : list pyval) (i : nat) (p : string)
    (v : pyval) (w : World) :
  functions !! callee = Some function ->
  body function = VariableReferenceNode p ->
  NoDup (arguments function) ->
  length args = length (arguments function) ->
  arguments function !! i = Some p ->
  args !! i = Some v ->
  call_function functions (S (S fuel)) callee args w = (Ok v, w).
Proof.
  intros Hf Hbody Hnodup Hlen Hp Hv. rewrite call_function_S, Hf.
  rewrite bool_decide_eq_false_2 by (intros Hne; now apply Hne).
  rewrite (bind_arguments_zip _ _ ∅ Hlen), Hbody.
  unfold then_, lift, run_body. cbn [execute_item]. unfold then_, lift.
  unfold subscript. rewrite (right_id_L ∅ (∪)).
  erewrite elem_of_list_to_map_1; [reflexivity| |].
  - rewrite fmap_reverse, reverse_Permutation.
    rewrite fst_zip by lia. exact Hnodup.
  - apply elem_of_reverse. now apply (zip_lookup_elem_of _ _ i).
Qed.

(** [is_math_expression] never answers no. *)
Lemma is_math_expression_true (l : list node) (b : bool) :
  is_math_expression l = Ok b -> l = [] /\ b = true.
Proof.
  destruct l as [|first rest].
  - rewrite is_math_expression_nil. now intros [= <-].
  - now rewrite is_math_expression_cons.
Qed.

(** X15. An assignment that comes to its end has no value and has bound its
    target. *)
Theorem assignment_binds_target (fuel : nat) (target : string)
    (expression : node) (variables variables' : scope) (v : pyval)
    (w w' : World) :
  execute_item functions fuel (VariableDeclarationNode target expression)
    variables w
  = (Ok (v, variables'), w') ->
  v = PyNone /\ target ∈ dom variables'.
Proof.
  destruct fuel as [|fuel]; [discriminate|].
  destruct expression as [x|x|x|x|callee arg_exprs|t e|l].
  1-4, 6:
    cbn [execute_item]; unfold then_, lift, ret;
    (destruct (value_of _) as [x'| |]; [|discriminate|discriminate]);
    intros [= <- <- <-]; split; [reflexivity|];
    rewrite dom_insert; set_solver.
  - rewrite execute_item_declaration_call. unfold then_.
    destruct (execute_each _ _ _ _) as [[[args variables1]|e|] w1];
      [|discriminate|discriminate].
    destruct (call_function _ _ _ _ _) as [[result|e|] w2];
      [|discriminate|discriminate].
    unfold ret. intros [= <- <- <-]. split; [reflexivity|].
    rewrite dom_insert. set_solver.
  - cbn [execute_item]. unfold then_, lift.
    destruct (is_math_expression l) as [b| |] eqn:Hmath;
      [|discriminate|discriminate].
    apply is_math_expression_true in Hmath as [-> ->]. discriminate.
Qed.

End MoreCallFacts.

Section ScriptFacts.

Context `{Host}.

(** X16. The exceptions about the entry point are raised before anything
    runs: the world is as it was. *)
Theorem entry_point_error_before_run (fuel : nat)
    (ast : list DefinitionNode) (w w' : World) (e : exception) :
  begin_execution fuel ast w = (Raise e, w') ->
  entry_point_error e = true ->
  w' = w.
Proof.
  unfold begin_execution.
  destruct (register_definitions ast !! "main") as [main|];
    [|now intros [= _ <-]].
  destruct (0 <? length (arguments main))%nat; [now intros [= _ <-]|].
  unfold then_.
  destruct (call_function _ _ _ _ _) as [[v|e'|] w1] eqn:Hcall;
    [discriminate| |discriminate].
  intros [= <- <-] He.
  apply (proj2 (evaluation_raises (register_definitions ast) fuel)) in Hcall.
  now destruct e'.
Qed.

(** X17. A source whose first token is not [def] has no definition for the
    parser, whatever follows: the script ends with the exception about
    the missing entry point, and the world is as it was. *)
Theorem run_source_without_def (fuel : nat) (contents : string)
    (tokens : list Token) (w : World) :
  tokenize_code contents = Ok tokens ->
  peek tokens DEF 0 = false ->
  run_source fuel contents w = (Raise MustDeclareMain, w).
Proof.
  intros Ht Hpeek. unfold run_source, then_, lift. rewrite Ht.
  unfold parse. destruct fuel; simpl; now rewrite Hpeek.
Qed.

End ScriptFacts.

Section MathFacts.

(** X18. [execute_math], when it is called, folds from the left; a run that
    ends on an operator makes it raise when it looks for the operand. *)
Theorem execute_math_folds_left (variables : scope) (first : node)
    (steps : list (Operator * node)) (dangling : node) :
  execute_math (arithmetic_run first steps) variables
  = (let* accumulator := operand first variables in
     left_fold variables accumulator steps)
  /\ execute_math (arithmetic_run first steps ++ [dangling]) variables
     = (let* accumulator := operand first variables in
        let* _ := left_fold variables accumulator steps in
        Raise IndexError).
Proof.
  split; [apply execute_math_left_fold|].
  unfold arithmetic_run, execute_math. rewrite <- app_comm_cons.
  destruct (operand first variables) as [accumulator| |]; cbn [bind];
    try reflexivity.
  revert accumulator. induction steps as [|[o x] steps IH];
    intros accumulator; [reflexivity|].
  cbn [flat_map fst snd app execute_math_loop left_fold].
  destruct (operand x variables) as [v| |]; cbn [bind]; try reflexivity.
  rewrite operator_node_to_function_operator. cbn [bind].
  destruct (apply_operator o accumulator v); cbn [bind]; try reflexivity.
  apply IH.
Qed.

End MathFacts.

(* ===================================================================== *)
(** * The literals of a script *)
(* ===================================================================== *)

Section RaisesOnly.

Context `{Host}.
Variable allowed : exception -> bool.

Lemma raises_only_ret {A : Type} (a : A) : raises_only allowed (ret a).
Proof. intros w e w'. discriminate. Qed.

Lemma raises_only_lift {A : Type} (m : outcome A) :
  (forall e, m = Raise e -> allowed e = true) ->
  raises_only allowed (lift m).
Proof. intros Hm w e w'. unfold lift. intros [= -> _]. now apply Hm. Qed.

Lemma raises_only_raise {A : Type} (e : exception) :
  allowed e = true -> raises_only allowed (@raise _ A e).
Proof. intros He w e' w'. unfold raise, lift. now intros [= <- _]. Qed.

Lemma raises_only_then {A B : Type} (m : M A) (k : A -> M B) :
  raises_only allowed m -> (forall a, raises_only allowed (k a)) ->
  raises_only allowed (then_ m k).
Proof.
  intros Hm Hk w e w'. unfold then_.
  destruct (m w) as [[a|e0|] w0] eqn:Em.
  - apply Hk.
  - intros [= <- <-]. exact (Hm _ _ _ Em).
  - discriminate.
Qed.

Lemma raises_only_then_lift {A B : Type} (m : outcome A) (k : A -> M B) :
  (forall e, m = Raise e -> allowed e = true) ->
  (forall a, m = Ok a -> raises_only allowed (k a)) ->
  raises_only allowed (then_ (lift m) k).
Proof.
  intros Hm Hk w e w'. unfold then_, lift.
  destruct m as [a|e0|]; [now apply Hk| |discriminate].
  intros [= <- _]. now apply Hm.
Qed.

Lemma raises_only_call_host function args :
  (forall msg, allowed (HostError msg) = true) ->
  raises_only allowed (call_host function args).
Proof.
  intros Hhost w e w'. unfold call_host.
  destruct (function args w) as [[v|msg] w0]; [discriminate|].
  intros [= <- _]. apply Hhost.
Qed.

Lemma raises_only_execute_each (exec : node -> scope -> M (pyval * scope))
    exprs variables :
  (forall expr vars, In expr exprs -> raises_only allowed (exec expr vars)) ->
  raises_only allowed (execute_each exec exprs variables).
Proof.
  revert variables.
  induction exprs as [|expr exprs IH]; intros variables Hexec; simpl.
  - apply raises_only_ret.
  - apply raises_only_then; [apply Hexec; now left|]. intros [v variables1].
    apply raises_only_then; [apply IH; intros; apply Hexec; now right|].
    intros [vs variables2]. apply raises_only_ret.
Qed.

Lemma raises_only_execute_lines (exec : node -> scope -> M (pyval * scope))
    lines variables :
  (forall expr vars, In expr lines -> raises_only allowed (exec expr vars)) ->
  raises_only allowed (execute_lines exec lines variables).
Proof.
  revert variables.
  induction lines as [|item lines IH]; intros variables Hexec.
  - apply raises_only_ret.
  - cbn [execute_lines]. destruct lines as [|item' lines].
    + apply raises_only_then; [apply Hexec; now left|].
      intros [v variables1]. apply raises_only_ret.
    + apply raises_only_then; [apply Hexec; now left|].
      intros [v variables1]. apply IH. intros; apply Hexec; now right.
Qed.

End RaisesOnly.

Section LiteralsOfScripts.

Context `{Host}.
Variable functions : function_table.

Hypothesis functions_sound :
  forall callee function,
    functions !! callee = Some function -> sound (body function) = true.

Lemma sound_argument arg_exprs expr :
  forallb sound arg_exprs = true -> In expr arg_exprs -> sound expr = true.
Proof. intros Hall Hin. exact (proj1 (forallb_forall _ _) Hall _ Hin). Qed.

Lemma sound_line lines expr :
  forallb (fun item => negb (is_list item) && sound item) lines = true ->
  In expr lines -> sound expr = true.
Proof.
  intros Hall Hin. pose proof (proj1 (forallb_forall _ _) Hall _ Hin) as Hx.
  now apply andb_true_iff in Hx as [_ Hx].
Qed.

Lemma value_of_zero_or_other item e :
  value_of item = Raise e -> zero_or_other e = true.
Proof. destruct item; simpl; try discriminate; now intros [= <-]. Qed.

Lemma subscript_zero_or_other variables key e :
  subscript variables key = Raise e -> zero_or_other e = true.
Proof.
  unfold subscript. destruct (variables !! key); [discriminate|].
  now intros [= <-].
Qed.

Lemma bind_arguments_zero_or_other params args function_variables e :
  bind_arguments params args function_variables = Raise e ->
  zero_or_other e = true.
Proof.
  revert params function_variables; induction args as [|v args IH];
    intros [|p params] function_variables; simpl; try discriminate.
  - now intros [= <-].
  - apply IH.
Qed.

Lemma is_math_expression_zero_or_other l e :
  is_math_expression l = Raise e -> zero_or_other e = true.
Proof.
  destruct l as [|first rest].
  - now rewrite is_math_expression_nil.
  - rewrite is_math_expression_cons. now intros [= <-].
Qed.

(** The run of a list: of the list without items, that is. *)
Lemma raises_only_list l (k : pyval -> M (pyval * scope))
    (otherwise : M (pyval * scope)) variables :
  raises_only zero_or_other
    (then_ (lift (is_math_expression l))
       (fun is_math : bool =>
          if is_math
          then then_ (lift (execute_math l variables)) k
          else otherwise)).
Proof.
  apply raises_only_then_lift; [apply is_math_expression_zero_or_other|].
  intros b Hmath. apply is_math_expression_true in Hmath as [-> ->].
  apply raises_only_then_lift; [|discriminate].
  simpl. now intros e [= <-].
Qed.

Ltac literal_step :=
  lazymatch goal with
  | |- raises_only _ (ret _) => apply raises_only_ret
  | |- raises_only _ (raise _) => apply raises_only_raise
  | |- raises_only _ (call_host _ _) =>
      apply raises_only_call_host; reflexivity
  | |- raises_only _ (then_ (lift (value_of _)) _) =>
      apply raises_only_then_lift;
      [apply value_of_zero_or_other | intros ? ?]
  | |- raises_only _ (then_ (lift (subscript _ _)) _) =>
      apply raises_only_then_lift;
      [apply subscript_zero_or_other | intros ? ?]
  | |- raises_only _ (then_ (lift (bind_arguments _ _ _)) _) =>
      apply raises_only_then_lift;
      [apply bind_arguments_zero_or_other | intros ? ?]
  | |- raises_only _ (then_ (lift (is_math_expression _)) _) =>
      apply raises_only_list
  | |- raises_only _ (then_ _ _) => apply raises_only_then; [|intros ?]
  | |- raises_only _ (match ?x with (_, _) => _ end) => destruct x
  end.

(** Over sound definitions the evaluation of a sound item stops at no
    literal but the number zero. *)
Lemma sound_evaluation fuel :
  (forall item variables,
      sound item = true ->
      raises_only zero_or_other
        (execute_item functions fuel item variables))
  /\ (forall callee args,
        raises_only zero_or_other
          (call_function functions fuel callee args)).
Proof.
  induction fuel as [|fuel [IHitem IHcall]].
  { split; intros; intros w e w'; discriminate. }
  assert (forall exprs variables,
            forallb sound exprs = true ->
            raises_only zero_or_other
              (execute_each (execute_item functions fuel) exprs variables))
    as Heach.
  { intros exprs variables Hexprs. apply raises_only_execute_each.
    intros expr vars Hin. apply IHitem.
    exact (sound_argument _ _ Hexprs Hin). }
  split.
  - intros item variables Hitem.
    destruct item as [v|z|v|o|callee arg_exprs|target expression|items];
      cbn [execute_item call_function]; simpl in Hitem.
    + unfold then_, lift. simpl. destruct v; [discriminate|].
      apply raises_only_ret.
    + unfold then_, lift. simpl. destruct (z =? 0) eqn:Hz; simpl.
      * now apply raises_only_raise.
      * apply raises_only_ret.
    + repeat literal_step.
    + apply raises_only_ret.
    + apply andb_true_iff in Hitem as [_ Hargs].
      destruct (functions !! callee) as [function|].
      * case_bool_decide; [now apply raises_only_raise|].
        apply raises_only_then; [now apply Heach|]. intros [args variables1].
        apply raises_only_then; [apply IHcall|]. intros result.
        apply raises_only_ret.
      * destruct (builtins callee) as [function|];
          [|now apply raises_only_raise].
        apply raises_only_then; [now apply Heach|]. intros [args variables1].
        repeat literal_step.
    + apply andb_true_iff in Hitem as [_ Hexpr].
      destruct expression as [v|v|v|v|callee arg_exprs|t e|l].
      1-4, 6-7: repeat literal_step.
      simpl in Hexpr. apply andb_true_iff in Hexpr as [_ Hargs].
      apply raises_only_then; [now apply Heach|]. intros [args variables1].
      apply raises_only_then; [apply IHcall|]. intros result.
      apply raises_only_ret.
    + apply raises_only_list.
  - intros callee args. cbn [execute_item call_function].
    destruct (functions !! callee) as [function|] eqn:Hf;
      [|now apply raises_only_raise].
    case_bool_decide; [now apply raises_only_raise|].
    literal_step. pose proof (functions_sound _ _ Hf) as Hbody.
    unfold run_body. destruct (body function) as [v|z|v|o|c l|t b|lines];
      try (apply raises_only_then; [now apply IHitem|]; intros [? ?];
           apply raises_only_ret).
    simpl in Hbody. apply andb_true_iff in Hbody as [_ Hlines].
    apply raises_only_execute_lines. intros expr vars Hin.
    apply IHitem. exact (sound_line _ _ Hlines Hin).
Qed.

End LiteralsOfScripts.

Section Scripts.

Context `{Host}.

Lemma register_definitions_sound (ast : list DefinitionNode) callee function :
  forallb sound_definition ast = true ->
  register_definitions ast !! callee = Some function ->
  sound (body function) = true.
Proof.
  intros Hast. unfold register_definitions.
  assert (forall (functions : function_table),
            (forall c f, functions !! c = Some f -> sound (body f) = true) ->
            foldl handle_definition functions ast !! callee = Some function ->
            sound (body function) = true) as Hfold.
  { induction ast as [|d ast IH]; intros functions Hfunctions; simpl.
    - apply Hfunctions.
    - simpl in Hast. apply andb_true_iff in Hast as [Hd Hast].
      apply (IH Hast). intros c f. unfold handle_definition.
      destruct (decide (name d = c)) as [<-|Hne].
      + rewrite lookup_insert_eq. intros [= <-].
        unfold sound_definition in Hd.
        now apply andb_true_iff in Hd as [_ Hd].
      + rewrite lookup_insert_ne by exact Hne. apply Hfunctions. }
  apply Hfold. intros c f. now rewrite lookup_empty.
Qed.

(** X19. Of all the literals of a source, the number zero is the only one at
    which a script stops for having no way to execute it. *)
Theorem script_stops_at_zero_only (fuel : nat) (contents : string)
    (w w' : World) (e : exception) :
  run_source fuel contents w = (Raise e, w') ->
  zero_or_other e = true.
Proof.
  unfold run_source, then_, lift.
  destruct (tokenize_code contents) as [tokens|e0|] eqn:Ht;
    [| |discriminate].
  2:{ intros [= <- _].
      now destruct (tokenize_code_raises contents e0 Ht)
        as (k & rest & -> & _). }
  unfold tokenize_code in Ht.
  pose proof (tokenize_loop_well_lexed _ _ _ _ (Forall_nil_2 _) Ht) as Hl.
  pose proof (parse_loop_sound fuel [] tokens Hl eq_refl) as Hr.
  unfold parse. destruct (parse_loop fuel [] tokens) as [ast|e0|];
    [| |discriminate].
  2:{ intros [= <- _]. simpl in Hr. now destruct e0. }
  simpl in Hr. unfold begin_execution.
  destruct (register_definitions ast !! "main") as [main|];
    [|now intros [= <- _]].
  destruct (0 <? length (arguments main))%nat; [now intros [= <- _]|].
  unfold then_.
  destruct (call_function _ _ _ _ _) as [[v|e0|] w1] eqn:Hcall;
    [discriminate| |discriminate].
  intros [= <- _].
  refine (proj2 (sound_evaluation (register_definitions ast) _ fuel)
            _ _ _ _ _ Hcall).
  intros callee function. now apply register_definitions_sound.
Qed.

End Scripts.

(* ===================================================================== *)
(** * The parser on written definitions *)
(* ===================================================================== *)

Section Written.

Import Text Syntax.

Lemma continues_bind_Ok {A B : Type} (m : outcome A) (a : A)
    (k : A -> outcome B) (r : outcome B) :
  continues m (Ok a) -> continues (k a) r -> continues (bind m k) r.
Proof.
  unfold continues. intros Hm Hk.
  destruct m as [a'|e|]; simpl; [| |discriminate].
  - intros Hr. specialize (Hm eq_refl). injection Hm as ->. now apply Hk.
  - intros _. now specialize (Hm eq_refl).
Qed.

Lemma continues_Ok {A : Type} (r : outcome A) : continues r r.
Proof. now intros _. Qed.

Lemma span_no_quote (text rest : string) (q : ascii) :
  no_quote text = true -> is_quote q = true ->
  span (fun c => negb (is_quote c)) (String.append text (String q rest))
  = String.length text.
Proof.
  intros Htext Hq. induction text as [|c text IH].
  - rewrite append_empty_l. simpl. now rewrite Hq.
  - rewrite append_cons. simpl in *.
    apply andb_true_iff in Htext as [Hc Htext]. rewrite Hc. f_equal. auto.
Qed.

Lemma drop_append_length (a b : string) :
  drop (String.length a) (String.append a b) = b.
Proof.
  induction a as [|c a IH]; [now rewrite append_empty_l|].
  rewrite append_cons. exact IH.
Qed.

Lemma take_append_length (a b : string) :
  take (String.length a) (String.append a b) = a.
Proof.
  induction a as [|c a IH]; [now rewrite append_empty_l|].
  rewrite append_cons. simpl. now rewrite IH.
Qed.

(** The pattern of the parser reads a written text back. *)
Lemma quoted_written (text : string) :
  no_quote text = true -> text <> EmptyString ->
  exists n,
    Re.quoted (String.append quote (String.append text quote))
    = Some (text, n).
Proof.
  intros Htext Hne. unfold quote. rewrite append_cons, append_empty_l.
  unfold Re.quoted.
  change (is_quote "'") with true. cbv iota.
  rewrite (span_no_quote text EmptyString "'" Htext eq_refl).
  destruct (String.length text) as [|m] eqn:Hlen;
    [destruct text; [contradiction|discriminate]|].
  rewrite <- Hlen, drop_append_length, take_append_length. eauto.
Qed.

Lemma not_empty_string (s : string) :
  negb (String.eqb s EmptyString) = true -> s <> EmptyString.
Proof. destruct s; [discriminate|]. intros _. discriminate. Qed.

Lemma term_tokens_starts_item (t : term) (more : list Token) :
  starts_item (term_tokens t ++ more) = true.
Proof. destruct t as [d|s|n|[]|c a]; reflexivity. Qed.

Lemma run_tokens_cons (t : term) (run : list term) :
  run_tokens (t :: run) = term_tokens t ++ run_tokens run.
Proof. reflexivity. Qed.

Lemma run_tokens_starts_item (run : list term) (more : list Token) :
  run <> [] -> starts_item (run_tokens run ++ more) = true.
Proof.
  destruct run as [|t run]; [contradiction|]. intros _.
  rewrite run_tokens_cons, <- app_assoc. apply term_tokens_starts_item.
Qed.

Lemma starts_item_peek (tokens : list Token) (expected_type : TokenType) :
  starts_item tokens = true ->
  expected_type ∈ [OPEN_PAREN; CLOSE_PAREN; COMMA; END; DEF;
                   VARIABLE_DECLARATION] ->
  peek tokens expected_type 0 = false.
Proof.
  destruct tokens as [|token tokens]; [discriminate|]. unfold peek. simpl.
  intros Hs Hin. apply bool_decide_eq_false. intros Heq. rewrite Heq in Hs.
  repeat (apply elem_of_cons in Hin as [->|Hin]; [discriminate|]).
  now apply elem_of_nil in Hin.
Qed.

Lemma starts_item_not_finished (function_call : bool) (tokens : list Token) :
  starts_item tokens = true -> finished function_call tokens = false.
Proof.
  intros Hs. unfold finished.
  destruct function_call;
    rewrite ?(starts_item_peek tokens COMMA Hs),
      ?(starts_item_peek tokens CLOSE_PAREN Hs),
      ?(starts_item_peek tokens END Hs) by set_solver; reflexivity.
Qed.

Lemma finished_peek_open (function_call : bool) (tokens : list Token) :
  finished function_call tokens = true -> peek tokens OPEN_PAREN 0 = false.
Proof.
  destruct tokens as [|token tokens]; [reflexivity|].
  unfold finished, peek. simpl. destruct function_call.
  - intros Hf. apply orb_true_iff in Hf as [Hf|Hf];
      apply bool_decide_eq_true in Hf; apply bool_decide_eq_false; congruence.
  - intros Hf. apply bool_decide_eq_true in Hf.
    apply bool_decide_eq_false. congruence.
Qed.

Lemma peek_head_eq token rest expected_type :
  type token = expected_type -> peek (token :: rest) expected_type 0 = true.
Proof. intros Ht. unfold peek. simpl. now apply bool_decide_eq_true. Qed.

Lemma peek_head_ne token rest expected_type :
  type token <> expected_type -> peek (token :: rest) expected_type 0 = false.
Proof. intros Ht. unfold peek. simpl. now apply bool_decide_eq_false. Qed.

(** The parse of one item that is no call. *)
Lemma parse_item_written
    (parse_call parse_variable_declaration
       : list Token -> outcome (node * list Token))
    (t : term) (more : list Token) :
  valid t = true ->
  peek more OPEN_PAREN 0 = false ->
  parse_item parse_call parse_variable_declaration (term_tokens t ++ more)
  = match t with
    | TCall _ _ => parse_call (term_tokens t ++ more)
    | _ => Ok (term_node t, more)
    end.
Proof.
  intros Hvalid Hopen. destruct t as [digits|text|name|o|callee args].
  - simpl in Hvalid. apply andb_true_iff in Hvalid as [Hvalid Hlen].
    apply andb_true_iff in Hvalid as [Hd Hne].
    apply not_empty_string in Hne. apply Z.leb_le in Hlen.
    unfold parse_item. cbn [term_tokens app].
    rewrite (peek_head_eq _ _ INTEGER) by reflexivity.
    unfold parse_integer. rewrite (consume_head _ _ INTEGER) by reflexivity.
    cbn [bind value]. rewrite (int_of_string_digits _ Hd Hne).
    assert ((max_str_digits <? Z.of_nat (String.length digits)) = false)
      as -> by (apply Z.ltb_ge; exact Hlen).
    reflexivity.
  - simpl in Hvalid. apply andb_true_iff in Hvalid as [Hq Hne].
    apply not_empty_string in Hne.
    destruct (quoted_written text Hq Hne) as [n Hn].
    unfold parse_item. cbn [term_tokens app].
    rewrite (peek_head_ne _ _ INTEGER) by discriminate.
    rewrite (peek_head_eq _ _ STRING) by reflexivity.
    unfold parse_string. rewrite (consume_head _ _ STRING) by reflexivity.
    cbn [bind value]. now rewrite Hn.
  - unfold parse_item, is_operator_next. simpl.
    change (peek (mkToken IDENTIFIER name :: more) OPEN_PAREN 1)
      with (peek more OPEN_PAREN 0).
    now rewrite Hopen.
  - destruct o; reflexivity.
  - reflexivity.
Qed.

Lemma join_cons (part : list Token) (parts : list (list Token)) :
  join (part :: parts) = part ++ more_join parts.
Proof. now destruct parts. Qed.

Lemma expr_result_run (items : list node) :
  items <> [] -> expr_result items = Ok (run_node items).
Proof. destruct items as [|x [|y items]]; [contradiction| |]; reflexivity. Qed.

Lemma len_app_le (a b : list Token) : len b <= len (a ++ b).
Proof. unfold len. rewrite length_app. lia. Qed.

(** The parsers of an expression, of a call and of its arguments read
    back what was written, whenever their fuel is enough. *)
Lemma parser_reads_written (fuel : nat) :
  (forall function_call start_len items run more,
      run <> [] -> forallb valid run = true ->
      finished function_call more = true ->
      len (run_tokens run ++ more) <= start_len ->
      continues
        (parse_expr_loop fuel function_call (-1) start_len items
           (run_tokens run ++ more))
        (let* result := expr_result (items ++ map term_node run) in
         Ok (result, more)))
  /\ (forall callee args more,
        valid (TCall callee args) = true ->
        continues
          (parse_call fuel (term_tokens (TCall callee args) ++ more))
          (Ok (term_node (TCall callee args), more)))
  /\ (forall expressions args more,
        forallb valid_run args = true ->
        continues
          (parse_argument_expressions_loop fuel expressions
             (join (map run_tokens args) ++ mkToken CLOSE_PAREN ")" :: more))
          (Ok (expressions ++ map argument_node args,
               mkToken CLOSE_PAREN ")" :: more)))
  /\ (forall expressions args more,
        forallb valid_run args = true ->
        continues
          (parse_argument_commas_loop fuel expressions
             (more_join (map run_tokens args)
                ++ mkToken CLOSE_PAREN ")" :: more))
          (Ok (expressions ++ map argument_node args,
               mkToken CLOSE_PAREN ")" :: more))).
Proof.
  induction fuel as [|fuel (IHexpr & IHcall & IHargs & IHcommas)].
  { repeat split; intros; intros Hr; discriminate. }
  repeat split.
  - intros function_call start_len items run more Hne Hvalid Hfin Hlen.
    destruct run as [|t run]; [contradiction|]. clear Hne.
    simpl in Hvalid. apply andb_true_iff in Hvalid as [Ht Hrun].
    rewrite run_tokens_cons, <- app_assoc in *.
    set (more1 := run_tokens run ++ more) in *.
    assert (peek more1 OPEN_PAREN 0 = false) as Hopen.
    { destruct run as [|t' run'].
      - exact (finished_peek_open _ _ Hfin).
      - apply starts_item_peek; [|set_solver].
        now apply run_tokens_starts_item. }
    rewrite parse_expr_loop_S, (parse_item_written _ _ t more1 Ht Hopen).
    assert (continues
              (match t with
               | TCall _ _ => parse_call fuel (term_tokens t ++ more1)
               | _ => Ok (term_node t, more1)
               end)
              (Ok (term_node t, more1))) as Hitem.
    { destruct t; try apply continues_Ok. now apply IHcall. }
    eapply continues_bind_Ok; [exact Hitem|]. cbv beta iota zeta.
    assert ((start_len - len more1 =? -1) = false) as ->.
    { apply Z.eqb_neq. pose proof (len_app_le (term_tokens t) more1). lia. }
    rewrite orb_false_l.
    destruct run as [|t' run'].
    + unfold more1. simpl app. rewrite Hfin. apply continues_Ok.
    + rewrite starts_item_not_finished
        by (now apply run_tokens_starts_item).
      change (map term_node (t :: t' :: run'))
        with ([term_node t] ++ map term_node (t' :: run')).
      rewrite app_assoc. apply IHexpr; auto.
      pose proof (len_app_le (term_tokens t) more1). unfold more1 in *. lia.
  - intros callee args more Hvalid. rewrite parse_call_S.
    cbn [term_tokens]. rewrite <- !app_comm_cons.
    rewrite (consume_head _ _ IDENTIFIER) by reflexivity. cbn [bind].
    rewrite (consume_head _ _ OPEN_PAREN) by reflexivity. cbn [bind].
    rewrite <- app_assoc. cbn [app].
    eapply continues_bind_Ok.
    + apply (IHargs [] args more). exact Hvalid.
    + cbv beta iota. rewrite (consume_head _ _ CLOSE_PAREN) by reflexivity.
      cbn [bind value]. apply continues_Ok.
  - intros expressions args more Hvalid.
    rewrite parse_argument_expressions_loop_S.
    destruct args as [|run args].
    + simpl. rewrite app_nil_r. apply continues_Ok.
    + simpl in Hvalid. apply andb_true_iff in Hvalid as [Hrun Hargs].
      assert (run <> [] /\ forallb valid run = true) as [Hne Hitems].
      { destruct run; [discriminate|]. split; [discriminate|exact Hrun]. }
      cbn [map]. rewrite join_cons, <- app_assoc.
      rewrite (starts_item_peek _ CLOSE_PAREN)
        by (try apply run_tokens_starts_item; auto; set_solver).
      eapply continues_bind_Ok.
      * eapply continues_trans.
        -- apply (IHexpr true _ [] run); auto; [|lia].
           destruct args; reflexivity.
        -- simpl app. rewrite expr_result_run
             by (destruct run; [contradiction|discriminate]).
           apply continues_Ok.
      * cbv beta iota.
        change (expressions ++ argument_node run :: map argument_node args)
          with (expressions ++ [argument_node run] ++ map argument_node args).
        rewrite app_assoc.
        exact (IHcommas (expressions ++ [argument_node run]) args more Hargs).
  - intros expressions args more Hvalid.
    rewrite parse_argument_commas_loop_S.
    destruct args as [|run args].
    + pose proof (IHargs expressions [] more eq_refl) as Hargs.
      simpl in *. now rewrite app_nil_r in *.
    + simpl in Hvalid. apply andb_true_iff in Hvalid as [Hrun Hargs].
      assert (run <> [] /\ forallb valid run = true) as [Hne Hitems].
      { destruct run; [discriminate|]. split; [discriminate|exact Hrun]. }
      cbn [map more_join]. rewrite join_cons, <- app_comm_cons.
      change (peek (mkToken COMMA "," :: ?l) COMMA 0) with true.
      cbv iota. rewrite (consume_head _ _ COMMA) by reflexivity. cbn [bind].
      rewrite <- app_assoc.
      eapply continues_bind_Ok.
      * eapply continues_trans.
        -- apply (IHexpr true _ [] run); auto; [|lia].
           destruct args; reflexivity.
        -- simpl app. rewrite expr_result_run
             by (destruct run; [contradiction|discriminate]).
           apply continues_Ok.
      * cbv beta iota.
        change (expressions ++ argument_node run :: map argument_node args)
          with (expressions ++ [argument_node run] ++ map argument_node args).
        rewrite app_assoc.
        exact (IHcommas (expressions ++ [argument_node run]) args more Hargs).
Qed.

Lemma parse_definition_written (fuel : nat) (d : definition)
    (more : list Token) :
  valid_run (dbody d) = true ->
  continues (parse_definition fuel (definition_tokens d ++ more))
    (Ok (definition_node d, more)).
Proof.
  intros Hbody. unfold parse_definition, definition_tokens.
  rewrite <- !app_comm_cons.
  rewrite (consume_head _ _ DEF) by reflexivity. cbn [bind].
  rewrite (consume_head _ _ IDENTIFIER) by reflexivity. cbn [bind].
  rewrite <- app_assoc, <- app_comm_cons, <- app_assoc.
  rewrite parse_argument_names_written. cbn [bind].
  assert (dbody d <> [] /\ forallb valid (dbody d) = true) as [Hne Hitems].
  { destruct (dbody d); [discriminate|]. split; [discriminate|exact Hbody]. }
  unfold parse_expr. eapply continues_bind_Ok.
  - eapply continues_trans.
    + apply (proj1 (parser_reads_written fuel) false _ [] (dbody d));
        [exact Hne|exact Hitems|reflexivity|lia].
    + simpl app. rewrite expr_result_run
        by (destruct (dbody d); [contradiction|discriminate]).
      apply continues_Ok.
  - cbv beta iota. cbn [app].
    rewrite (consume_head _ _ END) by reflexivity. apply continues_Ok.
Qed.

Lemma source_tokens_cons (d : definition) (definitions : list definition) :
  source_tokens (d :: definitions)
  = definition_tokens d ++ source_tokens definitions.
Proof. reflexivity. Qed.

Lemma parse_loop_written (fuel : nat) (parsed : list DefinitionNode)
    (definitions : list definition) (more : list Token) :
  forallb (fun d => valid_run (dbody d)) definitions = true ->
  peek more DEF 0 = false ->
  continues
    (parse_loop fuel parsed (source_tokens definitions ++ more))
    (Ok (parsed ++ map definition_node definitions)).
Proof.
  revert parsed definitions.
  induction fuel as [|fuel IH]; intros parsed definitions Hvalid Hmore.
  - destruct definitions as [|d definitions].
    + simpl. rewrite Hmore, app_nil_r. apply continues_Ok.
    + intros Hr. discriminate.
  - destruct definitions as [|d definitions].
    + simpl. rewrite Hmore, app_nil_r. apply continues_Ok.
    + simpl in Hvalid. apply andb_true_iff in Hvalid as [Hd Hvalid].
      rewrite source_tokens_cons, <- app_assoc.
      cbn [parse_loop].
      assert (peek (definition_tokens d ++ source_tokens definitions ++ more)
                DEF 0 = true) as -> by reflexivity.
      eapply continues_bind_Ok;
        [exact (parse_definition_written fuel d _ Hd)|].
      cbv beta iota. cbn [map].
      change (parsed ++ definition_node d :: map definition_node definitions)
        with (parsed ++ [definition_node d]
                ++ map definition_node definitions).
      rewrite app_assoc. now apply IH.
Qed.

(** X20. The parser reads back the definitions that are written without
    assignments and whose numbers have no more than 4300 digits, the most
    that [int] takes: from their tokens it builds their nodes, and it
    leaves alone what follows them and starts with no [def]. *)
Theorem parse_round_trip (definitions : list Syntax.definition)
    (more : list Token) (extra : nat) :
  forallb (fun d => valid_run (dbody d)) definitions = true ->
  peek more DEF 0 = false ->
  parse (parse_fuel (source_tokens definitions ++ more) + extra)
    (source_tokens definitions ++ more)
  = Ok (map definition_node definitions).
Proof.
  intros Hvalid Hmore. unfold parse.
  pose proof (parse_loop_written
                (parse_fuel (source_tokens definitions ++ more) + extra)
                [] definitions more Hvalid Hmore) as Hloop.
  symmetry. apply Hloop.
  apply (settles_ran_out (fun _ => True)). apply parse_loop_settles.
  unfold parse_fuel. lia.
Qed.

End Written.

(* ===================================================================== *)
(** * Definitions and the callables of the host *)
(* ===================================================================== *)

Section Shadowing.

Variable W : Type.
Variables b b' : string -> option (list pyval -> W -> host_result * W).
Variable functions : function_table.

Hypothesis same_elsewhere :
  forall callee, functions !! callee = None -> b callee = b' callee.

Lemma then_ext {A B : Type} (m m' : W -> outcome A * W)
    (k k' : A -> W -> outcome B * W) (w : W) :
  m w = m' w -> (forall a w1, k a w1 = k' a w1) ->
  then_ (H := host_of W b) m k w = then_ (H := host_of W b') m' k' w.
Proof.
  intros Hm Hk. unfold then_. rewrite Hm.
  destruct (m' w) as [[a|e|] w1]; auto.
Qed.

Lemma execute_each_ext
    (exec exec' : node -> scope -> W -> outcome (pyval * scope) * W)
    exprs variables w :
  (forall expr vars w1, exec expr vars w1 = exec' expr vars w1) ->
  execute_each (H := host_of W b) exec exprs variables w
  = execute_each (H := host_of W b') exec' exprs variables w.
Proof.
  intros Hexec. revert variables w.
  induction exprs as [|expr exprs IH]; intros variables w; [reflexivity|].
  cbn [execute_each]. apply then_ext; [apply Hexec|].
  intros [v variables1] w1. apply then_ext; [apply IH|]. now intros [? ?] ?.
Qed.

Lemma execute_lines_ext
    (exec exec' : node -> scope -> W -> outcome (pyval * scope) * W)
    lines variables w :
  (forall expr vars w1, exec expr vars w1 = exec' expr vars w1) ->
  execute_lines (H := host_of W b) exec lines variables w
  = execute_lines (H := host_of W b') exec' lines variables w.
Proof.
  intros Hexec. revert variables w.
  induction lines as [|item lines IH]; intros variables w; [reflexivity|].
  cbn [execute_lines]. destruct lines as [|item' lines].
  - apply then_ext; [apply Hexec|]. now intros [? ?] ?.
  - apply then_ext; [apply Hexec|]. intros [? ?] ?. apply IH.
Qed.

Lemma run_body_ext
    (exec exec' : node -> scope -> W -> outcome (pyval * scope) * W)
    body variables w :
  (forall expr vars w1, exec expr vars w1 = exec' expr vars w1) ->
  run_body (H := host_of W b) exec body variables w
  = run_body (H := host_of W b') exec' body variables w.
Proof.
  intros Hexec.
  destruct body; simpl;
    try (apply then_ext; [apply Hexec|]; now intros [? ?] ?).
  now apply execute_lines_ext.
Qed.

(** The callables that bear the name of a definition are never asked
    for. *)
Lemma evaluation_shadows fuel :
  (forall item variables w,
      execute_item (H := host_of W b) functions fuel item variables w
      = execute_item (H := host_of W b') functions fuel item variables w)
  /\ (forall callee args w,
        call_function (H := host_of W b) functions fuel callee args w
        = call_function (H := host_of W b') functions fuel callee args w).
Proof.
  induction fuel as [|fuel [IHitem IHcall]]; [now split|].
  split.
  - intros item variables w.
    destruct item as [v|v|v|v|callee arg_exprs|target expression|items];
      try reflexivity.
    + rewrite !execute_item_call_S.
      destruct (functions !! callee) as [function|] eqn:Hf.
      * case_bool_decide; [reflexivity|].
        apply then_ext; [now apply execute_each_ext|].
        intros [args variables1] w1. apply then_ext; [apply IHcall|].
        reflexivity.
      * change (builtins (Host := host_of W b) callee) with (b callee).
        change (builtins (Host := host_of W b') callee) with (b' callee).
        rewrite (same_elsewhere callee Hf).
        destruct (b' callee) as [function|]; [|reflexivity].
        apply then_ext; [now apply execute_each_ext|].
        now intros [args variables1] w1.
    + destruct expression as [v|v|v|v|callee arg_exprs|t e|l];
        try reflexivity.
      rewrite !execute_item_declaration_call.
      apply then_ext; [now apply execute_each_ext|].
      intros [args variables1] w1. apply then_ext; [apply IHcall|].
      reflexivity.
  - intros callee args w. rewrite !call_function_S.
    destruct (functions !! callee) as [function|]; [|reflexivity].
    case_bool_decide; [reflexivity|].
    apply then_ext; [reflexivity|]. intros function_variables w1.
    now apply run_body_ext.
Qed.

End Shadowing.

Section ShadowingTheorem.

(** X21. A definition shadows the callable of the host of the same name:
    the evaluation over a table of definitions is the same for two hosts
    that differ only at names that the table defines. *)
Theorem definitions_shadow_host (W : Type)
    (b b' : string -> option (list pyval -> W -> host_result * W))
    (functions : function_table) (fuel : nat) (item : node)
    (variables : scope) (w : W) :
  (forall callee, functions !! callee = None -> b callee = b' callee) ->
  execute_item (H := host_of W b) functions fuel item variables w
  = execute_item (H := host_of W b') functions fuel item variables w.
Proof. intros Hsame. now apply evaluation_shadows. Qed.

End ShadowingTheorem.

(* ===================================================================== *)
(** * The program of the test script and the lines of a body *)
(* ===================================================================== *)

Section TestScript.

Import TestProgram.

Context `{Host}.

Lemma tokenize_CODE :
  tokenize_code CODE
  = Ok [ mkToken DEF "def "; mkToken IDENTIFIER "main";
         mkToken OPEN_PAREN "("; mkToken CLOSE_PAREN ")";
         mkToken VARIABLE_DECLARATION
           (String.append
              (String.concat dq ["username = get_input("; prompt; ")"]) nl);
         mkToken IDENTIFIER "print"; mkToken OPEN_PAREN "(";
         mkToken STRING (String.concat dq [""; greeting; ""]);
         mkToken COMMA ","; mkToken IDENTIFIER "username";
         mkToken CLOSE_PAREN ")"; mkToken END "end";
         mkToken DEF "def "; mkToken IDENTIFIER "get_input";
         mkToken OPEN_PAREN "("; mkToken IDENTIFIER "prompt";
         mkToken CLOSE_PAREN ")";
         mkToken IDENTIFIER "input"; mkToken OPEN_PAREN "(";
         mkToken IDENTIFIER "prompt"; mkToken CLOSE_PAREN ")";
         mkToken END "end" ].
Proof. vm_compute. reflexivity. Qed.

Lemma parse_CODE (fuel : nat) (tokens : list Token) :
  tokenize_code CODE = Ok tokens ->
  parse (20 + fuel) tokens = Ok [main; get_input].
Proof. rewrite tokenize_CODE. intros [= <-]. vm_compute. reflexivity. Qed.

Lemma functions_CODE :
  let functions := register_definitions [main; get_input] in
  functions !! "main" = Some main
  /\ functions !! "get_input" = Some get_input
  /\ functions !! "input" = None
  /\ functions !! "print" = None.
Proof. repeat split; reflexivity. Qed.

Lemma then_run {A B : Type} (m : M A) (k : A -> M B) (w w1 : World)
    (r : outcome A) :
  m w = (r, w1) ->
  then_ m k w
  = match r with
    | Ok a => k a w1
    | Raise e => (Raise e, w1)
    | OutOfFuel => (OutOfFuel, w1)
    end.
Proof. unfold then_. intros ->. now destruct r. Qed.

Variable functions : function_table.

Lemma reference_bound (fuel : nat) (v : string) (x : pyval)
    (variables : scope) (w : World) :
  variables !! v = Some x ->
  execute_item functions (S fuel) (VariableReferenceNode v) variables w
  = (Ok (x, variables), w).
Proof.
  intros Hv. cbn [execute_item]. unfold then_, lift, subscript.
  now rewrite Hv.
Qed.

Variables input_ print_ : list pyval -> World -> host_result * World.

Hypothesis Hinput : builtins "input" = Some input_.
Hypothesis Hprint : builtins "print" = Some print_.
Hypothesis Hmain : functions !! "main" = Some main.
Hypothesis Hget : functions !! "get_input" = Some get_input.
Hypothesis Hno_input : functions !! "input" = None.
Hypothesis Hno_print : functions !! "print" = None.

(** The call of [get_input] asks the host with the prompt. *)
Lemma call_get_input (fuel : nat) (w : World) :
  call_function functions (S (S (S fuel))) "get_input" [PyStr prompt] w
  = match input_ [PyStr prompt] w with
    | (HostReturn username, w1) => (Ok username, w1)
    | (HostRaise msg, w1) => (Raise (HostError msg), w1)
    end.
Proof.
  rewrite call_function_S, Hget.
  change (bool_decide (length [PyStr prompt] ≠ length (arguments get_input)))
    with false. cbv iota.
  apply (eq_trans
           (then_run _ _ w w (Ok (<[ "prompt" := PyStr prompt ]> ∅))
              eq_refl)).
  cbn [body get_input run_body].
  rewrite execute_item_call_S, Hno_input, Hinput.
  unfold then_ at 1. unfold then_ at 1. cbn [execute_each].
  rewrite (then_run _ _ w w _
             (reference_bound fuel "prompt" (PyStr prompt) _ w
                (lookup_insert_eq _ _ _))).
  cbn [then_ ret]. unfold then_, ret, call_host.
  destruct (input_ [PyStr prompt] w) as [[username|msg] w1]; reflexivity.
Qed.

(** The first line binds the answer of the host to [username]. *)
Lemma first_line (fuel : nat) (variables : scope) (w : World) :
  execute_item functions (S (S (S (S (S fuel)))))
    (VariableDeclarationNode "username"
       (CallNode "get_input" [StringNode prompt])) variables w
  = match input_ [PyStr prompt] w with
    | (HostReturn username, w1) =>
        (Ok (PyNone, <[ "username" := username ]> variables), w1)
    | (HostRaise msg, w1) => (Raise (HostError msg), w1)
    end.
Proof.
  rewrite execute_item_declaration_call.
  assert (execute_each (execute_item functions (S (S (S (S fuel)))))
            [StringNode prompt] variables w
          = (Ok ([PyStr prompt], variables), w)) as Hargs by reflexivity.
  rewrite (then_run _ _ w w _ Hargs). cbv beta iota.
  unfold then_. rewrite call_get_input.
  destruct (input_ [PyStr prompt] w) as [[username|msg] w1]; reflexivity.
Qed.

(** The second line prints the greeting and the answer. *)
Lemma second_line (fuel : nat) (variables : scope) (username : pyval)
    (w : World) :
  execute_item functions (S (S fuel))
    (CallNode "print" [StringNode greeting; VariableReferenceNode "username"])
    (<[ "username" := username ]> variables) w
  = match print_ [PyStr greeting; username] w with
    | (HostReturn result, w1) =>
        (Ok (result, <[ "username" := username ]> variables), w1)
    | (HostRaise msg, w1) => (Raise (HostError msg), w1)
    end.
Proof.
  rewrite execute_item_call_S, Hno_print, Hprint.
  assert (execute_each (execute_item functions (S fuel))
            [StringNode greeting; VariableReferenceNode "username"]
            (<[ "username" := username ]> variables) w
          = (Ok ([PyStr greeting; username],
                 <[ "username" := username ]> variables), w)) as Hargs.
  { cbn [execute_each].
    assert (execute_item functions (S fuel) (StringNode greeting)
              (<[ "username" := username ]> variables) w
            = (Ok (PyStr greeting, <[ "username" := username ]> variables),
               w)) as Hfirst by reflexivity.
    rewrite (then_run _ _ w w _ Hfirst). cbv beta iota.
    unfold then_ at 1.
    rewrite (then_run _ _ w w _
               (reference_bound fuel "username" username _ w
                  (lookup_insert_eq _ _ _))).
    reflexivity. }
  rewrite (then_run _ _ w w _ Hargs). cbv beta iota.
  unfold then_, ret, call_host.
  destruct (print_ [PyStr greeting; username] w) as [[result|msg] w1];
    reflexivity.
Qed.

(** The call of [main]. *)
Lemma call_main (fuel : nat) (w : World) :
  call_function functions (S (S (S (S (S (S fuel)))))) "main" [] w
  = match input_ [PyStr prompt] w with
    | (HostReturn username, w1) =>
        match print_ [PyStr greeting; username] w1 with
        | (HostReturn result, w2) => (Ok result, w2)
        | (HostRaise msg, w2) => (Raise (HostError msg), w2)
        end
    | (HostRaise msg, w1) => (Raise (HostError msg), w1)
    end.
Proof.
  rewrite call_function_S, Hmain.
  change (bool_decide (length [] ≠ length (arguments main))) with false.
  cbv iota.
  apply (eq_trans (then_run _ _ w w (Ok ∅) eq_refl)).
  cbn [body main run_body execute_lines].
  unfold then_ at 1. rewrite first_line.
  destruct (input_ [PyStr prompt] w) as [[username|msg] w1]; [|reflexivity].
  unfold then_. rewrite second_line.
  destruct (print_ [PyStr greeting; username] w1) as [[result|msg] w2];
    reflexivity.
Qed.

End TestScript.

Section TestScriptTheorem.

Import TestProgram.

Context `{Host}.

(** X22. The program of [src/test.py] asks the host for an input with its
    prompt and prints the greeting and the answer; an exception of
    [input] or of [print] is the exception of the script. *)
Theorem test_script (fuel : nat) (w : World)
    (input_ print_ : list pyval -> World -> host_result * World) :
  builtins "input" = Some input_ ->
  builtins "print" = Some print_ ->
  run_source (20 + fuel) CODE w
  = match input_ [PyStr prompt] w with
    | (HostReturn username, w1) =>
        match print_ [PyStr greeting; username] w1 with
        | (HostReturn _, w2) => (Ok tt, w2)
        | (HostRaise msg, w2) => (Raise (HostError msg), w2)
        end
    | (HostRaise msg, w1) => (Raise (HostError msg), w1)
    end.
Proof.
  intros Hinput Hprint. unfold run_source.
  unfold then_ at 1. unfold lift at 1. rewrite tokenize_CODE.
  unfold then_ at 1. unfold lift at 1.
  rewrite (parse_CODE fuel _ tokenize_CODE).
  destruct functions_CODE as (Hmain & Hget & Hno_input & Hno_print).
  unfold begin_execution. rewrite Hmain.
  change (0 <? length (arguments main))%nat with false. cbv iota.
  change (20 + fuel)%nat with (S (S (S (S (S (S (14 + fuel))))))).
  unfold then_.
  rewrite (call_main _ input_ print_ Hinput Hprint Hmain Hget Hno_input
             Hno_print).
  destruct (input_ [PyStr prompt] w) as [[username|msg] w1]; [|reflexivity].
  destruct (print_ [PyStr greeting; username] w1) as [[result|msg] w2];
    reflexivity.
Qed.

End TestScriptTheorem.

Section Lines.

Context `{Host}.

(** X23. The lines of a body are run in order in one variable holder, as the
    arguments of a call are; the value of the body is the value of its
    last line, and the values of the lines before it are dropped. *)
Theorem body_returns_last_line
    (exec : node -> scope -> M (pyval * scope)) (lines : list node)
    (last : node) (variables : scope) (w : World) :
  execute_lines exec (lines ++ [last]) variables w
  = then_ (execute_each exec lines variables)
      (fun '(_, variables1) =>
         then_ (exec last variables1) (fun '(ret_val, _) => ret ret_val)) w.
Proof.
  revert variables w. induction lines as [|line lines IH]; intros variables w.
  - reflexivity.
  - assert (execute_lines exec ((line :: lines) ++ [last]) variables w
            = then_ (exec line variables)
                (fun '(_, variables1) =>
                   execute_lines exec (lines ++ [last]) variables1) w)
      as -> by (now destruct lines).
    cbn [execute_each]. rewrite then_assoc. apply then_cong.
    intros [v variables1] w1. rewrite IH, then_assoc. apply then_cong.
    now intros [vs variables2] w2.
Qed.

End Lines.

(* ===================================================================== *)
(** * Sample programs *)
(* ===================================================================== *)

Section SampleRuns.

Import Samples.

Example tokenize_split_call :
  tokenize_code split_call_source
  = Ok [mkToken DEF "def "; mkToken IDENTIFIER "main";
        mkToken OPEN_PAREN "("; mkToken CLOSE_PAREN ")";
        split_call_line; mkToken INTEGER "2"; mkToken CLOSE_PAREN ")";
        mkToken END "end"].
Proof. vm_compute. reflexivity. Qed.

(** C9. The parse of an assignment is not held to the tokens of its
    right hand side.  The right hand side [f(1,] gives four tokens; the
    parse of the assignment goes on into the tokens behind them and takes
    [2] and [)] as well, six tokens in all.  The right hand side [1 end]
    gives two tokens; the parse stops in front of [END] after one of
    them, and leaves the other to the tokens that follow. *)
Theorem assignment_parse_not_bounded (fuel : nat) :
  Re.declaration (value split_call_line) = Some ("x", "f(1,", 9%nat)
  /\ tokenize_code "f(1,"
     = Ok [mkToken IDENTIFIER "f"; mkToken OPEN_PAREN "(";
           mkToken INTEGER "1"; mkToken COMMA ","]
  /\ parse_variable_declaration (10 + fuel)
       [split_call_line; mkToken INTEGER "2"; mkToken CLOSE_PAREN ")";
        mkToken END "end"]
     = Ok (VariableDeclarationNode "x"
             (CallNode "f" [IntegerNode 1; IntegerNode 2]),
           [mkToken END "end"])
  /\ tokenize_code "1 end" = Ok [mkToken INTEGER "1"; mkToken END "end"]
  /\ parse_variable_declaration (10 + fuel)
       [early_end_line; mkToken IDENTIFIER "y"; mkToken END "end"]
     = Ok (VariableDeclarationNode "x" (IntegerNode 1),
           [mkToken END "end"; mkToken IDENTIFIER "y"; mkToken END "end"]).
Proof. repeat split; vm_compute; reflexivity. Qed.

(** C6. A call on the right hand side of an assignment is not handed to
    the host.  The host exposes [len]: as a call node of its own,
    [len('abc')] is answered by the host; as the right hand side of
    [x = len('abc')] it fails, [len] being no defined function. *)
Theorem assignment_call_skips_host (fuel : nat) (w : list (list pyval)) :
  @builtins Console.host "len" = Some Console.len
  /\ execute_item (H := Console.host) ∅ (S (S fuel))
       (CallNode "len" [StringNode "abc"]) ∅ w
     = (Ok (PyInt 3, ∅), w)
  /\ execute_item (H := Console.host) ∅ (S (S fuel))
       (VariableDeclarationNode "x" (CallNode "len" [StringNode "abc"])) ∅ w
     = (Raise (FunctionDoesNotExist "len"), w).
Proof. repeat split. Qed.

(** The round trip on a program of four lines. *)
Lemma tokenize_code_round_trip_witness :
  tokenize_code greeting_source = Ok greeting_tokens
  /\ interleaved greeting_tokens greeting_source
  /\ Text.squeeze (raw_text greeting_tokens) = Text.squeeze greeting_source.
Proof.
  split; [vm_compute; reflexivity|].
  apply (tokenize_code_round_trip greeting_source greeting_tokens).
  vm_compute; reflexivity.
Defined.

(** [def f()] followed at once by [end]. *)
Lemma parse_expr_never_empty_witness :
  tokenize_code empty_body_source
  = Ok (mkToken DEF "def " :: mkToken IDENTIFIER "f" :: empty_body_tokens)
  /\ parse_argument_names empty_body_tokens = Ok ([], [mkToken END "end"])
  /\ parse_definition 1
       (mkToken DEF "def " :: mkToken IDENTIFIER "f" :: empty_body_tokens)
     = Raise (InvalidTokenType (mkToken END "end")).
Proof.
  split; [vm_compute; reflexivity|].
  split; [vm_compute; reflexivity|].
  apply (proj2 parse_expr_never_empty 0%nat (mkToken DEF "def ")
           (mkToken IDENTIFIER "f") empty_body_tokens [] (mkToken END "end")
           []); reflexivity.
Defined.

(** Without any [main] the run stops before it starts. *)
Lemma begin_execution_entry_point_witness :
  begin_execution (H := Console.host) 3 [pair; g] []
  = (Raise MustDeclareMain, []).
Proof.
  exact (proj2
           (begin_execution_entry_point (H := Console.host) 3 [pair; g] [])).
Defined.

(** With a [main] without parameters, its body is run: the host prints. *)
Example run_main :
  begin_execution (H := Console.host) 3 [pair; main] []
  = (Ok tt, [[PyStr "hi"]]).
Proof. vm_compute. reflexivity. Qed.

(** Two definitions named [main] without parameters: the run does not
    fail, the later one is the entry point. *)
Lemma two_mains_accepted :
  Forall (fun item => name item = "main" /\ arguments item = [])
    [first_main; main]
  /\ first_main <> main
  /\ begin_execution (H := Console.host) 3 [first_main; main] []
     = (Ok tt, [[PyStr "hi"]]).
Proof.
  split; [repeat constructor|].
  split; [discriminate|].
  vm_compute. reflexivity.
Qed.

(** [pair] on one argument and on three; then [pair], whose body is the
    one item [a], and [second], whose body is the lines [a] and [b], on
    the two arguments 1 and 2, and [nothing] on none. *)
Lemma call_arity_witness :
  ({[ "pair" := pair ]} : function_table) !! "pair" = Some pair
  /\ ((exists e w',
         call_function (H := Console.host) {[ "pair" := pair ]} 1 "pair"
           [PyInt 1] [] = (Raise e, w')
         /\ arity_error_of "pair" ["a"; "b"] 1 e)
      <-> 1%nat <> 2%nat)
  /\ ((exists e w',
         execute_item (H := Console.host) {[ "pair" := pair ]} 1
           (CallNode "pair" [IntegerNode 1; IntegerNode 2; IntegerNode 3])
           ∅ [] = (Raise e, w')
         /\ arity_error_of "pair" ["a"; "b"] 3 e)
      <-> 3%nat <> 2%nat)
  /\ execute_item (H := Console.host) {[ "pair" := pair ]} 3
       (CallNode "pair" [IntegerNode 1; IntegerNode 2]) ∅ []
     = (Ok (PyInt 1, ∅), [])
  /\ execute_item (H := Console.host) {[ "second" := second ]} 3
       (CallNode "second" [IntegerNode 1; IntegerNode 2]) ∅ []
     = (Ok (PyInt 2, ∅), [])
  /\ execute_item (H := Console.host) {[ "nothing" := nothing ]} 3
       (CallNode "nothing" []) {[ "x" := PyInt 1 ]} []
     = (Ok (PyNone, {[ "x" := PyInt 1 ]}), []).
Proof.
  assert (({[ "pair" := pair ]} : function_table) !! "pair" = Some pair)
    as Hpair by reflexivity.
  assert (({[ "second" := second ]} : function_table) !! "second"
          = Some second) as Hsecond by reflexivity.
  assert (({[ "nothing" := nothing ]} : function_table) !! "nothing"
          = Some nothing) as Hnothing by reflexivity.
  split; [exact Hpair|].
  destruct (call_arity (H := Console.host) {[ "pair" := pair ]} "pair" pair
              Hpair) as (Hcall & Hnode & Hbody).
  split; [exact (Hcall 0%nat [PyInt 1] [])|].
  split;
    [exact (Hnode 0%nat [IntegerNode 1; IntegerNode 2; IntegerNode 3] ∅ [])|].
  split; [|split].
  - destruct (Hbody 1%nat [IntegerNode 1; IntegerNode 2] ∅ []
                [PyInt 1; PyInt 2] ∅ [] eq_refl eq_refl)
      as (function_variables & Hbound & Hsingle & _ & _).
    rewrite (Hsingle I).
    simpl in Hbound. injection Hbound as <-. reflexivity.
  - destruct (proj2 (proj2
                (call_arity (H := Console.host) {[ "second" := second ]}
                   "second" second Hsecond))
                1%nat [IntegerNode 1; IntegerNode 2] ∅ []
                [PyInt 1; PyInt 2] ∅ [] eq_refl eq_refl)
      as (function_variables & Hbound & _ & Hlines & _).
    rewrite (Hlines [VariableReferenceNode "a"] (VariableReferenceNode "b")
               eq_refl).
    simpl in Hbound. injection Hbound as <-. reflexivity.
  - destruct (proj2 (proj2
                (call_arity (H := Console.host) {[ "nothing" := nothing ]}
                   "nothing" nothing Hnothing))
                1%nat [] {[ "x" := PyInt 1 ]} [] [] {[ "x" := PyInt 1 ]} []
                eq_refl eq_refl)
      as (function_variables & _ & _ & _ & Hempty).
    exact (Hempty eq_refl).
Defined.

(** [g] reads [x]; its caller has bound [x], and [g] does not see it. *)
Lemma call_scope_isolation_witness :
  ({[ "g" := g ]} : function_table) !! "g" = Some g
  /\ execute_item (H := Console.host) {[ "g" := g ]} 3 (CallNode "g" [])
       {[ "x" := PyInt 1 ]} []
     = (Raise (KeyError (PyStr "x")), []).
Proof.
  assert (({[ "g" := g ]} : function_table) !! "g" = Some g)
    as Hg by reflexivity.
  split; [exact Hg|].
  apply (proj2 (proj2
           (call_scope_isolation (H := Console.host) {[ "g" := g ]} "g" g
              Hg))
           0%nat "x" [] {[ "x" := PyInt 1 ]} [] {[ "x" := PyInt 1 ]} [] []).
  - apply not_elem_of_nil.
  - reflexivity.
  - reflexivity.
  - reflexivity.
Defined.

End SampleRuns.

(* ===================================================================== *)
(** * More sample runs *)
(* ===================================================================== *)

Section MoreSampleRuns.

Import Samples Programs.

Lemma tokenize_code_well_lexed_witness :
  tokenize_code greeting_source = Ok greeting_tokens
  /\ Forall well_lexed greeting_tokens.
Proof.
  assert (tokenize_code greeting_source = Ok greeting_tokens) as Ht
    by (vm_compute; reflexivity).
  split; [exact Ht|]. exact (tokenize_code_well_lexed _ _ Ht).
Defined.

Lemma tokenize_code_leading_space_witness :
  Text.all_space nl = true
  /\ tokenize_code (String.append nl greeting_source)
     = tokenize_code greeting_source.
Proof.
  assert (Text.all_space nl = true) as Hgap by reflexivity.
  split; [exact Hgap|].
  exact (tokenize_code_leading_space nl greeting_source Hgap).
Defined.

Lemma tokenize_code_one_line_witness :
  Text.has_newline sum_source = false
  /\ tokenize_code sum_source = Ok sum_tokens
  /\ existsb is_declaration sum_tokens = false.
Proof.
  assert (Text.has_newline sum_source = false) as Hline by reflexivity.
  assert (tokenize_code sum_source = Ok sum_tokens) as Ht
    by (vm_compute; reflexivity).
  split; [exact Hline|]. split; [exact Ht|].
  exact (tokenize_code_one_line _ _ Hline Ht).
Defined.

Lemma parse_tokenized_sound_witness :
  exists ast,
    tokenize_code greeting_source = Ok greeting_tokens
    /\ parse 20 greeting_tokens = Ok ast
    /\ forallb sound_definition ast = true.
Proof.
  assert (tokenize_code greeting_source = Ok greeting_tokens) as Ht
    by (vm_compute; reflexivity).
  destruct (parse 20 greeting_tokens) as [ast| |] eqn:Hp;
    [|vm_compute in Hp; discriminate|vm_compute in Hp; discriminate].
  exists ast. split; [exact Ht|]. split; [reflexivity|].
  exact (parse_tokenized_sound _ _ _ _ Ht Hp).
Defined.

Lemma parse_tokenized_raises_witness :
  tokenize_code open_source = Ok open_tokens
  /\ parse 5 open_tokens = Raise IndexError
  /\ parser_exception IndexError = true.
Proof.
  assert (tokenize_code open_source = Ok open_tokens) as Ht
    by (vm_compute; reflexivity).
  assert (parse 5 open_tokens = Raise IndexError) as Hp
    by (vm_compute; reflexivity).
  split; [exact Ht|]. split; [exact Hp|].
  exact (parse_tokenized_raises _ _ _ _ Ht Hp).
Defined.

Lemma console_keeps_logged :
  forall callee function args w,
    builtins (Host := Console.host) callee = Some function ->
    logged w -> logged (snd (function args w)).
Proof.
  intros callee function args w Hb Hw. simpl in Hb.
  destruct (String.eqb callee "print").
  - injection Hb as <-. simpl. now apply prefix_app_r.
  - destruct (String.eqb callee "len"); [|discriminate].
    injection Hb as <-. unfold Console.len.
    destruct args as [|[| |s| |] [|? ?]]; exact Hw.
Defined.

Lemma host_invariant_kept_witness :
  logged [[PyStr "log"]]
  /\ logged (snd (run_source (H := Console.host) 20 greeting_source
                    [[PyStr "log"]])).
Proof.
  assert (logged [[PyStr "log"]]) as Hw by (exists []; reflexivity).
  split; [exact Hw|].
  exact (proj2 (host_invariant_kept (H := Console.host) logged
                  console_keeps_logged) 20%nat greeting_source _ Hw).
Defined.

Lemma scope_never_shrinks_witness :
  execute_item (H := Console.host) ∅ 2
    (VariableDeclarationNode "y" (IntegerNode 2)) {[ "x" := PyInt 1 ]} []
  = (Ok (PyNone, <[ "y" := PyInt 2 ]> {[ "x" := PyInt 1 ]}), [])
  /\ dom ({[ "x" := PyInt 1 ]} : scope)
     ⊆ dom (<[ "y" := PyInt 2 ]> {[ "x" := PyInt 1 ]} : scope).
Proof.
  assert (execute_item (H := Console.host) ∅ 2
            (VariableDeclarationNode "y" (IntegerNode 2))
            {[ "x" := PyInt 1 ]} []
          = (Ok (PyNone, <[ "y" := PyInt 2 ]> {[ "x" := PyInt 1 ]}), []))
    as Hrun by reflexivity.
  split; [exact Hrun|].
  exact (scope_never_shrinks (H := Console.host) _ _ _ _ _ _ _ _ Hrun).
Defined.

Lemma no_assignment_no_change_witness :
  assigns (CallNode "print" [VariableReferenceNode "x"]) = false
  /\ execute_item (H := Console.host) ∅ 2
       (CallNode "print" [VariableReferenceNode "x"]) {[ "x" := PyInt 1 ]} []
     = (Ok (PyNone, {[ "x" := PyInt 1 ]}), [[PyInt 1]])
  /\ ({[ "x" := PyInt 1 ]} : scope) = {[ "x" := PyInt 1 ]}.
Proof.
  assert (assigns (CallNode "print" [VariableReferenceNode "x"]) = false)
    as Hitem by reflexivity.
  assert (execute_item (H := Console.host) ∅ 2
            (CallNode "print" [VariableReferenceNode "x"])
            {[ "x" := PyInt 1 ]} []
          = (Ok (PyNone, {[ "x" := PyInt 1 ]}), [[PyInt 1]])) as Hrun
    by reflexivity.
  split; [exact Hitem|]. split; [exact Hrun|].
  exact (no_assignment_no_change (H := Console.host) _ _ _ _ _ _ _ _
           Hitem Hrun).
Defined.

Lemma call_returns_argument_witness :
  call_function (H := Console.host) {[ "pair" := pair ]} 2 "pair"
    [PyInt 1; PyInt 2] []
  = (Ok (PyInt 1), []).
Proof.
  apply (call_returns_argument (H := Console.host) {[ "pair" := pair ]}
           0 "pair" pair [PyInt 1; PyInt 2] 0 "a" (PyInt 1) []).
  - reflexivity.
  - reflexivity.
  - refine (bool_decide_unpack (NoDup ["a"; "b"]) _). reflexivity.
  - reflexivity.
  - reflexivity.
  - reflexivity.
Defined.

Lemma assignment_binds_target_witness :
  "y" ∈ dom (<[ "y" := PyInt 2 ]> {[ "x" := PyInt 1 ]} : scope).
Proof.
  apply (assignment_binds_target (H := Console.host) ∅ 2 "y" (IntegerNode 2)
           {[ "x" := PyInt 1 ]} _ PyNone [] []).
  reflexivity.
Defined.

Lemma entry_point_error_before_run_witness :
  begin_execution (H := Console.host) 5 [pair] [[PyStr "log"]]
  = (Raise MustDeclareMain, [[PyStr "log"]]).
Proof.
  destruct (begin_execution (H := Console.host) 5 [pair] [[PyStr "log"]])
    as [[u|e|] w'] eqn:Hrun;
    [vm_compute in Hrun; discriminate| |vm_compute in Hrun; discriminate].
  assert (e = MustDeclareMain) as -> by (vm_compute in Hrun; congruence).
  now rewrite (entry_point_error_before_run (H := Console.host) _ _ _ _ _
                 Hrun eq_refl).
Defined.

Lemma run_source_without_def_witness :
  tokenize_code sum_source = Ok sum_tokens
  /\ run_source (H := Console.host) 5 sum_source []
     = (Raise MustDeclareMain, []).
Proof.
  assert (tokenize_code sum_source = Ok sum_tokens) as Ht
    by (vm_compute; reflexivity).
  split; [exact Ht|].
  exact (run_source_without_def (H := Console.host) 5 _ _ [] Ht eq_refl).
Defined.

Lemma script_stops_at_zero_only_witness :
  run_source (H := Console.host) 10 zero_source []
  = (Raise (NoWayToExecute (IntegerNode 0)), [])
  /\ zero_or_other (NoWayToExecute (IntegerNode 0)) = true.
Proof.
  assert (run_source (H := Console.host) 10 zero_source []
          = (Raise (NoWayToExecute (IntegerNode 0)), [])) as Hrun
    by (vm_compute; reflexivity).
  split; [exact Hrun|].
  exact (script_stops_at_zero_only (H := Console.host) _ _ _ _ _ Hrun).
Defined.

Lemma parse_round_trip_witness :
  parse (parse_fuel (Syntax.source_tokens [written_main]) + 0)
    (Syntax.source_tokens [written_main])
  = Ok [Syntax.definition_node written_main].
Proof.
  pose proof (parse_round_trip [written_main] [] 0 eq_refl eq_refl) as Hp.
  rewrite app_nil_r in Hp. exact Hp.
Defined.

Lemma definitions_shadow_host_witness :
  execute_item (H := host_of _ (builtins (Host := Console.host)))
    {[ "print" := print_definition ]} 5 (CallNode "print" [StringNode "hi"])
    ∅ []
  = execute_item (H := host_of _ hidden_print)
      {[ "print" := print_definition ]} 5 (CallNode "print" [StringNode "hi"])
      ∅ [].
Proof.
  apply definitions_shadow_host. intros callee Hnone. unfold hidden_print.
  destruct (String.eqb callee "print") eqn:E; [|reflexivity].
  apply String.eqb_eq in E. subst callee.
  rewrite lookup_singleton_eq in Hnone. discriminate.
Defined.

Lemma test_script_witness :
  run_source (H := TestProgram.terminal) (20 + 0) TestProgram.CODE []
  = (Ok tt,
     [ [PyStr TestProgram.prompt];
       [PyStr TestProgram.greeting; PyStr "ada"] ]).
Proof.
  exact (test_script (H := TestProgram.terminal) 0 [] TestProgram.input
           Console.print eq_refl eq_refl).
Defined.

End MoreSampleRuns.
